(** * Bank reconciliation: the matching core of [app2.py]

    A shallow embedding of [normalize_text], [similarity] and [reconcile],
    and the properties of the specification settled against it.

    Modelling conventions.
    - A Python [str] is a list of code points; the model covers the code
      points U+0000..U+00FF, carried by [ascii].
    - A Python [float] is the rational number it denotes ([Q]).  Every
      operation of the code on floats is the exact operation followed by
      [Binary64.round], the rounding to 53 significant bits with ties to
      the even significand; the exponent is not bounded (no infinity, no
      subnormal number), so the model is binary64 as long as no result
      leaves the range of the normal doubles.  The quotient of the bucket
      key is taken exactly; it rounds to the same integer as its double for
      amounts below 2^53 in magnitude.
    - A calendar date is its day number ([Z]), so that [(d1 - d2).days] is
      the difference of two day numbers.
    - A data frame is the list of its rows; the index label of a row is its
      position (the [RangeIndex] that [pd.read_csv] creates).
    - A computation that can raise returns in [result]. *)

From Stdlib Require Import Ascii String QArith Qabs Qround Qpower Lqa.
From stdpp Require Import gmap strings list fin_maps sorting.
From Equations Require Import Equations.

(** ** Python strings *)

Module Str.

Abbreviation str := (list ascii).

Definition code (c : ascii) : N := N_of_ascii c.

(** [str.isspace] on one code point below U+0100. *)
Definition isspace (c : ascii) : bool :=
  let n := code c in
  ((9 <=? n) && (n <=? 13) || (28 <=? n) && (n <=? 32)
   || (n =? 133) || (n =? 160))%N.

(** [str.lower] on one code point below U+0100: the letters A-Z and the
    Latin-1 capitals U+00C0..U+00DE (U+00D7, the multiplication sign, is
    not a letter). *)
Definition lower_char (c : ascii) : ascii :=
  let n := code c in
  if ((65 <=? n) && (n <=? 90)
      || (192 <=? n) && (n <=? 222) && negb (n =? 215))%N
  then ascii_of_N (n + 32) else c.

(** [str.lower] on a string of code points below U+0100, where one code
    point becomes one code point.  (Beyond U+00FF this is not so: U+0130
    becomes two code points.) *)
Definition lower (s : str) : str := map lower_char s.

Fixpoint lstrip (s : str) : str :=
  match s with
  | c :: s' => if isspace c then lstrip s' else s
  | [] => []
  end.

Definition rstrip (s : str) : str := rev (lstrip (rev s)).

(** [s.strip()] *)
Definition strip (s : str) : str := rstrip (lstrip s).

(** [s.startswith(p)] *)
Fixpoint startswith (p s : str) : bool :=
  match p, s with
  | [], _ => true
  | a :: p', b :: s' => bool_decide (a = b) && startswith p' s'
  | _ :: _, [] => false
  end.

(** [s.replace(old, new)]: the occurrences of [old] are found from the
    left and do not overlap.  For an empty [old], Python puts [new]
    before every character and at the end. *)
Equations replace (old new s : str) : str by wf (length s) lt :=
  replace [] new s := new ++ flat_map (fun c => c :: new) s;
  replace (o :: old) new [] := [];
  replace (o :: old) new (c :: s) :=
    if startswith (o :: old) (c :: s)
    then new ++ replace (o :: old) new (drop (length old) s)
    else c :: replace (o :: old) new s.
Next Obligation. intros. simpl. rewrite length_drop. lia. Qed.

(** The fields of [s] between whitespace characters, empty ones included. *)
Fixpoint fields (s : str) : list str :=
  match s with
  | [] => [[]]
  | c :: s' =>
      if isspace c then [] :: fields s'
      else match fields s' with
           | w :: ws => (c :: w) :: ws
           | [] => [[c]]
           end
  end.

Definition nonempty (w : str) : bool :=
  match w with [] => false | _ :: _ => true end.

(** [s.split()]: split at runs of whitespace, no empty words. *)
Definition split (s : str) : list str := filter (fun w => nonempty w = true) (fields s).

(** [sep.join(ws)] *)
Fixpoint join (sep : str) (ws : list str) : str :=
  match ws with
  | [] => []
  | [w] => w
  | w :: ws' => w ++ sep ++ join sep ws'
  end.

End Str.

Definition lit (s : string) : Str.str := list_ascii_of_string s.

(** ** normalize_text *)

Definition stop_tokens : list Str.str :=
  [lit "."; lit ","; lit "&"; lit "ltd"; lit "pvt"; lit "online"; lit "india"].

(** The body of [normalize_text] after the [pd.isna] test. *)
Definition normalize_str (s : Str.str) : Str.str :=
  let s := Str.strip (Str.lower s) in
  let s := foldl (fun s ch => Str.replace ch (lit " ") s) s stop_tokens in
  Str.join (lit " ") (Str.split s).

(** [normalize_text(s)]: [None] is a missing value ([pd.isna(s)]). *)
Definition normalize_text (s : option string) : string :=
  match s with
  | None => EmptyString
  | Some s => string_of_list_ascii (normalize_str (list_ascii_of_string s))
  end.

(** ** Exceptions *)

Inductive exn := ZeroDivisionError | KeyError.

Definition result (A : Type) : Type := exn + A.

#[global] Instance result_ret : MRet result := fun A x => inr x.
#[global] Instance result_bind : MBind result :=
  fun A B f m => match m with inl e => inl e | inr x => f x end.

(** A [for] loop whose body can raise. *)
Fixpoint for_each {A S : Type} (body : S -> A -> result S) (l : list A) (s : S) : result S :=
  match l with
  | [] => mret s
  | x :: l' => s' ← body s x; for_each body l' s'
  end.

(** [df.iterrows()]: the rows with their index labels. *)
Definition iterrows {A : Type} (df : list A) : list (nat * A) := imap pair df.

(** [df.loc[labels]]: a label that is not in the index raises [KeyError]. *)
Definition loc {A : Type} (df : list A) (labels : list nat) : result (list A) :=
  mapM (fun i => match df !! i with Some r => mret r | None => inl KeyError end) labels.

(** ** Numbers *)

(** [round(x)]: to the nearest integer, a tie to the even one. *)
Definition py_round (x : Q) : Z :=
  let f := Qfloor x in
  match (x - inject_Z f ?= 1 # 2)%Q with
  | Lt => f
  | Gt => (f + 1)%Z
  | Eq => if Z.even f then f else (f + 1)%Z
  end.

(** The arithmetic of Python on floats. *)
Module Binary64.

(** [floor(log2 |x|)], for [x] not zero. *)
Definition ilog2 (x : Q) : Z :=
  let l := (Z.log2 (Z.abs (Qnum x)) - Z.log2 (Z.pos (Qden x)))%Z in
  if Qle_bool (2 ^ l) (Qabs x) then l else (l - 1)%Z.

(** The number of 53 significant bits nearest to [x], a tie to the one of
    even significand: the double nearest to [x]. *)
Definition round (x : Q) : Q :=
  let x := Qred x in
  if Qeq_bool x 0 then 0%Q
  else let e := (ilog2 x - 52)%Z in
       Qred (inject_Z (py_round (x / 2 ^ e)) * 2 ^ e).

(** [x + y], [x - y], [x * y] and [x / y] on floats. *)
Definition add (x y : Q) : Q := round (x + y).
Definition sub (x y : Q) : Q := round (x - y).
Definition mul (x y : Q) : Q := round (x * y).
Definition div (x y : Q) : Q := round (x / y).

End Binary64.

Arguments Binary64.round : simpl never.

(** [x / y] on floats: a zero divisor raises. *)
Definition py_div (x y : Q) : result Q :=
  if Qeq_bool y 0 then inl ZeroDivisionError else mret (Binary64.div x y).

Definition Qlt_bool (x y : Q) : bool := negb (Qle_bool y x).

(** [int(round(amount / 10))] *)
Definition bucket_key (amount : Q) : Z := py_round (amount / 10).

(** ** difflib.SequenceMatcher(None, a, b).ratio() *)

Module SequenceMatcher.

Import Str.

(** [__chain_b]: the positions of every element of [b]; with [autojunk]
    (the default) the elements of a [b] of 200 or more that occur more than
    [n // 100 + 1] times are dropped.  [isjunk] is [None]: no junk. *)
Definition chain_b (b : str) : gmap ascii (list nat) :=
  let b2j := foldl (fun (m : gmap ascii (list nat)) '(i, elt) =>
                      <[elt := default [] (m !! elt) ++ [i]]> m) ∅ (iterrows b) in
  let n := length b in
  if decide (200 ≤ n)
  then filter (fun p => ¬ (n / 100 + 1 < length p.2)) b2j
  else b2j.

Record Match := mkMatch { m_a : nat; m_b : nat; m_size : nat }.

Section find_longest_match.
Variables (a b : str) (b2j : gmap ascii (list nat)).
Variables (alo ahi blo bhi : nat).

(** The loop over [b2j.get(a[i], nothing)]: [continue] below [blo],
    [break] from [bhi] on. *)
Fixpoint scan_js (i : nat) (j2len : gmap Z nat) (js : list nat)
    (st : gmap Z nat * Match) : gmap Z nat * Match :=
  match js with
  | [] => st
  | j :: js' =>
      if decide (j < blo) then scan_js i j2len js' st
      else if decide (bhi ≤ j) then st
      else
        let '(newj2len, best) := st in
        let k := default 0 (j2len !! (Z.of_nat j - 1)%Z) + 1 in
        let newj2len := <[Z.of_nat j := k]> newj2len in
        let best := if decide (m_size best < k)
                    then mkMatch (i + 1 - k) (j + 1 - k) k else best in
        scan_js i j2len js' (newj2len, best)
  end.

(** The loop over [range(alo, ahi)]. *)
Definition scan_is (st : gmap Z nat * Match) (i : nat) : gmap Z nat * Match :=
  let '(j2len, best) := st in
  let js := match a !! i with Some c => default [] (b2j !! c) | None => [] end in
  let '(newj2len, best) := scan_js i j2len js (∅, best) in
  (newj2len, best).

(** [while besti > alo and bestj > blo and a[besti-1] == b[bestj-1]] *)
Fixpoint extend_left (besti bestj bestsize : nat) : Match :=
  match besti with
  | O => mkMatch besti bestj bestsize
  | S i' =>
      if decide (alo < besti ∧ blo < bestj ∧
                 is_Some (a !! i') ∧ a !! i' = b !! (bestj - 1))
      then extend_left i' (bestj - 1) (bestsize + 1)
      else mkMatch besti bestj bestsize
  end.

(** [while besti+bestsize < ahi and bestj+bestsize < bhi and
    a[besti+bestsize] == b[bestj+bestsize]]; [n] counts the elements of
    [a] that remain up to [ahi]. *)
Fixpoint extend_right (besti bestj : nat) (n : nat) (bestsize : nat) : Match :=
  match n with
  | O => mkMatch besti bestj bestsize
  | S n' =>
      if decide (besti + bestsize < ahi ∧ bestj + bestsize < bhi ∧
                 is_Some (a !! (besti + bestsize)) ∧
                 a !! (besti + bestsize) = b !! (bestj + bestsize))
      then extend_right besti bestj n' (bestsize + 1)
      else mkMatch besti bestj bestsize
  end.

(** [find_longest_match(alo, ahi, blo, bhi)].  The two loops that extend
    the match by junk do nothing, [bjunk] being empty. *)
Definition find_longest_match : Match :=
  let '(_, best) := foldl scan_is (∅, mkMatch alo blo 0) (seq alo (ahi - alo)) in
  let best := extend_left (m_a best) (m_b best) (m_size best) in
  extend_right (m_a best) (m_b best) (ahi - (m_a best + m_size best)) (m_size best).

End find_longest_match.

(** The [while queue] loop of [get_matching_blocks]; [queue.pop()] takes
    the block appended last.  Every turn handles one block, and [fuel]
    bounds the number of turns. *)
Fixpoint matching_loop (a b : str) (b2j : gmap ascii (list nat)) (fuel : nat)
    (queue : list (nat * nat * nat * nat)) (matching_blocks : list Match) : list Match :=
  match fuel, queue with
  | S fuel', (alo, ahi, blo, bhi) :: queue =>
      let x := find_longest_match a b b2j alo ahi blo bhi in
      let '(mkMatch i j k) := x in
      if decide (k = 0) then matching_loop a b b2j fuel' queue matching_blocks
      else
        let queue := if decide (alo < i ∧ blo < j)
                     then (alo, i, blo, j) :: queue else queue in
        let queue := if decide (i + k < ahi ∧ j + k < bhi)
                     then (i + k, ahi, j + k, bhi) :: queue else queue in
        matching_loop a b b2j fuel' queue (matching_blocks ++ [x])
  | _, _ => matching_blocks
  end.

Definition match_le (x y : Match) : Prop :=
  m_a x < m_a y ∨ m_a x = m_a y ∧
    (m_b x < m_b y ∨ m_b x = m_b y ∧ m_size x ≤ m_size y).

#[global] Instance match_le_dec x y : Decision (match_le x y).
Proof. unfold match_le. apply _. Defined.

(** The loop that collapses adjacent blocks; [cur] is [(i1, j1, k1)]. *)
Fixpoint collapse (cur : Match) (blocks : list Match) (non_adjacent : list Match) : list Match :=
  match blocks with
  | [] => if decide (m_size cur = 0) then non_adjacent else non_adjacent ++ [cur]
  | x :: blocks' =>
      if decide (m_a cur + m_size cur = m_a x ∧ m_b cur + m_size cur = m_b x)
      then collapse (mkMatch (m_a cur) (m_b cur) (m_size cur + m_size x)) blocks' non_adjacent
      else collapse x blocks'
             (if decide (m_size cur = 0) then non_adjacent else non_adjacent ++ [cur])
  end.

Definition get_matching_blocks (a b : str) : list Match :=
  let la := length a in
  let lb := length b in
  let blocks := matching_loop a b (chain_b b) (2 * la + 1) [(0, la, 0, lb)] [] in
  let blocks := merge_sort match_le blocks in
  collapse (mkMatch 0 0 0) blocks [] ++ [mkMatch la lb 0].

(** [_calculate_ratio(matches, length)]: [2.0 * matches / length].  The
    product and the conversions of the two integers are exact below 2^53. *)
Definition calculate_ratio (matches length : nat) : Q :=
  if decide (length = 0) then 1
  else Binary64.div (2 * inject_Z (Z.of_nat matches)) (inject_Z (Z.of_nat length)).

Definition ratio (a b : str) : Q :=
  let matches := foldr (fun x acc => m_size x + acc) 0 (get_matching_blocks a b) in
  calculate_ratio matches (length a + length b).

End SequenceMatcher.

Definition similarity (a b : string) : Q :=
  SequenceMatcher.ratio (list_ascii_of_string a) (list_ascii_of_string b).

(** ** The two ledgers and the match record *)

Module Internal.
Record row := mk {
  Transaction_ID : string;
  Date : Z;
  Amount : Q;
  Vendor : option string;
  Vendor_clean : string
}.
End Internal.

Module Bank.
Record row := mk {
  Bank_Ref : string;
  Date : Z;
  Amount : Q;
  Vendor_Name : option string;
  Vendor_clean : string
}.
End Bank.

Record MatchRecord := mkMatchRecord {
  Transaction_ID : string;
  Internal_Date : Z;
  Internal_Amount : Q;
  Vendor_internal : option string;
  Bank_Ref : string;
  Bank_Date : Z;
  Bank_Amount : Q;
  Vendor_bank : option string;
  Vendor_similarity : Q;
  Amount_diff : Q;
  MatchType : string
}.

(** ** reconcile *)

Abbreviation bucket := (list (nat * Bank.row)).

(** The loop that fills [bank_by_amount]. *)
Definition build_buckets (bank_df : list Bank.row) : gmap Z bucket :=
  foldl (fun (bank_by_amount : gmap Z bucket) '(i, b) =>
           let key := bucket_key (Bank.Amount b) in
           <[key := default [] (bank_by_amount !! key) ++ [(i, b)]]> bank_by_amount)
        ∅ (iterrows bank_df).

(** [best_match]: [(i, j, b, sim, amt_diff)] *)
Definition best_tuple : Type := nat * nat * Bank.row * Q * Q.

Section matching.
Variables (date_tol_days : Z) (sim_threshold : Q).
Variable bank_by_amount : gmap Z bucket.

(** The body of the loop over one bucket, for the internal row [row] at
    label [i]; the state is [(best_score, best_match)]. *)
Definition consider (bank_idx_used : gset nat) (i : nat) (row : Internal.row)
    (st : Q * option best_tuple) (jb : nat * Bank.row) : result (Q * option best_tuple) :=
  let '(best_score, best_match) := st in
  let '(j, b) := jb in
  let int_date := Internal.Date row in
  let int_amt := Internal.Amount row in
  if decide (j ∈ bank_idx_used) then mret st
  else if (Z.abs (int_date - Bank.Date b) <=? date_tol_days)%Z then
    let sim := similarity (Internal.Vendor_clean row) (Bank.Vendor_clean b) in
    let amt_diff := Qabs (Binary64.sub int_amt (Bank.Amount b)) in
    q ← py_div amt_diff (Binary64.add int_amt 1);
    let score := Binary64.sub sim (Binary64.mul q (1 # 4)) in
    if Qlt_bool best_score score && Qle_bool sim_threshold sim
    then mret (score, Some (i, j, b, sim, amt_diff))
    else mret st
  else mret st.

(** [for k in candidate_keys: for j, b in bank_by_amount.get(k, []): ...] *)
Definition scan (bank_idx_used : gset nat) (i : nat) (row : Internal.row)
    : result (Q * option best_tuple) :=
  let key := bucket_key (Internal.Amount row) in
  let candidate_keys := [key - 1; key; key + 1]%Z in
  for_each (fun st k =>
              for_each (consider bank_idx_used i row)
                       (default [] (bank_by_amount !! k)) st)
           candidate_keys (0%Q, None).

(** The record appended to [matches]. *)
Definition match_record (row : Internal.row) (b_row : Bank.row) (sim amt_diff : Q)
    : MatchRecord :=
  {| Transaction_ID := Internal.Transaction_ID row;
     Internal_Date := Internal.Date row;
     Internal_Amount := Internal.Amount row;
     Vendor_internal := Internal.Vendor row;
     Bank_Ref := Bank.Bank_Ref b_row;
     Bank_Date := Bank.Date b_row;
     Bank_Amount := Bank.Amount b_row;
     Vendor_bank := Bank.Vendor_Name b_row;
     Vendor_similarity := sim;
     Amount_diff := amt_diff;
     MatchType := "Fuzzy" |}.

(** The state of the main loop. *)
Record state := mkState {
  bank_idx_used : gset nat;
  matches : list MatchRecord;
  unmatched_internal : list nat
}.

(** The body of the loop over [internal_df.iterrows()].  The fields of the
    record are read with [internal_df.at[i_idx, ...]]. *)
Definition step (internal_df : list Internal.row) (st : state)
    (ir : nat * Internal.row) : result state :=
  let '(i, row) := ir in
  '(_, best_match) ← scan (bank_idx_used st) i row;
  match best_match with
  | Some (i_idx, j_idx, b_row, sim, amt_diff) =>
      at_row ← match internal_df !! i_idx with
               | Some r => mret r
               | None => inl KeyError
               end;
      mret {| bank_idx_used := {[j_idx]} ∪ bank_idx_used st;
              matches := matches st ++ [match_record at_row b_row sim amt_diff];
              unmatched_internal := unmatched_internal st |}
  | None =>
      mret {| bank_idx_used := bank_idx_used st;
              matches := matches st;
              unmatched_internal := unmatched_internal st ++ [i] |}
  end.

Definition initial : state :=
  {| bank_idx_used := ∅; matches := []; unmatched_internal := [] |}.

(** The main loop, over the rows [rows] of [internal_df] from [st]. *)
Definition run (internal_df : list Internal.row) (rows : list (nat * Internal.row))
    (st : state) : result state :=
  for_each (step internal_df) rows st.

End matching.

(** [reconcile(internal_df, bank_df, date_tol_days, amount_tol, sim_threshold)]:
    the three data frames [(matches, unmatched internal, unmatched bank)]. *)
Definition reconcile (internal_df : list Internal.row) (bank_df : list Bank.row)
    (date_tol_days : Z) (amount_tol : Q) (sim_threshold : Q)
    : result (list MatchRecord * list Internal.row * list Bank.row) :=
  let bank_by_amount := build_buckets bank_df in
  st ← run date_tol_days sim_threshold bank_by_amount internal_df
          (iterrows internal_df) initial;
  let unmatched_bank :=
    filter (fun i => i ∉ bank_idx_used st) (seq 0 (length bank_df)) in
  ui ← loc internal_df (unmatched_internal st);
  ub ← loc bank_df unmatched_bank;
  mret (matches st, ui, ub).

(** ** Vocabulary of the specification *)

Section vocabulary.
Variables (date_tol_days : Z) (sim_threshold : Q).

(** The bank rows looked at for [row], in the order of the search: the
    buckets [key - 1], [key], [key + 1]. *)
Definition candidates (bank_by_amount : gmap Z bucket) (row : Internal.row) : bucket :=
  let key := bucket_key (Internal.Amount row) in
  concat (map (fun k => default [] (bank_by_amount !! k)) [key - 1; key; key + 1]%Z).

(** [b] lies in one of the three buckets searched for [row]. *)
Definition in_window (row : Internal.row) (b : Bank.row) : Prop :=
  let key := bucket_key (Internal.Amount row) in
  let kb := bucket_key (Bank.Amount b) in
  kb = (key - 1)%Z ∨ kb = key ∨ kb = (key + 1)%Z.

Definition vendor_sim (row : Internal.row) (b : Bank.row) : Q :=
  similarity (Internal.Vendor_clean row) (Bank.Vendor_clean b).

(** [amt_diff] of line 43: the difference of the floats, without its sign. *)
Definition amount_diff (row : Internal.row) (b : Bank.row) : Q :=
  Qabs (Binary64.sub (Internal.Amount row) (Bank.Amount b)).

(** The score of line 44, [sim - (amt_diff / (int_amt + 1)) * 0.25], as the
    floats compute it. *)
Definition score (row : Internal.row) (b : Bank.row) : Q :=
  Binary64.sub (vendor_sim row b)
    (Binary64.mul (Binary64.div (amount_diff row b)
                                (Binary64.add (Internal.Amount row) 1)) (1 # 4)).

(** The bank row [b] at label [j] is not used yet, is within the date
    tolerance of [row], and its vendor is similar enough. *)
Definition eligible (used : gset nat) (row : Internal.row) (j : nat) (b : Bank.row) : Prop :=
  (j ∉ used) ∧
  (Z.abs (Internal.Date row - Bank.Date b) ≤ date_tol_days)%Z ∧
  (sim_threshold <= vendor_sim row b)%Q.

(** The record of the pair of [row] and [b]. *)
Definition record_of (row : Internal.row) (b : Bank.row) : MatchRecord :=
  match_record row b (vendor_sim row b) (amount_diff row b).

(** The score of line 44, computed again from the fields of a record. *)
Definition record_score (m : MatchRecord) : Q :=
  Binary64.sub (Vendor_similarity m)
    (Binary64.mul (Binary64.div (Amount_diff m)
                                (Binary64.add (Internal_Amount m) 1)) (1 # 4)).

(** What the state [(best_score, best_match)] of the scan for the row
    [row] at label [i] satisfies after the candidates [seen]. *)
Definition best_ok (used : gset nat) (i : nat) (row : Internal.row)
    (seen : bucket) (st : Q * option best_tuple) : Prop :=
  (∀ j b, (j, b) ∈ seen → eligible used row j b → (score row b <= st.1)%Q) ∧
  match st.2 with
  | None => st.1 = 0%Q
  | Some (i', j, b, sim, amt_diff) =>
      i' = i ∧ (j, b) ∈ seen ∧ eligible used row j b ∧
      sim = vendor_sim row b ∧ amt_diff = amount_diff row b ∧
      st.1 = score row b ∧ (0 < score row b)%Q
  end.

End vocabulary.

Section run_vocabulary.
Variables (internal_df : list Internal.row) (bank_df : list Bank.row).
Variables (date_tol_days : Z) (sim_threshold : Q).

(** The main loop of [reconcile] on the rows [rows], from [st]. *)
Definition run_on (rows : list (nat * Internal.row)) (st : state) : result state :=
  run date_tol_days sim_threshold (build_buckets bank_df) internal_df rows st.

(** The set of used bank labels when the loop reaches the internal row at
    label [i]. *)
Definition used_before (i : nat) : result (gset nat) :=
  st ← run_on (take i (iterrows internal_df)) initial; mret (bank_idx_used st).

(** The candidate of the specification: a bank row of the three buckets,
    not used, within the date tolerance and similar enough. *)
Definition candidate (used : gset nat) (row : Internal.row) (j : nat) (b : Bank.row) : Prop :=
  bank_df !! j = Some b ∧ in_window row b ∧
  eligible date_tol_days sim_threshold used row j b.

(** A candidate that the scan can select: its score is positive. *)
Definition selectable (used : gset nat) (row : Internal.row) (j : nat) (b : Bank.row) : Prop :=
  candidate used row j b ∧ (0 < score row b)%Q.

(** The match record [m] pairs the internal row at label [p.1] with the
    bank row at label [p.2]. *)
Definition paired (p : nat * nat) (m : MatchRecord) : Prop :=
  ∃ row b,
    internal_df !! p.1 = Some row ∧ bank_df !! p.2 = Some b ∧
    in_window row b ∧ m = record_of row b ∧
    (Z.abs (Internal.Date row - Bank.Date b) ≤ date_tol_days)%Z ∧
    (sim_threshold <= vendor_sim row b)%Q ∧ (0 < score row b)%Q.

(** The invariant of the main loop after the rows of labels below [n]. *)
Definition run_inv (n : nat) (st : state) : Prop :=
  ∃ pairs : list (nat * nat),
    Forall2 paired pairs (matches st) ∧
    NoDup pairs.*1 ∧ NoDup pairs.*2 ∧
    (∀ j, j ∈ bank_idx_used st ↔ j ∈ pairs.*2) ∧
    (∀ i, i ∈ pairs.*1 → i < n) ∧
    (∀ i, i ∈ unmatched_internal st → i < n) ∧
    (∀ i, i ∈ pairs.*1 → i ∉ unmatched_internal st) ∧
    length (matches st) + length (unmatched_internal st) = n ∧
    length (filter (fun j => j ∉ bank_idx_used st) (seq 0 (length bank_df)))
      + length (matches st) = length bank_df.

End run_vocabulary.

(** ** The cleaning step and sample ledgers *)

(** The cleaning of lines 91-94: [Vendor_clean] is the normalized vendor,
    and the amount read from the file becomes the double nearest to it. *)
Definition clean_internal (id : string) (date : Z) (amount : Q) (vendor : option string)
    : Internal.row :=
  {| Internal.Transaction_ID := id; Internal.Date := date;
     Internal.Amount := Binary64.round amount;
     Internal.Vendor := vendor; Internal.Vendor_clean := normalize_text vendor |}.

Definition clean_bank (ref : string) (date : Z) (amount : Q) (vendor : option string)
    : Bank.row :=
  {| Bank.Bank_Ref := ref; Bank.Date := date; Bank.Amount := Binary64.round amount;
     Bank.Vendor_Name := vendor; Bank.Vendor_clean := normalize_text vendor |}.

(** Two scenarios of the specification in one pair of ledgers: T1 and B1
    are one day apart, T2 and B2 nineteen days. *)
Definition sample_internal : list Internal.row :=
  [clean_internal "T1" 10 1000 (Some "Acme Ltd"%string);
   clean_internal "T2" 32 500 (Some "Zylo Corp"%string)].

Definition sample_bank : list Bank.row :=
  [clean_bank "B1" 11 1000 (Some "ACME"%string);
   clean_bank "B2" 51 500 (Some "Zylo Corp"%string)].

(** A refund of one currency unit, the same in both ledgers. *)
Definition refund_internal : list Internal.row :=
  [clean_internal "T1" 10 (-1) (Some "Acme Ltd"%string)].

Definition refund_bank : list Bank.row :=
  [clean_bank "B1" 10 (-1) (Some "Acme Ltd"%string)].

(** A small payment whose bank amount lies in the next bucket. *)
Definition small_internal : list Internal.row :=
  [clean_internal "T1" 10 1 (Some "Acme Ltd"%string)].

Definition small_bank : list Bank.row :=
  [clean_bank "B1" 10 14 (Some "Acme Ltd"%string)].

(** The internal amount at which the divisor [int_amt + 1] of line 44 is zero. *)
Definition minus_one (row : Internal.row) : Prop := (Internal.Amount row + 1 == 0)%Q.

(** ** Vocabulary for normalized names *)

(** The loop of [normalize_text] over the tokens [ts]. *)
Definition replace_tokens (ts : list Str.str) (s : Str.str) : Str.str :=
  foldl (fun s ch => Str.replace ch (lit " ") s) s ts.

(** [u] occurs in [s] as a substring. *)
Definition occurs (u s : Str.str) : Prop := ∃ l1 l2, s = l1 ++ u ++ l2.

(** A word: not empty, no whitespace. *)
Definition word (w : Str.str) : Prop :=
  w ≠ [] ∧ Forall (fun c => Str.isspace c = false) w.

(** A normalized name: words separated by single spaces, in lower case,
    in which no stop token occurs. *)
Definition normal (o : Str.str) : Prop :=
  (∃ ws, o = Str.join (lit " ") ws ∧ Forall word ws) ∧
  Str.lower o = o ∧
  ∀ t, t ∈ stop_tokens → ¬ occurs t o.

(** The normalizer as the specification words it: the stop tokens are
    removed. *)
Definition normalize_text_spec (s : option string) : string :=
  match s with
  | None => EmptyString
  | Some s =>
      let s := Str.strip (Str.lower (list_ascii_of_string s)) in
      let s := foldl (fun s ch => Str.replace ch [] s) s stop_tokens in
      string_of_list_ascii (Str.join (lit " ") (Str.split s))
  end.

(** The turns that the loop of [get_matching_blocks] needs at most for the
    blocks in [queue]. *)
Definition queue_weight (queue : list (nat * nat * nat * nat)) : nat :=
  foldr (fun '(alo, ahi, _, _) acc => 2 * (ahi - alo) + 1 + acc) 0 queue.

(** The block [m] lies in [a[alo:hi]]. *)
Definition within (alo hi : nat) (m : SequenceMatcher.Match) : Prop :=
  alo ≤ SequenceMatcher.m_a m ∧ SequenceMatcher.m_a m + SequenceMatcher.m_size m ≤ hi.

Definition well_formed (queue : list (nat * nat * nat * nat)) : Prop :=
  Forall (fun '(alo, ahi, _, _) => alo ≤ ahi) queue.

(** ** Vocabulary for the order of the outputs *)

(** The columns of a match record that come from the internal row. *)
Definition internal_columns (row : Internal.row) : string * Z * Q * option string :=
  (Internal.Transaction_ID row, Internal.Date row, Internal.Amount row, Internal.Vendor row).

Definition record_internal_columns (m : MatchRecord) : string * Z * Q * option string :=
  (Transaction_ID m, Internal_Date m, Internal_Amount m, Vendor_internal m).

(** The columns of a match record that come from the bank row. *)
Definition bank_columns (b : Bank.row) : string * Z * Q * option string :=
  (Bank.Bank_Ref b, Bank.Date b, Bank.Amount b, Bank.Vendor_Name b).

Definition record_bank_columns (m : MatchRecord) : string * Z * Q * option string :=
  (Bank_Ref m, Bank_Date m, Bank_Amount m, Vendor_bank m).

Section order_vocabulary.
Variables (internal_df : list Internal.row) (bank_df : list Bank.row).
Variables (date_tol_days : Z) (sim_threshold : Q).

(** The invariant of the main loop that keeps the order: the paired
    internal labels are increasing, and [unmatched_internal] lists the
    other labels below [n], increasing too. *)
Definition run_ordered (n : nat) (st : state) : Prop :=
  ∃ pairs : list (nat * nat),
    Forall2 (paired internal_df bank_df date_tol_days sim_threshold) pairs (matches st) ∧
    pairs.*1 `sublist_of` seq 0 n ∧
    unmatched_internal st = filter (fun i => i ∉ pairs.*1) (seq 0 n) ∧
    NoDup pairs.*2 ∧
    (∀ j, j ∈ bank_idx_used st ↔ j ∈ pairs.*2).

(** The selected candidate comes first among the candidates [seen] that
    score as much: every eligible candidate before it scores less. *)
Definition best_first (used : gset nat) (row : Internal.row)
    (seen : bucket) (st : Q * option best_tuple) : Prop :=
  match st.2 with
  | None => True
  | Some (_, j, b, _, _) =>
      ∃ l1 l2, seen = l1 ++ (j, b) :: l2 ∧
        ∀ j' b', (j', b') ∈ l1 → eligible date_tol_days sim_threshold used row j' b' →
                 (score row b' < score row b)%Q
  end.

(** The bank row [b] at label [j] reaches the division of line 44 for
    [row], whose divisor is zero. *)
Definition raising (used : gset nat) (row : Internal.row) (j : nat) (b : Bank.row) : Prop :=
  (j ∉ used) ∧ (Z.abs (Internal.Date row - Bank.Date b) ≤ date_tol_days)%Z ∧ minus_one row.

(** A bank row of the three buckets that makes line 44 divide by zero. *)
Definition divides_by_zero (used : gset nat) (row : Internal.row) (j : nat) (b : Bank.row)
    : Prop :=
  bank_df !! j = Some b ∧ in_window row b ∧ raising used row j b.

End order_vocabulary.

(** ** Vocabulary for the matching blocks *)

(** The block [m] lies in [b[blo:hi]]. *)
Definition within_b (blo hi : nat) (m : SequenceMatcher.Match) : Prop :=
  blo ≤ SequenceMatcher.m_b m ∧ SequenceMatcher.m_b m + SequenceMatcher.m_size m ≤ hi.

(** An entry of [j2len]: a position of [b[blo:bhi]] with the length of a
    match that ends there and starts from [blo] on. *)
Definition j2len_entry (blo bhi : nat) (z : Z) (k : nat) : Prop :=
  ∃ j : nat, z = Z.of_nat j ∧ blo + k ≤ S j ∧ j < bhi.

(** The number of matched elements in a list of blocks. *)
Definition total_size (blocks : list SequenceMatcher.Match) : nat :=
  foldr (fun x acc => SequenceMatcher.m_size x + acc) 0 blocks.

(** The elements of [a] and of [b] that the blocks of [queue] span. *)
Definition span_a (queue : list (nat * nat * nat * nat)) : nat :=
  foldr (fun '(alo, ahi, _, _) acc => (ahi - alo) + acc) 0 queue.

Definition span_b (queue : list (nat * nat * nat * nat)) : nat :=
  foldr (fun '(_, _, blo, bhi) acc => (bhi - blo) + acc) 0 queue.

Definition well_formed_b (queue : list (nat * nat * nat * nat)) : Prop :=
  Forall (fun '(_, _, blo, bhi) => blo ≤ bhi) queue.

(** ** Vocabulary for a string compared with itself *)

(** The positions of [c] in [a], increasing. *)
Definition positions (c : ascii) (a : Str.str) : list nat :=
  filter (fun j => a !! j = Some c) (seq 0 (length a)).

Section self_vocabulary.
Variables (a : Str.str) (b2j : gmap ascii (list nat)).

(** The element at [i] is in [b2j]: it was not dropped as popular. *)
Definition live (i : nat) : bool :=
  match a !! i with
  | Some c => bool_decide (is_Some (b2j !! c))
  | None => false
  end.

(** The length of the live_run of live elements that ends at [i]. *)
Fixpoint live_run (i : nat) : nat :=
  match i with
  | O => if live 0 then 1 else 0
  | S i' => if live (S i') then S (live_run i') else 0
  end.

Definition prev_live_run (i : nat) : nat :=
  match i with O => 0 | S i' => live_run i' end.

(** The state of the loop of [find_longest_match] over [range(0, i)], for
    [a] against itself: the best block is on the diagonal. *)
Definition dp_inv (i : nat) (st : gmap Z nat * SequenceMatcher.Match) : Prop :=
  (∀ z k, st.1 !! z = Some k → ∃ j : nat, z = Z.of_nat j) ∧
  (∀ j k, st.1 !! Z.of_nat j = Some k → S j < i → k ≤ live_run j) ∧
  (∀ j k, st.1 !! Z.of_nat j = Some k → i ≤ S j → k ≤ prev_live_run i) ∧
  default 0 (st.1 !! (Z.of_nat i - 1)%Z) = prev_live_run i ∧
  (∀ j, j < i → live_run j ≤ SequenceMatcher.m_size st.2) ∧
  SequenceMatcher.m_a st.2 = SequenceMatcher.m_b st.2 ∧
  SequenceMatcher.m_a st.2 + SequenceMatcher.m_size st.2 ≤ i.

(** The state of the inner loop for the row [i], after the positions
    [done]. *)
Definition row_inv (i : nat) (done : list nat) (st : gmap Z nat * SequenceMatcher.Match)
    : Prop :=
  (∀ z k, st.1 !! z = Some k → ∃ j : nat, z = Z.of_nat j) ∧
  (∀ j k, st.1 !! Z.of_nat j = Some k → j < i → k ≤ live_run j) ∧
  (∀ j k, st.1 !! Z.of_nat j = Some k → i ≤ j → k ≤ live_run i) ∧
  (i ∈ done → st.1 !! Z.of_nat i = Some (live_run i)) ∧
  (∀ j, j < i → live_run j ≤ SequenceMatcher.m_size st.2) ∧
  (i ∈ done → live_run i ≤ SequenceMatcher.m_size st.2) ∧
  SequenceMatcher.m_a st.2 = SequenceMatcher.m_b st.2 ∧
  SequenceMatcher.m_a st.2 + SequenceMatcher.m_size st.2 ≤ S i.

End self_vocabulary.

(** ** The dashboard *)

(** [round(x, 2)] on a float: the multiple of a hundredth nearest to [x],
    a tie to the even one, as the double nearest to it. *)
Definition py_round2 (x : Q) : Q :=
  Binary64.round (inject_Z (py_round (x * 100)) / 100).

(** Line 116: [round((len(matches_df) / len(internal)) * 100, 2)]. *)
Definition match_percent (matches_df : list MatchRecord) (internal : list Internal.row)
    : result Q :=
  r ← py_div (inject_Z (Z.of_nat (length matches_df)))
             (inject_Z (Z.of_nat (length internal)));
  mret (py_round2 (Binary64.mul r 100)).

(** Lines 105-116: the run of [reconcile] and the metric [Match %] of the
    first tab. *)
Definition summary (internal : list Internal.row) (bank : list Bank.row)
    (date_tol : Z) (amount_tol : Q) (sim_threshold : Q) : result Q :=
  '(matches_df, _, _) ← reconcile internal bank date_tol amount_tol sim_threshold;
  match_percent matches_df internal.

(** [matches_df[col].tolist()], where [matches_df] is [pd.DataFrame(matches)]:
    the frame made of an empty list of records has no column. *)
Definition column {A : Type} (col : MatchRecord → A) (matches_df : list MatchRecord)
    : result (list A) :=
  match matches_df with
  | [] => inl KeyError
  | _ => mret (col <$> matches_df)
  end.

(** Line 155: [match_ids = matches_df['Transaction_ID'].tolist()]. *)
Definition match_ids (matches_df : list MatchRecord) : result (list string) :=
  column Transaction_ID matches_df.

(** * Properties *)

(** ** Rounding *)

Lemma py_round_bounds (x : Q) :
  (inject_Z (py_round x) - (1 # 2) <= x <= inject_Z (py_round x) + (1 # 2))%Q.
Proof.
  unfold py_round.
  pose proof (Qfloor_le x) as Hlo. pose proof (Qlt_floor x) as Hhi.
  rewrite inject_Z_plus in Hhi. change (inject_Z 1) with 1%Q in Hhi.
  destruct (Qcompare_spec (x - inject_Z (Qfloor x)) (1 # 2)) as [He|Hl|Hg].
  - destruct (Z.even (Qfloor x)).
    + lra.
    + rewrite inject_Z_plus. change (inject_Z 1) with 1%Q. lra.
  - lra.
  - rewrite inject_Z_plus. change (inject_Z 1) with 1%Q. lra.
Qed.

Lemma Qfloor_same_le (x y : Q) :
  (x <= y)%Q → Qfloor x = Qfloor y → (py_round x ≤ py_round y)%Z.
Proof.
  intros Hxy Hf. unfold py_round. rewrite Hf.
  destruct (Qcompare_spec (x - inject_Z (Qfloor y)) (1 # 2)) as [He|Hl|Hg];
    destruct (Qcompare_spec (y - inject_Z (Qfloor y)) (1 # 2)) as [He'|Hl'|Hg'];
    try destruct (Z.even (Qfloor y)); try lia; lra.
Qed.

Lemma py_round_floor (x : Q) : (Qfloor x ≤ py_round x ≤ Qfloor x + 1)%Z.
Proof.
  unfold py_round. destruct (_ ?= _)%Q; try destruct (Z.even _); lia.
Qed.

Lemma py_round_mono (x y : Q) : (x <= y)%Q → (py_round x ≤ py_round y)%Z.
Proof.
  intros Hxy. pose proof (Qfloor_resp_le _ _ Hxy) as Hf.
  destruct (decide (Qfloor x = Qfloor y)) as [He|Hne]; [by apply Qfloor_same_le|].
  pose proof (py_round_floor x). pose proof (py_round_floor y). lia.
Qed.

Lemma py_round_inject (z : Z) : py_round (inject_Z z) = z.
Proof.
  unfold py_round. rewrite Qfloor_Z.
  assert (H : (inject_Z z - inject_Z z == 0)%Q) by ring.
  by rewrite H.
Qed.

Lemma py_round_comp (x y : Q) : (x == y)%Q → py_round x = py_round y.
Proof.
  intros H. apply Z.le_antisymm; apply py_round_mono; rewrite H; apply Qle_refl.
Qed.

(** ** Binary64 *)

Section binary64.
Local Open Scope Q_scope.
Import Binary64.

Lemma pow2_pos (l : Z) : 0 < 2 ^ l.
Proof. by apply Qpower_0_lt. Qed.

Lemma pow2_plus (l m : Z) : 2 ^ (l + m) == 2 ^ l * 2 ^ m.
Proof. by apply Qpower_plus. Qed.

Lemma pow2_le (l m : Z) : (l ≤ m)%Z → 2 ^ l <= 2 ^ m.
Proof. intros H. by apply Qpower_le_compat_l. Qed.

Lemma pow2_inject (n : Z) : (0 ≤ n)%Z → inject_Z (2 ^ n) == 2 ^ n.
Proof. intros H. by rewrite Zpower_Qpower. Qed.

Lemma pow2_succ (l : Z) : 2 ^ (l + 1) == 2 * 2 ^ l.
Proof. rewrite pow2_plus. change (2 ^ 1) with 2. ring. Qed.

(** The binade of a number is unique. *)
Lemma binade_le (x y : Q) (l m : Z) :
  2 ^ l <= x → y < 2 ^ (m + 1) → x <= y → (l ≤ m)%Z.
Proof.
  intros Hl Hm Hxy. destruct (Z.le_gt_cases l m) as [H|H]; [done|].
  pose proof (pow2_le (m + 1) l ltac:(lia)). lra.
Qed.

Lemma ilog2_spec (x : Q) :
  ¬ x == 0 → 2 ^ ilog2 x <= Qabs x ∧ Qabs x < 2 ^ (ilog2 x + 1).
Proof.
  intros Hx. destruct x as [n d].
  assert (Hn : (0 < Z.abs n)%Z).
  { unfold Qeq in Hx. simpl in Hx. lia. }
  unfold ilog2. cbn [Qnum Qden].
  set (a := Z.log2 (Z.abs n)). set (b := Z.log2 (Z.pos d)).
  pose proof (Z.log2_spec (Z.abs n) Hn) as [Ha1 Ha2].
  pose proof (Z.log2_spec (Z.pos d) ltac:(done)) as [Hb1 Hb2].
  pose proof (Z.log2_nonneg (Z.abs n)) as Ha0.
  pose proof (Z.log2_nonneg (Z.pos d)) as Hb0.
  fold a in Ha1, Ha2, Ha0. fold b in Hb1, Hb2, Hb0.
  rewrite Zle_Qle, pow2_inject in Ha1, Hb1 by done.
  rewrite Zlt_Qlt, pow2_inject in Ha2, Hb2 by lia.
  replace (Z.succ a) with (a + 1)%Z in Ha2 by lia.
  replace (Z.succ b) with (b + 1)%Z in Hb2 by lia.
  assert (HX : Qabs (n # d) * inject_Z (Z.pos d) == inject_Z (Z.abs n)).
  { change (Qabs (n # d)) with (Z.abs n # d). rewrite (Qmake_Qdiv (Z.abs n) d).
    field. intros H. change 0 with (inject_Z 0) in H. by apply inject_Z_injective in H. }
  set (X := Qabs (n # d)) in *.
  set (A := inject_Z (Z.abs n)) in *. set (D := inject_Z (Z.pos d)) in *.
  assert (HD : 0 < D) by (pose proof (pow2_pos b); lra).
  pose proof (pow2_succ a) as Ea. pose proof (pow2_succ b) as Eb.
  assert (El : 2 ^ a == 2 ^ (a - b) * 2 ^ b).
  { rewrite <- pow2_plus. by replace (a - b + b)%Z with a by lia. }
  pose proof (pow2_succ (a - b)) as El1.
  assert (El0 : 2 ^ (a - b) == 2 * 2 ^ (a - b - 1)).
  { rewrite <- pow2_succ. by replace (a - b - 1 + 1)%Z with (a - b)%Z by lia. }
  pose proof (pow2_pos (a - b)) as Hp. pose proof (pow2_pos b) as Hpb.
  pose proof (pow2_pos (a - b - 1)) as Hp1.
  set (L := 2 ^ (a - b)) in *. set (Pb := 2 ^ b) in *.
  assert (Hhi : X < 2 * L).
  { apply (Qmult_lt_r _ _ D HD). nra. }
  assert (Hlo : 2 ^ (a - b - 1) < X).
  { apply (Qmult_lt_r _ _ D HD). nra. }
  destruct (Qle_bool L X) eqn:Hc.
  - apply Qle_bool_iff in Hc. split; [done|]. rewrite El1. done.
  - assert (X < L).
    { apply Qnot_le_lt. intros H. apply Qle_bool_iff in H. congruence. }
    split; [lra|]. replace (a - b - 1 + 1)%Z with (a - b)%Z by lia. done.
Qed.

(** [round] on a number that is not zero: the significand is rounded. *)
Lemma round_spec (x : Q) :
  ¬ x == 0 →
  ∃ l, 2 ^ l <= Qabs x ∧ Qabs x < 2 ^ (l + 1) ∧
       round x == inject_Z (py_round (x / 2 ^ (l - 52))) * 2 ^ (l - 52).
Proof.
  intros Hx. unfold round. pose proof (Qred_correct x) as Hr.
  generalize dependent (Qred x). intros y Hr.
  assert (Hy : ¬ y == 0) by (by rewrite Hr).
  destruct (Qeq_bool y 0) eqn:Hz; [by apply Qeq_bool_iff in Hz|].
  destruct (ilog2_spec y Hy) as [H1 H2]. exists (ilog2 y).
  assert (Ey : Qabs y == Qabs x) by (by apply Qabs_wd).
  split; [lra|]. split; [lra|].
  rewrite Qred_correct.
  assert (E : y / 2 ^ (ilog2 y - 52) == x / 2 ^ (ilog2 y - 52)).
  { unfold Qdiv. apply Qmult_comp; [exact Hr | reflexivity]. }
  by rewrite (py_round_comp _ _ E).
Qed.

Lemma round_comp (x y : Q) : x == y → round x = round y.
Proof. intros H. unfold round. by rewrite (Qred_complete _ _ H). Qed.

Lemma round_zero (x : Q) : x == 0 → round x = 0.
Proof. intros H. by rewrite (round_comp _ _ H). Qed.

(** The significand of a number of the binade [l]. *)
Lemma significand_pos (x : Q) (l : Z) :
  2 ^ l <= x → x < 2 ^ (l + 1) →
  2 ^ 52 <= x / 2 ^ (l - 52) ∧ x / 2 ^ (l - 52) < 2 ^ 53.
Proof.
  intros H1 H2. pose proof (pow2_pos (l - 52)) as He.
  assert (E1 : 2 ^ l == 2 ^ 52 * 2 ^ (l - 52)).
  { rewrite <- pow2_plus. by replace (52 + (l - 52))%Z with l by lia. }
  assert (E2 : 2 ^ (l + 1) == 2 ^ 53 * 2 ^ (l - 52)).
  { rewrite <- pow2_plus. by replace (53 + (l - 52))%Z with (l + 1)%Z by lia. }
  split.
  - apply Qle_shift_div_l; [done|]. by rewrite <- E1.
  - apply Qlt_shift_div_r; [done|]. by rewrite <- E2.
Qed.

Lemma round_binade_pos (x : Q) (l : Z) :
  2 ^ l <= x → x < 2 ^ (l + 1) →
  2 ^ l <= inject_Z (py_round (x / 2 ^ (l - 52))) * 2 ^ (l - 52) <= 2 ^ (l + 1).
Proof.
  intros H1 H2. destruct (significand_pos x l H1 H2) as [S1 S2].
  pose proof (pow2_pos (l - 52)) as He.
  assert (E1 : 2 ^ l == 2 ^ 52 * 2 ^ (l - 52)).
  { rewrite <- pow2_plus. by replace (52 + (l - 52))%Z with l by lia. }
  assert (E2 : 2 ^ (l + 1) == 2 ^ 53 * 2 ^ (l - 52)).
  { rewrite <- pow2_plus. by replace (53 + (l - 52))%Z with (l + 1)%Z by lia. }
  set (t := x / 2 ^ (l - 52)) in *.
  assert (Hlo : (2 ^ 52 ≤ py_round t)%Z).
  { rewrite <- (py_round_inject (2 ^ 52)). apply py_round_mono.
    by rewrite pow2_inject. }
  assert (Hhi : (py_round t ≤ 2 ^ 53)%Z).
  { rewrite <- (py_round_inject (2 ^ 53)). apply py_round_mono.
    rewrite pow2_inject by done. lra. }
  rewrite Zle_Qle, pow2_inject in Hlo, Hhi by done.
  rewrite E1, E2. split; apply Qmult_le_compat_r; lra.
Qed.

Lemma significand_neg (x : Q) (l : Z) :
  2 ^ l <= - x → - x < 2 ^ (l + 1) →
  - 2 ^ 53 < x / 2 ^ (l - 52) ∧ x / 2 ^ (l - 52) <= - 2 ^ 52.
Proof.
  intros H1 H2. destruct (significand_pos (- x) l H1 H2) as [S1 S2].
  pose proof (pow2_pos (l - 52)) as He.
  assert (E : - x / 2 ^ (l - 52) == - (x / 2 ^ (l - 52))).
  { field. lra. }
  rewrite E in S1, S2. lra.
Qed.

Lemma round_binade_neg (x : Q) (l : Z) :
  2 ^ l <= - x → - x < 2 ^ (l + 1) →
  - 2 ^ (l + 1) <= inject_Z (py_round (x / 2 ^ (l - 52))) * 2 ^ (l - 52) <= - 2 ^ l.
Proof.
  intros H1 H2. destruct (significand_neg x l H1 H2) as [S1 S2].
  pose proof (pow2_pos (l - 52)) as He.
  assert (E1 : 2 ^ l == 2 ^ 52 * 2 ^ (l - 52)).
  { rewrite <- pow2_plus. by replace (52 + (l - 52))%Z with l by lia. }
  assert (E2 : 2 ^ (l + 1) == 2 ^ 53 * 2 ^ (l - 52)).
  { rewrite <- pow2_plus. by replace (53 + (l - 52))%Z with (l + 1)%Z by lia. }
  set (t := x / 2 ^ (l - 52)) in *.
  assert (Hlo : (- 2 ^ 53 ≤ py_round t)%Z).
  { rewrite <- (py_round_inject (- 2 ^ 53)). apply py_round_mono.
    rewrite inject_Z_opp, pow2_inject by done. lra. }
  assert (Hhi : (py_round t ≤ - 2 ^ 52)%Z).
  { rewrite <- (py_round_inject (- 2 ^ 52)). apply py_round_mono.
    by rewrite inject_Z_opp, pow2_inject. }
  rewrite Zle_Qle, inject_Z_opp, pow2_inject in Hlo, Hhi by done.
  rewrite E1, E2. set (P := 2 ^ (l - 52)) in *.
  set (r := inject_Z (py_round t)) in *. split; nra.
Qed.

Lemma round_sign_pos (x : Q) : 0 < x → 0 < round x.
Proof.
  intros Hx. destruct (round_spec x) as (l & H1 & H2 & ->); [lra|].
  rewrite Qabs_pos in H1, H2 by lra.
  pose proof (round_binade_pos x l H1 H2). pose proof (pow2_pos l). lra.
Qed.

Lemma round_sign_neg (x : Q) : x < 0 → round x < 0.
Proof.
  intros Hx. destruct (round_spec x) as (l & H1 & H2 & ->); [lra|].
  rewrite Qabs_neg in H1, H2 by lra.
  pose proof (round_binade_neg x l H1 H2). pose proof (pow2_pos l). lra.
Qed.

Lemma round_eq0 (x : Q) : round x == 0 ↔ x == 0.
Proof.
  split.
  - intros H. destruct (Q_dec x 0) as [[Hlt|Hgt]|He]; [| |done].
    + pose proof (round_sign_neg x Hlt). lra.
    + pose proof (round_sign_pos x Hgt). lra.
  - intros H. by rewrite (round_zero x H).
Qed.

Lemma round_mono_pos (x y : Q) : 0 < x → x <= y → round x <= round y.
Proof.
  intros Hx Hxy.
  destruct (round_spec x) as (l & H1 & H2 & ->); [lra|].
  destruct (round_spec y) as (m & H3 & H4 & ->); [lra|].
  rewrite Qabs_pos in H1, H2, H3, H4 by lra.
  pose proof (binade_le x y l m H1 H4 Hxy) as Hlm.
  destruct (decide (l = m)) as [->|Hne].
  - pose proof (pow2_pos (m - 52)) as He.
    apply Qmult_le_compat_r; [|lra]. rewrite <- Zle_Qle. apply py_round_mono.
    apply Qmult_le_compat_r; [done|]. apply Qlt_le_weak, Qinv_lt_0_compat, He.
  - pose proof (round_binade_pos x l H1 H2). pose proof (round_binade_pos y m H3 H4).
    pose proof (pow2_le (l + 1) m ltac:(lia)). lra.
Qed.

Lemma round_mono_neg (x y : Q) : y < 0 → x <= y → round x <= round y.
Proof.
  intros Hy Hxy.
  destruct (round_spec x) as (l & H1 & H2 & ->); [lra|].
  destruct (round_spec y) as (m & H3 & H4 & ->); [lra|].
  rewrite Qabs_neg in H1, H2, H3, H4 by lra.
  pose proof (binade_le (- y) (- x) m l H3 H2 ltac:(lra)) as Hlm.
  destruct (decide (l = m)) as [->|Hne].
  - pose proof (pow2_pos (m - 52)) as He.
    apply Qmult_le_compat_r; [|lra]. rewrite <- Zle_Qle. apply py_round_mono.
    apply Qmult_le_compat_r; [done|]. apply Qlt_le_weak, Qinv_lt_0_compat, He.
  - pose proof (round_binade_neg x l H1 H2). pose proof (round_binade_neg y m H3 H4).
    pose proof (pow2_le (m + 1) l ltac:(lia)). lra.
Qed.

(** Rounding keeps the order. *)
Lemma round_mono (x y : Q) : x <= y → round x <= round y.
Proof.
  intros Hxy.
  destruct (Q_dec x 0) as [[Hx|Hx]|Hx].
  - destruct (Q_dec y 0) as [[Hy|Hy]|Hy].
    + by apply round_mono_neg.
    + pose proof (round_sign_neg x Hx). pose proof (round_sign_pos y Hy). lra.
    + rewrite (round_zero y Hy). pose proof (round_sign_neg x Hx). lra.
  - by apply round_mono_pos.
  - rewrite (round_zero x Hx).
    destruct (Q_dec y 0) as [[Hy|Hy]|Hy]; [lra| |].
    + pose proof (round_sign_pos y Hy). lra.
    + rewrite (round_zero y Hy). lra.
Qed.

Lemma round_nonneg (x : Q) : 0 <= x → 0 <= round x.
Proof. intros H. change 0 with (round 0). by apply round_mono. Qed.

Lemma round_unit (x : Q) : 0 <= x <= 1 → 0 <= round x <= 1.
Proof.
  intros [H0 H1]. split; [by apply round_nonneg|].
  apply round_mono in H1. by vm_compute (round 1) in H1.
Qed.

(** The error of one rounding: half a unit of the last place. *)
Lemma round_error (x : Q) : Qabs (round x - x) <= Qabs x * (1 # 2 ^ 53).
Proof.
  destruct (Qeq_dec x 0) as [Hx|Hx].
  { rewrite (round_zero x Hx), Hx. by vm_compute. }
  destruct (round_spec x Hx) as (l & H1 & H2 & ->).
  pose proof (pow2_pos (l - 52)) as He.
  assert (E1 : 2 ^ l == 2 ^ 52 * 2 ^ (l - 52)).
  { rewrite <- pow2_plus. by replace (52 + (l - 52))%Z with l by lia. }
  pose proof (py_round_bounds (x / 2 ^ (l - 52))) as [B1 B2].
  set (r := inject_Z (py_round (x / 2 ^ (l - 52)))) in *.
  assert (Et : x == x / 2 ^ (l - 52) * 2 ^ (l - 52)) by (field; lra).
  set (t := x / 2 ^ (l - 52)) in *. set (P := 2 ^ (l - 52)) in *.
  change (2 ^ 52) with (4503599627370496 # 1) in E1.
  change (1 # 2 ^ 53) with (1 # 9007199254740992).
  set (X := Qabs x) in *.
  apply Qabs_Qle_condition. split; nra.
Qed.

Lemma round_error_le (x c : Q) :
  Qabs x <= c → Qabs (round x - x) <= c * (1 # 2 ^ 53).
Proof.
  intros H. eapply Qle_trans; [apply round_error|].
  by apply Qmult_le_compat_r.
Qed.

(** The difference of two floats, without its sign, against the exact one. *)
Lemma sub_abs_error (x y : Q) :
  Qabs (Qabs (sub x y) - Qabs (x - y)) <= Qabs (x - y) * (1 # 2 ^ 53).
Proof.
  unfold sub. pose proof (round_error (x - y)) as H.
  apply Qabs_Qle_condition in H as [H1 H2].
  set (d := x - y) in *. set (r := round d) in *.
  set (eps := Qabs d * (1 # 2 ^ 53)) in *.
  apply Qabs_Qle_condition.
  split; apply (Qabs_case r); intros Hr; apply (Qabs_case d); intros Hd; lra.
Qed.

End binary64.

#[global] Opaque Binary64.round.

(** ** Examples *)

Example normalize_text_ex1 :
  normalize_text (Some "  Acme  Pvt. Ltd ")%string = "acme"%string.
Proof. reflexivity. Qed.

Example normalize_text_ex2 :
  normalize_text (Some "A.B & Sons,India Online")%string = "a b sons"%string.
Proof. reflexivity. Qed.

Example similarity_ex1 : (similarity "abcd" "bcde" == 3 # 4)%Q.
Proof. vm_compute. reflexivity. Qed.

(** [round] goes to the even neighbour on a tie. *)
Example bucket_key_ties :
  map bucket_key [5; 15; 25; 14; -5; -15; 1000]%Q = [0; 2; 2; 1; 0; -2; 100]%Z.
Proof. reflexivity. Qed.

(** A ratio that is not a double is rounded. *)
Example similarity_ex2 : similarity "acme" "acme corp" = Binary64.round (8 # 13).
Proof. vm_compute. reflexivity. Qed.

Example similarity_ex3 : similarity "zylo corp" "acme supplies" = Binary64.round (1 # 11).
Proof. vm_compute. reflexivity. Qed.

(** The doubles nearest to 0.1 and to 1/3, and one rounded sum. *)
Example round_ex1 :
  Binary64.round (1 # 10) = (3602879701896397 # 36028797018963968)%Q ∧
  Binary64.round (1 # 3) = (6004799503160661 # 18014398509481984)%Q ∧
  Binary64.add (Binary64.round (1 # 10)) (Binary64.round (2 # 10))
  = (1351079888211149 # 4503599627370496)%Q.
Proof. vm_compute. done. Qed.

(** The sample ledgers: T1 is matched with B1; T2 and B2, nineteen days
    apart, stay unmatched. *)
Example reconcile_sample :
  match reconcile sample_internal sample_bank 2 50 (3 # 4) with
  | inr (ms, ui, ub) =>
      map (fun m => (Transaction_ID m, Bank_Ref m)) ms = [("T1", "B1")]%string ∧
      map Internal.Transaction_ID ui = ["T2"]%string ∧
      map Bank.Bank_Ref ub = ["B2"]%string
  | inl _ => False
  end.
Proof. vm_compute. done. Qed.

(** Two internal rows that both fit one bank row: the earlier one takes it. *)
Example reconcile_first_come :
  match reconcile [clean_internal "T1" 10 100 (Some "Acme Supplies"%string);
                   clean_internal "T2" 10 100 (Some "Acme Supply"%string)]
                  [clean_bank "B1" 10 100 (Some "Acme Supply"%string)] 2 50 (3 # 4) with
  | inr (ms, ui, ub) =>
      map (fun m => (Transaction_ID m, Bank_Ref m)) ms = [("T1", "B1")]%string ∧
      map Internal.Transaction_ID ui = ["T2"]%string ∧ ub = []
  | inl _ => False
  end.
Proof. vm_compute. done. Qed.

(** The rounding of line 44 decides.  An internal amount of 0.1 and a bank
    amount of 4.5 of the same vendor and day: the exact score is above 0,
    the score that the floats compute is 0.0, and the row stays unmatched. *)
Example reconcile_score_rounds_to_zero :
  let row := clean_internal "T1" 10 (1 # 10) (Some "Acme"%string) in
  let b := clean_bank "B1" 10 (45 # 10) (Some "Acme"%string) in
  (0 < vendor_sim row b
       - Qabs (Internal.Amount row - Bank.Amount b) / (Internal.Amount row + 1) * (1 # 4))%Q ∧
  (score row b == 0)%Q ∧
  reconcile [row] [b] 2 50 (3 # 4) = inr ([], [row], [b]).
Proof. vm_compute. done. Qed.

(** Amounts of 0.11 and 3.81 with a similarity of 5/6: the score of the
    floats is above 0 and the pair is matched. *)
Example reconcile_score_rounds_above_zero :
  let row := clean_internal "T1" 10 (11 # 100) (Some "Acme Supplies"%string) in
  let b := clean_bank "B1" 10 (381 # 100) (Some "Acme Supply"%string) in
  (0 < score row b)%Q ∧
  reconcile [row] [b] 2 50 (3 # 4) = inr ([record_of row b], [], []).
Proof. vm_compute. done. Qed.

(** Two bank rows whose scores are the same double: the first one is kept. *)
Example reconcile_first_of_equal_scores :
  let row := clean_internal "T1" 10 100 (Some "Acme"%string) in
  let b1 := clean_bank "B1" 10 (10000000000000001 # 100000000000000) (Some "Acme"%string) in
  let b2 := clean_bank "B2" 10 100 (Some "Acme"%string) in
  score row b1 = score row b2 ∧
  reconcile [row] [b1; b2] 2 50 (3 # 4) = inr ([record_of row b1], [], [b2]).
Proof. vm_compute. done. Qed.

(** The metric of line 116 rounds a float: 23 matches of 160 rows give
    14.37, the product being the double just below 14.375. *)
Example match_percent_rounds_the_float :
  py_round2 (Binary64.mul (Binary64.div 23 160) 100) = Binary64.round (1437 # 100) ∧
  (Binary64.mul (Binary64.div 23 160) 100 < 14375 # 1000)%Q.
Proof. vm_compute. done. Qed.

(** ** The matching blocks: the fuel is enough *)

Section longest_match_bounds.
Import SequenceMatcher.
Variables (a b : Str.str) (b2j : gmap ascii (list nat)).
Variables (alo ahi blo bhi : nat).

Local Abbreviation within' := (within alo).

Lemma scan_js_bounds (i : nat) (j2len : gmap Z nat) (js : list nat)
    (st : gmap Z nat * Match) :
  alo ≤ i →
  map_Forall (fun _ k => k ≤ i - alo) j2len →
  map_Forall (fun _ k => k ≤ S i - alo) st.1 → within' (S i) st.2 →
  map_Forall (fun _ k => k ≤ S i - alo) (scan_js blo bhi i j2len js st).1 ∧
  within' (S i) (scan_js blo bhi i j2len js st).2.
Proof.
  intros Hi Hlen. revert st. induction js as [|j js IH]; intros [new best] Hnew Hbest; [done|].
  simpl. destruct (decide (j < blo)); [by apply IH|].
  destruct (decide (bhi ≤ j)); [done|].
  assert (Hk : default 0 (j2len !! (Z.of_nat j - 1)%Z) + 1 ≤ S i - alo).
  { destruct (j2len !! (Z.of_nat j - 1)%Z) as [k|] eqn:E; simpl; [|lia].
    apply (map_Forall_lookup_1 _ _ _ _ Hlen) in E. lia. }
  apply IH; simpl.
  - by apply map_Forall_insert_2.
  - destruct (decide (m_size best < _)); [|done]. unfold within'. simpl. lia.
Qed.

Lemma scan_is_bounds (st : gmap Z nat * Match) (i : nat) :
  alo ≤ i →
  map_Forall (fun _ k => k ≤ i - alo) st.1 → within' i st.2 →
  map_Forall (fun _ k => k ≤ S i - alo) (scan_is a b2j blo bhi st i).1 ∧
  within' (S i) (scan_is a b2j blo bhi st i).2.
Proof.
  intros Hi Hlen Hbest. destruct st as [j2len best]. unfold scan_is.
  match goal with |- context [scan_js _ _ _ _ ?js ?st] =>
    pose proof (scan_js_bounds i j2len js st Hi Hlen) as H;
    destruct (scan_js blo bhi i j2len js st) as [new best'] end.
  apply H; simpl.
  - apply map_Forall_empty.
  - destruct Hbest as [H1 H2]. simpl in H1, H2. split; [done|lia].
Qed.

Lemma scan_loop_bounds (n : nat) (st : gmap Z nat * Match) (lo : nat) :
  alo ≤ lo →
  map_Forall (fun _ k => k ≤ lo - alo) st.1 → within' lo st.2 →
  within' (lo + n) (foldl (scan_is a b2j blo bhi) st (seq lo n)).2.
Proof.
  revert st lo. induction n as [|n IH]; intros st lo Hlo Hlen Hbest; simpl.
  { by rewrite Nat.add_0_r. }
  destruct (scan_is_bounds st lo Hlo Hlen Hbest) as [Hlen' Hbest'].
  replace (lo + S n) with (S lo + n) by lia. apply IH; [lia|done..].
Qed.

Lemma extend_left_bounds (besti bestj bestsize : nat) (hi : nat) :
  within' hi (mkMatch besti bestj bestsize) →
  within' hi (extend_left a b alo blo besti bestj bestsize).
Proof.
  revert bestj bestsize. induction besti as [|i IH]; intros bestj bestsize Hw; [done|].
  simpl. destruct (decide _) as [(Hlt & _)|_]; [|done].
  apply IH. destruct Hw as [Hw1 Hw2]. simpl in *. split; simpl; lia.
Qed.

Lemma extend_right_bounds (besti bestj n bestsize : nat) :
  within' ahi (mkMatch besti bestj bestsize) →
  within' ahi (extend_right a b ahi bhi besti bestj n bestsize).
Proof.
  revert bestsize. induction n as [|n IH]; intros bestsize Hw; [done|].
  simpl. destruct (decide _) as [(Hlt & _)|_]; [|done].
  apply IH. destruct Hw as [Hw1 Hw2]. simpl in *. split; simpl; lia.
Qed.

(** The docstring of [find_longest_match]: [alo <= i <= i+k <= ahi]. *)
Lemma find_longest_match_bounds :
  alo ≤ ahi → within' ahi (find_longest_match a b b2j alo ahi blo bhi).
Proof.
  intros Hle. unfold find_longest_match.
  pose proof (scan_loop_bounds (ahi - alo) (∅, mkMatch alo blo 0) alo) as H.
  destruct (foldl _ _ _) as [j2len best]. simpl in H.
  replace (alo + (ahi - alo)) with ahi in H by lia.
  destruct best as [i j k]. simpl.
  pose proof (extend_left_bounds i j k ahi) as Hl.
  destruct (extend_left a b alo blo i j k) as [i' j' k']. simpl.
  apply extend_right_bounds, Hl, H; [done|apply map_Forall_empty|].
  split; simpl; lia.
Qed.

End longest_match_bounds.

Section matching_fuel.
Import SequenceMatcher.
Variables (a b : Str.str) (b2j : gmap ascii (list nat)).

(** With as much fuel as the weight of the queue, the loop ends on an empty
    queue: more fuel does not change the blocks found. *)
Lemma matching_loop_fuel (fuel fuel' : nat) (queue : list (nat * nat * nat * nat))
    (blocks : list Match) :
  well_formed queue →
  queue_weight queue ≤ fuel → queue_weight queue ≤ fuel' →
  matching_loop a b b2j fuel queue blocks = matching_loop a b b2j fuel' queue blocks.
Proof.
  revert fuel' queue blocks.
  induction fuel as [|fuel IH]; intros fuel' queue blocks Hwf Hf Hf'.
  - destruct queue as [|[[[alo ahi] blo] bhi] queue]; [by destruct fuel'|].
    simpl in Hf. lia.
  - destruct queue as [|[[[alo ahi] blo] bhi] queue]; [by destruct fuel'|].
    destruct fuel' as [|fuel']; [simpl in Hf'; lia|].
    apply Forall_cons in Hwf as [Hle Hwf]. simpl in Hf, Hf'.
    pose proof (find_longest_match_bounds a b b2j alo ahi blo bhi Hle) as [Hlo Hhi].
    simpl. destruct (find_longest_match a b b2j alo ahi blo bhi) as [i j k].
    simpl in Hlo, Hhi.
    destruct (decide (k = 0)); [apply IH; [done|lia..]|].
    apply IH.
    + repeat case_decide; repeat (apply Forall_cons; split); try done; lia.
    + repeat case_decide; simpl; lia.
    + repeat case_decide; simpl; lia.
Qed.

End matching_fuel.

(** The fuel that [get_matching_blocks] gives to the loop is enough. *)
Lemma get_matching_blocks_fuel (a b : Str.str) (n : nat) :
  let la := length a in
  let lb := length b in
  SequenceMatcher.matching_loop a b (SequenceMatcher.chain_b b) (2 * la + 1 + n)
    [(0, la, 0, lb)] []
  = SequenceMatcher.matching_loop a b (SequenceMatcher.chain_b b) (2 * la + 1)
      [(0, la, 0, lb)] [].
Proof.
  simpl. apply matching_loop_fuel.
  - repeat constructor. lia.
  - simpl. lia.
  - simpl. lia.
Qed.

(** ** Substrings *)

Lemma occurs_nil (s : Str.str) : occurs [] s.
Proof. by exists [], s. Qed.

Lemma occurs_nil_inv (u : Str.str) : occurs u [] → u = [].
Proof.
  intros (l1 & l2 & H). symmetry in H.
  apply app_eq_nil in H as [_ H]. by apply app_eq_nil in H as [H _].
Qed.

Lemma occurs_prefix (u s : Str.str) : u `prefix_of` s → occurs u s.
Proof. intros [k ->]. by exists [], k. Qed.

Lemma occurs_cons (u : Str.str) (c : ascii) (s : Str.str) :
  occurs u (c :: s) ↔ u `prefix_of` (c :: s) ∨ occurs u s.
Proof.
  split.
  - intros ([|c' l1] & l2 & H); simpl in H.
    + left. by exists l2.
    + right. injection H as -> ->. by exists l1, l2.
  - intros [H|(l1 & l2 & ->)]; [by apply occurs_prefix|]. by exists (c :: l1), l2.
Qed.

Lemma occurs_app_l (u a b : Str.str) : occurs u a → occurs u (a ++ b).
Proof.
  intros (l1 & l2 & ->). exists l1, (l2 ++ b). by rewrite <- !app_assoc.
Qed.

Lemma occurs_app_r (u a b : Str.str) : occurs u b → occurs u (a ++ b).
Proof.
  intros (l1 & l2 & ->). exists (a ++ l1), l2. by rewrite <- !app_assoc.
Qed.

Lemma occurs_trans (u v s : Str.str) : occurs u v → occurs v s → occurs u s.
Proof.
  intros (l1 & l2 & ->) (k1 & k2 & ->).
  exists (k1 ++ l1), (l2 ++ k2). by rewrite <- !app_assoc.
Qed.

Lemma occurs_drop (u s : Str.str) (n : nat) : occurs u (drop n s) → occurs u s.
Proof.
  intros H. rewrite <- (take_drop n s). by apply occurs_app_r.
Qed.

(** A string without [x] that starts in [a ++ x :: b] lies in [a]. *)
Lemma prefix_app_sep (x : ascii) (u a b : Str.str) :
  x ∉ u → u `prefix_of` (a ++ x :: b) → u `prefix_of` a.
Proof.
  revert a. induction u as [|c u IH]; intros a Hx Hp.
  { apply prefix_nil. }
  apply not_elem_of_cons in Hx as [Hne Hx].
  destruct a as [|c' a]; simpl in Hp.
  - apply prefix_cons_inv_1 in Hp. by destruct Hne.
  - pose proof (prefix_cons_inv_1 _ _ _ _ Hp) as ->.
    apply prefix_cons, IH; [done|]. by apply prefix_cons_inv_2 in Hp.
Qed.

Lemma occurs_app_sep (x : ascii) (u a b : Str.str) :
  x ∉ u → occurs u (a ++ x :: b) → occurs u a ∨ occurs u b.
Proof.
  intros Hx. induction a as [|c a IH]; simpl.
  - intros [Hp|H]%occurs_cons; [|by right]. left.
    apply (prefix_app_sep x u [] b) in Hp; [|done]. by apply occurs_prefix.
  - intros [Hp|H]%occurs_cons.
    + left. apply occurs_prefix.
      by apply (prefix_app_sep x u (c :: a) b).
    + destruct (IH H) as [Ha|Hb]; [left|by right].
      apply occurs_cons. by right.
Qed.

(** ** replace *)

Lemma length_ind {A : Type} (P : list A → Prop) :
  (∀ s, (∀ s', length s' < length s → P s') → P s) → ∀ s, P s.
Proof.
  intros H s. remember (length s) as n eqn:Hn. revert s Hn.
  induction n as [n IH] using lt_wf_ind. intros s ->.
  apply H. intros s' Hlt. by apply (IH (length s')).
Qed.

Lemma startswith_prefix (p s : Str.str) : Str.startswith p s = true ↔ p `prefix_of` s.
Proof.
  revert s. induction p as [|a p IH]; intros s; simpl.
  { split; [intros _; apply prefix_nil | done]. }
  destruct s as [|b s].
  { split; [done|]. intros H. by apply prefix_nil_not in H. }
  rewrite andb_true_iff, bool_decide_eq_true, IH. split.
  - intros [-> H]. by apply prefix_cons.
  - intros H. split; [by apply prefix_cons_inv_1 in H | by apply prefix_cons_inv_2 in H].
Qed.

Lemma replace_cons (o : ascii) (old new : Str.str) (c : ascii) (s : Str.str) :
  Str.replace (o :: old) new (c :: s)
  = if Str.startswith (o :: old) (c :: s)
    then new ++ Str.replace (o :: old) new (drop (length old) s)
    else c :: Str.replace (o :: old) new s.
Proof. by simp replace. Qed.

Lemma replace_nil (o : ascii) (old new : Str.str) : Str.replace (o :: old) new [] = [].
Proof. by simp replace. Qed.

Section replace_by_char.
Variables (o : ascii) (old : Str.str) (x : ascii).
Hypothesis token_free : x ∉ o :: old.

Local Abbreviation repl := (Str.replace (o :: old) [x]).

(** A string without [x] at the start of the result was at the start of
    the source. *)
Lemma replace_prefix (u s : Str.str) :
  x ∉ u → u `prefix_of` repl s → u `prefix_of` s.
Proof.
  revert s. induction u as [|c u IH]; intros s Hx Hp.
  { apply prefix_nil. }
  apply not_elem_of_cons in Hx as [Hne Hx].
  destruct s as [|c' s].
  { rewrite replace_nil in Hp. by apply prefix_nil_not in Hp. }
  rewrite replace_cons in Hp. destruct (Str.startswith _ _).
  - simpl in Hp. apply prefix_cons_inv_1 in Hp. by destruct Hne.
  - pose proof (prefix_cons_inv_1 _ _ _ _ Hp) as ->.
    apply prefix_cons, IH; [done|]. by apply prefix_cons_inv_2 in Hp.
Qed.

(** A string without [x] that occurs in the result occurred in the source. *)
Lemma replace_occurs (u s : Str.str) :
  x ∉ u → occurs u (repl s) → occurs u s.
Proof.
  intros Hx. induction s as [s IH] using length_ind.
  destruct s as [|c s]; [by rewrite replace_nil|].
  rewrite replace_cons. destruct (Str.startswith _ _).
  - simpl. intros [Hp|H]%occurs_cons.
    + destruct u as [|c' u]; [apply occurs_nil|].
      apply prefix_cons_inv_1 in Hp. apply not_elem_of_cons in Hx as [Hne _].
      by destruct Hne.
    + apply occurs_cons. right. apply (occurs_drop _ _ (length old)), IH; [|done].
      simpl. rewrite length_drop. lia.
  - intros [Hp|H]%occurs_cons.
    + destruct u as [|c' u]; [apply occurs_nil|].
      pose proof (prefix_cons_inv_1 _ _ _ _ Hp) as ->.
      apply prefix_cons_inv_2 in Hp. apply not_elem_of_cons in Hx as [_ Hx].
      apply occurs_prefix, prefix_cons. by apply replace_prefix.
    + apply occurs_cons. right. apply IH; [simpl; lia | done].
Qed.

(** The token does not occur in the result. *)
Lemma replace_clears (s : Str.str) : ¬ occurs (o :: old) (repl s).
Proof.
  pose proof token_free as Hx. apply not_elem_of_cons in Hx as [Hne Hx].
  induction s as [s IH] using length_ind.
  destruct s as [|c s].
  { rewrite replace_nil. by intros H%occurs_nil_inv. }
  rewrite replace_cons. destruct (Str.startswith _ _) eqn:Hs.
  - simpl. intros [Hp|H]%occurs_cons.
    + apply prefix_cons_inv_1 in Hp. by destruct Hne.
    + revert H. apply IH. simpl. rewrite length_drop. lia.
  - intros [Hp|H]%occurs_cons.
    + pose proof (prefix_cons_inv_1 _ _ _ _ Hp) as <-.
      apply prefix_cons_inv_2, replace_prefix in Hp; [|done].
      apply (prefix_cons o), startswith_prefix in Hp. congruence.
    + revert H. apply IH. simpl. lia.
Qed.

End replace_by_char.

(** Without an occurrence, nothing is replaced. *)
Lemma replace_id (old new s : Str.str) :
  old ≠ [] → ¬ occurs old s → Str.replace old new s = s.
Proof.
  destruct old as [|o old]; [done|]. intros _.
  induction s as [|c s IH]; intros Hno; [by rewrite replace_nil|].
  rewrite replace_cons. destruct (Str.startswith _ _) eqn:Hs.
  - apply startswith_prefix, occurs_prefix in Hs. by destruct Hno.
  - rewrite IH; [done|]. intros H. apply Hno, occurs_cons. by right.
Qed.

Lemma replace_Forall (P : ascii → Prop) (old new s : Str.str) :
  old ≠ [] → Forall P new → Forall P s → Forall P (Str.replace old new s).
Proof.
  destruct old as [|o old]; [done|]. intros _ Hnew.
  induction s as [s IH] using length_ind. intros Hs.
  destruct s as [|c s]; [by rewrite replace_nil|].
  rewrite replace_cons. apply Forall_cons in Hs as [Hc Hs].
  destruct (Str.startswith _ _).
  - apply Forall_app. split; [done|]. apply IH.
    + simpl. rewrite length_drop. lia.
    + by apply Forall_drop.
  - apply Forall_cons. split; [done|]. apply IH; [simpl; lia | done].
Qed.

(** ** split and join *)

Local Abbreviation nosp := (fun c => Str.isspace c = false).

Lemma fields_spec (s : Str.str) :
  ∃ w ws, Str.fields s = w :: ws ∧ w `prefix_of` s ∧ Forall nosp w ∧
          Forall (fun w' => Forall nosp w' ∧ occurs w' s) ws.
Proof.
  induction s as [|c s (w & ws & Hf & Hp & Hw & Hws)]; simpl.
  { exists [], []. split_and!; try done; constructor. }
  destruct (Str.isspace c) eqn:Hc.
  - exists [], (Str.fields s). rewrite Hf. split_and!; [done|apply prefix_nil|constructor|].
    constructor.
    + split; [done|]. apply occurs_cons. right. by apply occurs_prefix.
    + eapply Forall_impl; [exact Hws|]. intros w' [? ?]. split; [done|].
      apply occurs_cons. by right.
  - rewrite Hf. exists (c :: w), ws. split_and!; [done|by apply prefix_cons|by constructor|].
    eapply Forall_impl; [exact Hws|]. intros w' [? ?]. split; [done|].
    apply occurs_cons. by right.
Qed.

Lemma split_words (s : Str.str) :
  Forall word (Str.split s) ∧ Forall (fun w => occurs w s) (Str.split s).
Proof.
  destruct (fields_spec s) as (w & ws & Hf & Hp & Hw & Hws).
  assert (Hall : Forall (fun w' => Forall nosp w' ∧ occurs w' s) (Str.fields s)).
  { rewrite Hf. constructor; [|done]. split; [done|]. by apply occurs_prefix. }
  unfold Str.split. split; apply Forall_forall; intros w' [Hne Hin]%list_elem_of_filter.
  - rewrite Forall_forall in Hall. destruct (Hall w' Hin) as [? _].
    split; [|done]. by destruct w'.
  - rewrite Forall_forall in Hall. by destruct (Hall w' Hin).
Qed.

Lemma fields_word (w : Str.str) : Forall nosp w → Str.fields w = [w].
Proof.
  induction 1 as [|c w Hc _ IH]; simpl; [done|]. by rewrite Hc, IH.
Qed.

Lemma fields_word_sep (w : Str.str) (x : ascii) (rest : Str.str) :
  Forall nosp w → Str.isspace x = true →
  Str.fields (w ++ x :: rest) = w :: Str.fields rest.
Proof.
  intros Hw Hx. induction Hw as [|c w Hc _ IH]; simpl; [by rewrite Hx|].
  by rewrite Hc, IH.
Qed.

Lemma join_cons2 (sep w w2 : Str.str) (ws : list Str.str) :
  Str.join sep (w :: w2 :: ws) = w ++ sep ++ Str.join sep (w2 :: ws).
Proof. done. Qed.

Lemma split_join (ws : list Str.str) :
  Forall word ws → Str.split (Str.join (lit " ") ws) = ws.
Proof.
  induction 1 as [|w ws [Hne Hw] Hws IH]; [done|].
  destruct ws as [|w2 ws].
  - simpl. unfold Str.split. rewrite fields_word by done.
    rewrite filter_cons_True; [done | by destruct w].
  - rewrite join_cons2. unfold Str.split, lit. simpl app.
    rewrite fields_word_sep by done.
    rewrite filter_cons_True by (by destruct w). f_equal. apply IH.
Qed.

Lemma join_Forall (P : ascii → Prop) (sep : Str.str) (ws : list Str.str) :
  Forall P sep → Forall (Forall P) ws → Forall P (Str.join sep ws).
Proof.
  intros Hsep. induction 1 as [|w ws Hw Hws IH]; [constructor|].
  destruct ws as [|w2 ws]; [done|]. rewrite join_cons2.
  apply Forall_app. split; [done|]. apply Forall_app. by split.
Qed.

Lemma occurs_join (x : ascii) (u : Str.str) (ws : list Str.str) :
  x ∉ u → u ≠ [] → occurs u (Str.join [x] ws) → ∃ w, w ∈ ws ∧ occurs u w.
Proof.
  intros Hx Hne. induction ws as [|w ws IH].
  { by intros H%occurs_nil_inv. }
  destruct ws as [|w2 ws].
  - simpl. intros H. exists w. split; [by left | done].
  - rewrite join_cons2. simpl app. intros H.
    apply (occurs_app_sep x) in H as [H|H]; [| |done].
    + exists w. split; [by left | done].
    + destruct (IH H) as (w' & Hin & Hw'). exists w'. split; [by right | done].
Qed.

Lemma occurs_Forall (P : ascii → Prop) (u s : Str.str) :
  occurs u s → Forall P s → Forall P u.
Proof.
  intros (l1 & l2 & ->) H. apply Forall_app in H as [_ H]. by apply Forall_app in H as [H _].
Qed.

(** ** strip *)

Lemma lstrip_Forall (P : ascii → Prop) (s : Str.str) :
  Forall P s → Forall P (Str.lstrip s).
Proof.
  induction 1 as [|c s Hc Hs IH]; simpl; [constructor|].
  destruct (Str.isspace c); [done | by constructor].
Qed.

Lemma strip_Forall (P : ascii → Prop) (s : Str.str) :
  Forall P s → Forall P (Str.strip s).
Proof.
  intros H. unfold Str.strip, Str.rstrip.
  apply Forall_rev, lstrip_Forall, Forall_rev. by apply lstrip_Forall.
Qed.

Lemma lstrip_word_first (c : ascii) (s : Str.str) :
  Str.isspace c = false → Str.lstrip (c :: s) = c :: s.
Proof. intros H. simpl. by rewrite H. Qed.

Lemma rstrip_word_last (s : Str.str) (c : ascii) :
  Str.isspace c = false → Str.rstrip (s ++ [c]) = s ++ [c].
Proof.
  intros H. unfold Str.rstrip. rewrite rev_app_distr. simpl.
  rewrite H. simpl. by rewrite rev_involutive.
Qed.

Lemma join_words_ends (ws : list Str.str) :
  Forall word ws → ws ≠ [] →
  (∃ c s, Str.join (lit " ") ws = c :: s ∧ Str.isspace c = false) ∧
  (∃ s c, Str.join (lit " ") ws = s ++ [c] ∧ Str.isspace c = false).
Proof.
  induction 1 as [|w ws [Hne Hw] Hws IH]; [done|]. intros _.
  assert (Hfirst : ∃ c s, w = c :: s ∧ Str.isspace c = false).
  { destruct w as [|c s]; [done|]. apply Forall_cons in Hw as [? _]. by exists c, s. }
  assert (Hlast : ∃ s c, w = s ++ [c] ∧ Str.isspace c = false).
  { destruct w as [|c s _] using rev_ind; [done|].
    apply Forall_app in Hw as [_ Hw]. apply Forall_cons in Hw as [? _]. by exists s, c. }
  destruct ws as [|w2 ws]; [done|].
  rewrite join_cons2. split.
  - destruct Hfirst as (c & s & -> & Hc). by eexists c, _.
  - destruct IH as [_ (s & c & Heq & Hc)]; [done|]. rewrite Heq.
    exists (w ++ lit " " ++ s), c. split; [|done]. by rewrite <- !app_assoc.
Qed.

Lemma strip_join (ws : list Str.str) :
  Forall word ws → Str.strip (Str.join (lit " ") ws) = Str.join (lit " ") ws.
Proof.
  intros Hws. destruct ws as [|w ws]; [done|].
  destruct (join_words_ends (w :: ws) Hws) as [(c & s & Heq & Hc) (s' & c' & Heq' & Hc')];
    [done|].
  unfold Str.strip. rewrite Heq, lstrip_word_first by done.
  rewrite <- Heq, Heq'. by apply rstrip_word_last.
Qed.

(** ** lower *)

Lemma lower_char_idempotent (c : ascii) :
  Str.lower_char (Str.lower_char c) = Str.lower_char c.
Proof. destruct c as [[] [] [] [] [] [] [] []]; by vm_compute. Qed.

Lemma lower_fixed (s : Str.str) :
  Forall (fun c => Str.lower_char c = c) s ↔ Str.lower s = s.
Proof.
  unfold Str.lower. induction s as [|c s IH]; simpl.
  { split; [done | constructor]. }
  rewrite Forall_cons, IH. split.
  - intros [-> ->]. done.
  - intros [= -> ->]. done.
Qed.

Lemma lower_lower (s : Str.str) : Forall (fun c => Str.lower_char c = c) (Str.lower s).
Proof.
  unfold Str.lower. apply Forall_forall. intros c (c' & -> & _)%list_elem_of_fmap.
  apply lower_char_idempotent.
Qed.

(** ** The stop tokens *)

Lemma stop_tokens_shape : Forall (fun t => t ≠ [] ∧ " "%char ∉ t) stop_tokens.
Proof.
  unfold stop_tokens.
  repeat (apply Forall_cons; split;
          [split; [done | by apply (bool_decide_unpack _); vm_compute] |]).
  constructor.
Qed.

Lemma replace_tokens_clears (ts : list Str.str) (s t : Str.str) :
  Forall (fun t => t ≠ [] ∧ " "%char ∉ t) ts →
  t ∈ ts → ¬ occurs t (replace_tokens ts s).
Proof.
  unfold replace_tokens.
  induction ts as [|t' ts IH] using rev_ind; intros Hts Hin.
  { by apply elem_of_nil in Hin. }
  apply Forall_app in Hts as [Hts Ht']. apply Forall_cons in Ht' as [[Hne Hsp] _].
  rewrite foldl_app. simpl. destruct t' as [|o old]; [done|].
  apply elem_of_app in Hin as [Hin|Heq%list_elem_of_singleton].
  - intros H. apply (replace_occurs o old " "%char) in H; [by apply IH|].
    rewrite Forall_forall in Hts. by destruct (Hts t Hin).
  - subst t. by apply replace_clears.
Qed.

Lemma replace_tokens_id (ts : list Str.str) (s : Str.str) :
  (∀ t, t ∈ ts → t ≠ [] ∧ ¬ occurs t s) → replace_tokens ts s = s.
Proof.
  unfold replace_tokens. induction ts as [|t ts IH]; intros H; [done|].
  simpl. destruct (H t) as [Hne Hno]; [by left|].
  rewrite replace_id by done. apply IH. intros t' Hin. apply H. by right.
Qed.

Lemma replace_tokens_Forall (P : ascii → Prop) (ts : list Str.str) (s : Str.str) :
  Forall (fun t => t ≠ [] ∧ " "%char ∉ t) ts →
  P " "%char → Forall P s → Forall P (replace_tokens ts s).
Proof.
  unfold replace_tokens. intros Hts Hsp. revert s.
  induction Hts as [|t ts [Hne _] _ IH]; intros s Hs; [done|].
  simpl. apply IH. apply replace_Forall; [done| |done]. by constructor.
Qed.

(** ** The normalizer *)

Lemma normalize_str_normal (s : Str.str) : normal (normalize_str s).
Proof.
  unfold normalize_str. fold (replace_tokens stop_tokens (Str.strip (Str.lower s))).
  set (r := replace_tokens stop_tokens (Str.strip (Str.lower s))).
  destruct (split_words r) as [Hwords Hocc].
  split_and!.
  - by exists (Str.split r).
  - apply lower_fixed, join_Forall; [by repeat constructor|].
    assert (Hr : Forall (fun c => Str.lower_char c = c) r).
    { apply replace_tokens_Forall; [apply stop_tokens_shape | done |].
      apply strip_Forall, lower_lower. }
    eapply Forall_impl; [exact Hocc|]. intros w Hw. by apply (occurs_Forall _ w r).
  - intros t Ht Ho.
    pose proof stop_tokens_shape as Hshape. rewrite Forall_forall in Hshape.
    destruct (Hshape t Ht) as [Hne Hsp].
    apply (occurs_join " "%char) in Ho as (w & Hw & Ho); [|done..].
    rewrite Forall_forall in Hocc.
    apply (replace_tokens_clears stop_tokens (Str.strip (Str.lower s)) t);
      [apply stop_tokens_shape | done |].
    by apply (occurs_trans t w), Hocc.
Qed.

Lemma normal_fixed (o : Str.str) : normal o → normalize_str o = o.
Proof.
  intros [(ws & -> & Hws) [Hlow Hno]]. unfold normalize_str.
  rewrite Hlow, strip_join by done.
  fold (replace_tokens stop_tokens (Str.join (lit " ") ws)).
  rewrite replace_tokens_id.
  - by rewrite split_join.
  - intros t Ht. split; [|by apply Hno].
    pose proof stop_tokens_shape as Hshape. rewrite Forall_forall in Hshape.
    by destruct (Hshape t Ht).
Qed.

(** C10: [normalize_text] is idempotent: normalizing a normalized name
    changes nothing. *)
Theorem normalize_text_idempotent (s : option string) :
  normalize_text (Some (normalize_text s)) = normalize_text s.
Proof.
  destruct s as [s|]; [|done]. simpl.
  rewrite list_ascii_of_string_of_list_ascii.
  by rewrite normal_fixed by apply normalize_str_normal.
Qed.

(** ** Loops *)

Lemma for_each_app {A S : Type} (body : S -> A -> result S) (l1 l2 : list A) (s : S) :
  for_each body (l1 ++ l2) s = s' ← for_each body l1 s; for_each body l2 s'.
Proof.
  revert s. induction l1 as [|x l1 IH]; intros s; simpl; [done|].
  destruct (body s x) as [e|s']; simpl; [done|]. apply IH.
Qed.

Lemma for_each_nested {A B S : Type} (body : S -> B -> result S) (g : A -> list B)
    (ks : list A) (s : S) :
  for_each (fun st k => for_each body (g k) st) ks s
  = for_each body (concat (map g ks)) s.
Proof.
  revert s. induction ks as [|k ks IH]; intros s; simpl; [done|].
  rewrite for_each_app.
  destruct (for_each body (g k) s) as [e|s']; simpl; [done|]. apply IH.
Qed.

Lemma iterrows_snoc {A : Type} (df : list A) (x : A) :
  iterrows (df ++ [x]) = iterrows df ++ [(length df, x)].
Proof.
  unfold iterrows. rewrite imap_app. simpl. by rewrite Nat.add_0_r.
Qed.

Lemma elem_of_iterrows {A : Type} (df : list A) (i : nat) (x : A) :
  (i, x) ∈ iterrows df ↔ df !! i = Some x.
Proof.
  unfold iterrows. rewrite elem_of_lookup_imap. split.
  - intros (i' & x' & [= -> ->] & H). done.
  - intros H. by exists i, x.
Qed.

(** ** The buckets *)

Lemma build_buckets_lookup (bank_df : list Bank.row) (k : Z) :
  default [] (build_buckets bank_df !! k)
  = filter (fun jb => bucket_key (Bank.Amount jb.2) = k) (iterrows bank_df).
Proof.
  unfold build_buckets.
  induction bank_df as [|b bank_df IH] using rev_ind; [done|].
  rewrite iterrows_snoc, foldl_app, filter_app. simpl.
  destruct (decide (bucket_key (Bank.Amount b) = k)) as [Hk|Hne].
  - rewrite Hk, lookup_insert_eq. simpl. rewrite IH.
    by rewrite (filter_cons_True _ (_, b)) by done.
  - rewrite lookup_insert_ne by done. rewrite IH.
    rewrite (filter_cons_False _ (_, b)) by done. by rewrite app_nil_r.
Qed.

Lemma Qlt_bool_iff (x y : Q) : Qlt_bool x y = true ↔ (x < y)%Q.
Proof.
  unfold Qlt_bool. rewrite negb_true_iff, <- not_true_iff_false, Qle_bool_iff.
  split; [apply Qnot_le_lt | apply Qlt_not_le].
Qed.

Lemma py_div_inr (x y q : Q) :
  py_div x y = inr q → ¬ (y == 0)%Q ∧ q = Binary64.div x y.
Proof.
  unfold py_div. destruct (Qeq_bool y 0) eqn:E; [done|].
  intros [= <-]. split; [|done]. by apply Qeq_bool_neq.
Qed.

Lemma py_div_inl (x y : Q) (e : exn) :
  py_div x y = inl e → (y == 0)%Q ∧ e = ZeroDivisionError.
Proof.
  unfold py_div. destruct (Qeq_bool y 0) eqn:E; [|done].
  intros [= <-]. split; [|done]. by apply Qeq_bool_eq.
Qed.

Section scanning.
Variables (date_tol_days : Z) (sim_threshold : Q).
Variable bank_by_amount : gmap Z bucket.
Variables (used : gset nat) (i : nat) (row : Internal.row).

Local Abbreviation consider' := (consider date_tol_days sim_threshold used i row).
Local Abbreviation eligible' := (eligible date_tol_days sim_threshold used row).
Local Abbreviation best_ok' := (best_ok date_tol_days sim_threshold used i row).

Lemma scan_candidates :
  scan date_tol_days sim_threshold bank_by_amount used i row
  = for_each consider' (candidates bank_by_amount row) (0%Q, None).
Proof. unfold scan, candidates. apply for_each_nested. Qed.

(** One candidate: the best changes exactly when the candidate is eligible'
    and scores strictly higher. *)
Lemma consider_inr (bs bs' : Q) (bm bm' : option best_tuple) (j : nat) (b : Bank.row) :
  consider' (bs, bm) (j, b) = inr (bs', bm') →
  (eligible' j b ∧ (bs < score row b)%Q ∧
     bs' = score row b ∧ bm' = Some (i, j, b, vendor_sim row b, amount_diff row b))
  ∨ (¬ (eligible' j b ∧ (bs < score row b)%Q) ∧ bs' = bs ∧ bm' = bm).
Proof.
  unfold consider, eligible.
  destruct (decide (j ∈ used)) as [Hu|Hu].
  { intros [= <- <-]. right. tauto. }
  destruct (Z.leb_spec (Z.abs (Internal.Date row - Bank.Date b)) date_tol_days) as [Hd|Hd].
  2:{ intros [= <- <-]. right. split; [lia|done]. }
  destruct (py_div _ _) as [e|q] eqn:Hq; simpl; [done|].
  apply py_div_inr in Hq as [_ ->].
  fold (vendor_sim row b) (amount_diff row b) (score row b).
  destruct (Qlt_bool bs (score row b)) eqn:Hlt; simpl.
  - destruct (Qle_bool sim_threshold (vendor_sim row b)) eqn:Hle.
    + intros [= <- <-]. left. apply Qlt_bool_iff in Hlt. apply Qle_bool_iff in Hle. done.
    + intros [= <- <-]. right. split; [|done].
      intros [(_ & _ & H) _]. apply Qle_bool_iff in H. congruence.
  - intros [= <- <-]. right. split; [|done].
    intros [_ H]. apply Qlt_bool_iff in H. congruence.
Qed.

Lemma best_ok_nonneg seen st : best_ok' seen st → (0 <= st.1)%Q.
Proof.
  destruct st as [bs [[[[[i' j] b] sim] amt]|]]; simpl; intros [_ H]; simpl in H.
  - destruct H as (_ & _ & _ & _ & _ & -> & H). by apply Qlt_le_weak.
  - rewrite H. apply Qle_refl.
Qed.

Lemma for_each_consider_ok (l seen : bucket) (st st' : Q * option best_tuple) :
  best_ok' seen st →
  for_each consider' l st = inr st' →
  best_ok' (seen ++ l) st'.
Proof.
  revert seen st. induction l as [|[j b] l IH]; intros seen st Hok; simpl.
  { intros [= <-]. by rewrite app_nil_r. }
  destruct (consider' st (j, b)) as [e|[bs1 bm1]] eqn:Hc; simpl; [done|].
  intros Hrest. replace (seen ++ (j, b) :: l) with ((seen ++ [(j, b)]) ++ l)
    by (by rewrite <- app_assoc).
  apply (IH _ (bs1, bm1)); [|done]. clear IH Hrest.
  pose proof (best_ok_nonneg _ _ Hok) as Hnn.
  destruct st as [bs bm]. simpl in Hnn.
  destruct Hok as [Hmax Hbm]. simpl in Hmax, Hbm.
  apply consider_inr in Hc as [(Hel & Hlt & -> & ->)|(Hno & -> & ->)].
  - split; simpl.
    + intros j' b' [Hin|Hin%list_elem_of_singleton]%elem_of_app Hel'.
      * apply Qle_trans with bs; [by apply (Hmax j') | by apply Qlt_le_weak].
      * injection Hin as -> ->. apply Qle_refl.
    + split_and!; try done.
      * apply elem_of_app. right. by apply list_elem_of_singleton.
      * by apply Qle_lt_trans with bs.
  - split; simpl.
    + intros j' b' [Hin|Hin%list_elem_of_singleton]%elem_of_app Hel'.
      * by apply (Hmax j').
      * injection Hin as -> ->. apply Qnot_lt_le. intros Hlt. by apply Hno.
    + destruct bm as [[[[[i' j'] b'] sim] amt]|]; [|done].
      destruct Hbm as (? & ? & ? & ? & ? & ? & ?). split_and!; try done.
      apply elem_of_app. by left.
Qed.

Lemma scan_ok (st : Q * option best_tuple) :
  scan date_tol_days sim_threshold bank_by_amount used i row = inr st →
  best_ok' (candidates bank_by_amount row) st.
Proof.
  rewrite scan_candidates. intros H.
  apply (for_each_consider_ok _ [] (0%Q, None)) in H; [done|].
  split; simpl; [|done]. intros j b Hin. by apply elem_of_nil in Hin.
Qed.

End scanning.

Lemma elem_of_candidates (bank_df : list Bank.row) (row : Internal.row) j b :
  (j, b) ∈ candidates (build_buckets bank_df) row ↔ bank_df !! j = Some b ∧ in_window row b.
Proof.
  unfold candidates, in_window. simpl. rewrite !build_buckets_lookup, app_nil_r.
  rewrite !elem_of_app, !list_elem_of_filter, !elem_of_iterrows. simpl. tauto.
Qed.

Lemma filter_all {A : Type} (P : A → Prop) `{∀ x, Decision (P x)} (l : list A) :
  (∀ x, P x) → filter P l = l.
Proof.
  intros HP. induction l as [|x l IH]; [done|].
  rewrite filter_cons_True by done. by rewrite IH.
Qed.

Lemma filter_unused_fresh (U : gset nat) (j : nat) (l : list nat) :
  j ∉ l → filter (fun x => x ∉ {[j]} ∪ U) l = filter (fun x => x ∉ U) l.
Proof.
  induction l as [|x l IH]; [done|].
  intros [Hne Hl]%not_elem_of_cons. specialize (IH Hl).
  destruct (decide (x ∈ U)) as [HU|HU].
  - rewrite !filter_cons_False; [done | by intros H; apply H |].
    intros H. apply H, elem_of_union. by right.
  - rewrite !filter_cons_True; [by rewrite IH | done |].
    intros [Hx%elem_of_singleton|Hx]%elem_of_union; [by apply Hne | done].
Qed.

Lemma filter_unused_insert (U : gset nat) (j : nat) (l : list nat) :
  NoDup l → j ∈ l → j ∉ U →
  length (filter (fun x => x ∉ {[j]} ∪ U) l) + 1 = length (filter (fun x => x ∉ U) l).
Proof.
  induction l as [|x l IH]; intros Hnd Hin Hj.
  { by apply elem_of_nil in Hin. }
  apply NoDup_cons in Hnd as [Hx Hnd].
  destruct (decide (x = j)) as [->|Hne].
  - rewrite filter_cons_False.
    2:{ intros H. apply H, elem_of_union. left. by apply elem_of_singleton. }
    rewrite (filter_cons_True (fun x => x ∉ U)) by done. simpl.
    rewrite filter_unused_fresh by done. lia.
  - apply elem_of_cons in Hin as [Hin|Hin]; [done|].
    specialize (IH Hnd Hin Hj).
    destruct (decide (x ∈ U)) as [HU|HU].
    + rewrite !filter_cons_False; [done | by intros H; apply H |].
      intros H. apply H, elem_of_union. by right.
    + rewrite !filter_cons_True; [simpl; lia | done |].
      intros [Hx'%elem_of_singleton|Hx']%elem_of_union; [by apply Hne | done].
Qed.

Section run_facts.
Variables (internal_df : list Internal.row) (bank_df : list Bank.row).
Variables (date_tol_days : Z) (sim_threshold : Q).

Local Abbreviation run_on' := (run_on internal_df bank_df date_tol_days sim_threshold).
Local Abbreviation step' := (step date_tol_days sim_threshold (build_buckets bank_df) internal_df).
Local Abbreviation run_inv' := (run_inv internal_df bank_df date_tol_days sim_threshold).
Local Abbreviation selectable' := (selectable bank_df date_tol_days sim_threshold).
Local Abbreviation paired' := (paired internal_df bank_df date_tol_days sim_threshold).

(** One turn of the main loop: either a selectable' candidate is consumed
    and its record appended, or nothing is selectable' and the label is
    appended to [unmatched_internal]. *)
Lemma step_inr (st st' : state) (i : nat) (row : Internal.row) :
  internal_df !! i = Some row →
  step' st (i, row) = inr st' →
  (∃ j b, selectable' (bank_idx_used st) row j b ∧
          bank_idx_used st' = {[j]} ∪ bank_idx_used st ∧
          matches st' = matches st ++ [record_of row b] ∧
          unmatched_internal st' = unmatched_internal st)
  ∨ ((∀ j b, ¬ selectable' (bank_idx_used st) row j b) ∧
     bank_idx_used st' = bank_idx_used st ∧
     matches st' = matches st ∧
     unmatched_internal st' = unmatched_internal st ++ [i]).
Proof.
  intros Hrow. unfold step.
  destruct (scan _ _ _ _ _ _) as [e|[bs bm]] eqn:Hscan; simpl; [done|].
  apply scan_ok in Hscan as [Hmax Hbm]. simpl in Hmax, Hbm.
  destruct bm as [[[[[i' j] b] sim] amt]|].
  - destruct Hbm as (-> & [Hb Hw]%elem_of_candidates & Hel & -> & -> & _ & Hpos).
    rewrite Hrow. simpl. intros [= <-]. left. exists j, b. simpl.
    split_and!; done.
  - intros [= <-]. right. simpl. split_and!; try done.
    intros j b [(Hb & Hw & Hel) Hpos].
    assert (Hin : (j, b) ∈ candidates (build_buckets bank_df) row)
      by (by apply elem_of_candidates).
    specialize (Hmax j b Hin Hel). subst bs.
    by apply (Qlt_not_le _ _ Hpos).
Qed.

Lemma run_on_cons (ir : nat * Internal.row) (rows : list (nat * Internal.row)) (st : state) :
  run_on' (ir :: rows) st = st1 ← step' st ir; run_on' rows st1.
Proof. done. Qed.

Lemma run_on_app (rows1 rows2 : list (nat * Internal.row)) (st : state) :
  run_on' (rows1 ++ rows2) st = st1 ← run_on' rows1 st; run_on' rows2 st1.
Proof. apply for_each_app. Qed.

Lemma run_inv_initial : run_inv' 0 initial.
Proof.
  exists []. simpl. split_and!.
  all: try (intros ? []%elem_of_nil). all: try constructor.
  all: try done.
  - intros []%elem_of_nil.
  - rewrite filter_all by (intros; apply not_elem_of_empty).
    by rewrite length_seq, Nat.add_0_r.
Qed.

Lemma run_inv_step (st st' : state) (n : nat) (row : Internal.row) :
  internal_df !! n = Some row →
  run_inv' n st →
  step' st (n, row) = inr st' →
  run_inv' (S n) st'.
Proof.
  intros Hrow (pairs & Hp & Hnd1 & Hnd2 & Hused & Hlt1 & Hlt2 & Hdisj & Hlen & Hcnt) Hstep.
  apply (step_inr _ _ _ _ Hrow) in Hstep as
    [(j & b & [(Hb & Hw & Hj & Hd & Hs) Hpos] & Hu' & Hm' & Hun')
    |(Hnone & Hu' & Hm' & Hun')].
  - exists (pairs ++ [(n, j)]). rewrite Hu', Hm', Hun'. rewrite !fmap_app. simpl.
    split_and!.
    + apply Forall2_app; [done|]. constructor; [|constructor].
      exists row, b. simpl. split_and!; done.
    + apply NoDup_app. split_and!; [done| |apply NoDup_singleton].
      intros i Hi Hn%list_elem_of_singleton. subst i. apply Hlt1 in Hi. lia.
    + apply NoDup_app. split_and!; [done| |apply NoDup_singleton].
      intros j' Hj' Hn%list_elem_of_singleton. subst j'. by apply Hj, Hused.
    + intros j'. rewrite elem_of_union, elem_of_singleton, elem_of_app,
        list_elem_of_singleton, Hused. tauto.
    + intros i [Hi|Hi%list_elem_of_singleton]%elem_of_app; [|lia].
      apply Hlt1 in Hi. lia.
    + intros i Hi. apply Hlt2 in Hi. lia.
    + intros i [Hi|Hi%list_elem_of_singleton]%elem_of_app; [by apply Hdisj|].
      subst i. intros Hi. apply Hlt2 in Hi. lia.
    + rewrite length_app. simpl. lia.
    + rewrite length_app. simpl.
      pose proof (filter_unused_insert (bank_idx_used st) j (seq 0 (length bank_df))) as Hf.
      rewrite <- Hf in Hcnt; [lia | apply NoDup_seq | | done].
      apply elem_of_seq. apply lookup_lt_Some in Hb. lia.
  - exists pairs. rewrite Hu', Hm', Hun'. split_and!; try done.
    + intros i Hi. apply Hlt1 in Hi. lia.
    + intros i [Hi|Hi%list_elem_of_singleton]%elem_of_app; [|lia].
      apply Hlt2 in Hi. lia.
    + intros i Hi [Hi'|Hi'%list_elem_of_singleton]%elem_of_app; [by apply (Hdisj i)|].
      subst i. apply Hlt1 in Hi. lia.
    + rewrite length_app. simpl. lia.
Qed.

Lemma iterrows_split_lookup (pre rows : list (nat * Internal.row)) i row :
  iterrows internal_df = pre ++ (i, row) :: rows →
  i = length pre ∧ internal_df !! i = Some row.
Proof.
  intros H.
  assert (Hl : iterrows internal_df !! length pre = Some (i, row))
    by (by rewrite H, list_lookup_middle).
  unfold iterrows in Hl. rewrite list_lookup_imap in Hl.
  destruct (internal_df !! length pre) as [r|] eqn:E; [|done].
  simpl in Hl. by injection Hl as <- <-.
Qed.

Lemma run_inv_rows (rows pre : list (nat * Internal.row)) (st st' : state) :
  iterrows internal_df = pre ++ rows →
  run_inv' (length pre) st →
  run_on' rows st = inr st' →
  run_inv' (length internal_df) st'.
Proof.
  revert pre st. induction rows as [|[i row] rows IH]; intros pre st Hsplit Hinv.
  - intros [= <-]. rewrite app_nil_r in Hsplit.
    assert (length internal_df = length pre) as ->; [|done].
    subst pre. unfold iterrows. by rewrite length_imap.
  - rewrite run_on_cons.
    destruct (step' st (i, row)) as [e|st1] eqn:Hstep; [done|].
    intros Hrest. destruct (iterrows_split_lookup _ _ _ _ Hsplit) as [-> Hrow].
    apply (IH (pre ++ [(length pre, row)]) st1).
    + by rewrite <- app_assoc.
    + rewrite length_app. simpl. rewrite Nat.add_1_r.
      by apply (run_inv_step st _ _ row).
    + done.
Qed.

Lemma run_inv_final (st : state) :
  run_on' (iterrows internal_df) initial = inr st →
  run_inv' (length internal_df) st.
Proof. apply (run_inv_rows _ []); [done | apply run_inv_initial]. Qed.

End run_facts.

(** ** The data frames returned *)

Lemma loc_inr {A : Type} (df : list A) (labels : list nat) (rows : list A) :
  loc df labels = inr rows → Forall2 (fun i r => df !! i = Some r) labels rows.
Proof.
  revert rows. induction labels as [|i labels IH]; intros rows; unfold loc; simpl.
  { intros [= <-]. constructor. }
  destruct (df !! i) as [r|] eqn:Hr; simpl; [|done].
  fold (loc df labels). destruct (loc df labels) as [e|rows'] eqn:Hl; simpl; [done|].
  intros [= <-]. constructor; [done|]. by apply IH.
Qed.

Lemma loc_total {A : Type} (df : list A) (labels : list nat) :
  (∀ i, i ∈ labels → i < length df) → ∃ rows, loc df labels = inr rows.
Proof.
  induction labels as [|i labels IH]; intros Hlt; unfold loc; simpl.
  { by exists []. }
  destruct (lookup_lt_is_Some_2 df i) as [r Hr].
  { apply Hlt. by left. }
  rewrite Hr. simpl. fold (loc df labels).
  destruct IH as [rows Hrows].
  { intros i' Hi'. apply Hlt. by right. }
  rewrite Hrows. simpl. by exists (r :: rows).
Qed.

Lemma reconcile_inr internal_df bank_df date_tol_days amount_tol sim_threshold ms ui ub :
  reconcile internal_df bank_df date_tol_days amount_tol sim_threshold = inr (ms, ui, ub) →
  ∃ st,
    run_on internal_df bank_df date_tol_days sim_threshold (iterrows internal_df) initial
      = inr st ∧
    ms = matches st ∧
    loc internal_df (unmatched_internal st) = inr ui ∧
    loc bank_df (filter (fun i => i ∉ bank_idx_used st) (seq 0 (length bank_df))) = inr ub.
Proof.
  unfold reconcile, run_on.
  destruct (run _ _ _ _ _ _) as [e|st]; simpl; [done|].
  destruct (loc internal_df _) as [e|ui'] eqn:Hui; simpl; [done|].
  destruct (loc bank_df _) as [e|ub'] eqn:Hub; simpl; [done|].
  intros [= <- <- <-]. by exists st.
Qed.

(** The loop can only raise; when it does not, [reconcile] returns. *)
Lemma reconcile_returns internal_df bank_df date_tol_days amount_tol sim_threshold st :
  run_on internal_df bank_df date_tol_days sim_threshold (iterrows internal_df) initial
    = inr st →
  ∃ ui ub,
    reconcile internal_df bank_df date_tol_days amount_tol sim_threshold
      = inr (matches st, ui, ub).
Proof.
  intros Hrun. pose proof (run_inv_final _ _ _ _ _ Hrun) as
    (pairs & _ & _ & _ & _ & _ & Hlt & _).
  destruct (loc_total internal_df (unmatched_internal st)) as [ui Hui]; [done|].
  destruct (loc_total bank_df
    (filter (fun i => i ∉ bank_idx_used st) (seq 0 (length bank_df)))) as [ub Hub].
  { intros i [_ Hi%elem_of_seq]%list_elem_of_filter. lia. }
  exists ui, ub. unfold reconcile. unfold run_on in Hrun. rewrite Hrun. simpl.
  rewrite Hui. simpl. rewrite Hub. done.
Qed.

(** C3: the output of [reconcile] does not depend on [amount_tol]: with the
    other arguments equal, two values of [amount_tol] give the same matches,
    the same unmatched internal rows and the same unmatched bank rows (and
    the same exception when it raises). *)
Theorem reconcile_amount_tol_inert internal_df bank_df date_tol_days sim_threshold
    (a1 a2 : Q) :
  reconcile internal_df bank_df date_tol_days a1 sim_threshold
  = reconcile internal_df bank_df date_tol_days a2 sim_threshold.
Proof. reflexivity. Qed.

(** C5: when [reconcile] returns, its output partitions both inputs: the
    matches and the unmatched internal rows are as many as the internal rows,
    the matches and the unmatched bank rows as many as the bank rows. *)
Theorem reconcile_partition_sizes internal_df bank_df date_tol_days amount_tol
    sim_threshold ms ui ub :
  reconcile internal_df bank_df date_tol_days amount_tol sim_threshold = inr (ms, ui, ub) →
  length ms + length ui = length internal_df ∧
  length ms + length ub = length bank_df.
Proof.
  intros (st & Hrun & -> & Hui & Hub)%reconcile_inr.
  apply run_inv_final in Hrun as (pairs & _ & _ & _ & _ & _ & _ & _ & Hn & Hcnt).
  apply loc_inr, Forall2_length in Hui. apply loc_inr, Forall2_length in Hub.
  split; lia.
Qed.

Lemma paired_fields internal_df bank_df date_tol_days sim_threshold p m :
  paired internal_df bank_df date_tol_days sim_threshold p m →
  (sim_threshold <= Vendor_similarity m)%Q ∧
  (Z.abs (Internal_Date m - Bank_Date m) ≤ date_tol_days)%Z ∧
  Amount_diff m = Qabs (Binary64.sub (Internal_Amount m) (Bank_Amount m)) ∧
  (0 < record_score m)%Q.
Proof. intros (row & b & _ & _ & _ & -> & Hd & Hs & Hpos). done. Qed.

Lemma matches_paired internal_df bank_df date_tol_days amount_tol sim_threshold ms ui ub m :
  reconcile internal_df bank_df date_tol_days amount_tol sim_threshold = inr (ms, ui, ub) →
  m ∈ ms →
  ∃ p, paired internal_df bank_df date_tol_days sim_threshold p m.
Proof.
  intros (st & Hrun & -> & _)%reconcile_inr Hm.
  apply run_inv_final in Hrun as (pairs & Hp & _).
  apply list_elem_of_lookup in Hm as [k Hk].
  destruct (Forall2_lookup_r _ _ _ _ _ Hp Hk) as (p & _ & Hpm). by exists p.
Qed.

(** C6: every match record that [reconcile] returns has a vendor
    similarity of at least [sim_threshold], dates at most [date_tol_days]
    whole days apart (inclusive), and an [Amount_diff] that is the absolute
    difference of the two amounts, hence not negative.  The difference is
    the one of line 43, a subtraction of floats: it is the double nearest
    to the exact difference, from which it is away by at most 2^-53 of it. *)
Theorem reconcile_match_bounds internal_df bank_df date_tol_days amount_tol
    sim_threshold ms ui ub m :
  reconcile internal_df bank_df date_tol_days amount_tol sim_threshold = inr (ms, ui, ub) →
  m ∈ ms →
  (sim_threshold <= Vendor_similarity m)%Q ∧
  (Z.abs (Internal_Date m - Bank_Date m) ≤ date_tol_days)%Z ∧
  Amount_diff m = Qabs (Binary64.sub (Internal_Amount m) (Bank_Amount m)) ∧
  (Qabs (Amount_diff m - Qabs (Internal_Amount m - Bank_Amount m))
   <= Qabs (Internal_Amount m - Bank_Amount m) * (1 # 2 ^ 53))%Q ∧
  (0 <= Amount_diff m)%Q.
Proof.
  intros Hr Hm. destruct (matches_paired _ _ _ _ _ _ _ _ _ Hr Hm) as [p Hp].
  apply paired_fields in Hp as (Hs & Hd & Ha & _).
  split_and!; try done; rewrite Ha; [apply sub_abs_error | apply Qabs_nonneg].
Qed.

(** C8: the score [sim - (amt_diff / (int_amt + 1)) * 0.25] of every match
    record that [reconcile] returns is strictly positive: the running best
    starts at 0, so a candidate that scores 0 or less is never selected,
    whatever its similarity.  The score is the one that the floats of
    line 44 compute, here computed again from the fields of the record. *)
Theorem reconcile_score_floor internal_df bank_df date_tol_days amount_tol
    sim_threshold ms ui ub m :
  reconcile internal_df bank_df date_tol_days amount_tol sim_threshold = inr (ms, ui, ub) →
  m ∈ ms →
  (0 < record_score m)%Q.
Proof.
  intros Hr Hm. destruct (matches_paired _ _ _ _ _ _ _ _ _ Hr Hm) as [p Hp].
  by apply paired_fields in Hp as (_ & _ & _ & Hpos).
Qed.

(** C4: in a run of [reconcile] that returns, every match record pairs one
    internal label with one bank label, no internal label and no bank label
    is paired twice; so with unique transaction ids and unique bank
    references, no id and no reference appears in two match records. *)
Theorem reconcile_at_most_one_match internal_df bank_df date_tol_days amount_tol
    sim_threshold ms ui ub :
  reconcile internal_df bank_df date_tol_days amount_tol sim_threshold = inr (ms, ui, ub) →
  ∃ pairs : list (nat * nat),
    Forall2 (fun p m => ∃ row b, internal_df !! p.1 = Some row ∧
                                 bank_df !! p.2 = Some b ∧ m = record_of row b) pairs ms ∧
    NoDup pairs.*1 ∧ NoDup pairs.*2 ∧
    (NoDup (Internal.Transaction_ID <$> internal_df) → NoDup (Transaction_ID <$> ms)) ∧
    (NoDup (Bank.Bank_Ref <$> bank_df) → NoDup (Bank_Ref <$> ms)).
Proof.
  intros (st & Hrun & -> & _)%reconcile_inr.
  apply run_inv_final in Hrun as (pairs & Hp & Hnd1 & Hnd2 & _).
  exists pairs.
  assert (Hp' : Forall2 (fun p m => ∃ row b, internal_df !! p.1 = Some row ∧
                 bank_df !! p.2 = Some b ∧ m = record_of row b) pairs (matches st)).
  { eapply Forall2_impl; [exact Hp|]. intros p m (row & b & ? & ? & _ & ? & _).
    by exists row, b. }
  split_and!; try done.
  - intros Hids. clear Hp Hnd2. revert Hnd1 Hp'. generalize (matches st).
    induction pairs as [|p pairs IH]; intros ms Hnd1 Hp'.
    { apply Forall2_nil_inv_l in Hp' as ->. constructor. }
    apply Forall2_cons_inv_l in Hp' as (m & ms' & (row & b & Hrow & _ & ->) & Hp' & ->).
    simpl in Hnd1. apply NoDup_cons in Hnd1 as [Hfresh Hnd1].
    simpl. apply NoDup_cons. split; [|by apply IH].
    intros (m' & Heq & Hm')%list_elem_of_fmap. apply Hfresh.
    apply list_elem_of_lookup in Hm' as [k Hk].
    destruct (Forall2_lookup_r _ _ _ _ _ Hp' Hk) as (p' & Hp'k & row' & b' & Hrow' & _ & ->).
    simpl in Heq.
    assert (p.1 = p'.1) as ->.
    { eapply (NoDup_lookup _ _ _ _ Hids); rewrite list_lookup_fmap.
      - by rewrite Hrow.
      - by rewrite Hrow', Heq. }
    apply list_elem_of_fmap. exists p'. split; [done|].
    by apply list_elem_of_lookup_2 in Hp'k.
  - intros Hids. clear Hp Hnd1. revert Hnd2 Hp'. generalize (matches st).
    induction pairs as [|p pairs IH]; intros ms Hnd2 Hp'.
    { apply Forall2_nil_inv_l in Hp' as ->. constructor. }
    apply Forall2_cons_inv_l in Hp' as (m & ms' & (row & b & _ & Hb & ->) & Hp' & ->).
    simpl in Hnd2. apply NoDup_cons in Hnd2 as [Hfresh Hnd2].
    simpl. apply NoDup_cons. split; [|by apply IH].
    intros (m' & Heq & Hm')%list_elem_of_fmap. apply Hfresh.
    apply list_elem_of_lookup in Hm' as [k Hk].
    destruct (Forall2_lookup_r _ _ _ _ _ Hp' Hk) as (p' & Hp'k & row' & b' & _ & Hb' & ->).
    simpl in Heq.
    assert (p.2 = p'.2) as ->.
    { eapply (NoDup_lookup _ _ _ _ Hids); rewrite list_lookup_fmap.
      - by rewrite Hb.
      - by rewrite Hb', Heq. }
    apply list_elem_of_fmap. exists p'. split; [done|].
    by apply list_elem_of_lookup_2 in Hp'k.
Qed.

Section run_order.
Variables (internal_df : list Internal.row) (bank_df : list Bank.row).
Variables (date_tol_days : Z) (sim_threshold : Q).

Local Abbreviation run_on' := (run_on internal_df bank_df date_tol_days sim_threshold).
Local Abbreviation step' := (step date_tol_days sim_threshold (build_buckets bank_df) internal_df).
Local Abbreviation selectable' := (selectable bank_df date_tol_days sim_threshold).

Lemma iterrows_lookup {A : Type} (df : list A) (i : nat) (x : A) :
  df !! i = Some x → iterrows df !! i = Some (i, x).
Proof. intros H. unfold iterrows. by rewrite list_lookup_imap, H. Qed.

Lemma iterrows_drop_label {A : Type} (df : list A) (n i : nat) (x : A) :
  (i, x) ∈ drop n (iterrows df) → n ≤ i ∧ df !! i = Some x.
Proof.
  intros [k Hk]%list_elem_of_lookup. rewrite lookup_drop in Hk.
  unfold iterrows in Hk. rewrite list_lookup_imap in Hk.
  destruct (df !! (n + k)) as [y|] eqn:E; [|done].
  simpl in Hk. injection Hk as <- <-. split; [lia|done].
Qed.

(** The loop only appends: records to [matches], and to
    [unmatched_internal] labels of the rows it goes through. *)
Lemma run_on_grows (rows : list (nat * Internal.row)) (st st' : state) :
  Forall (fun ir => internal_df !! ir.1 = Some ir.2) rows →
  run_on' rows st = inr st' →
  matches st `prefix_of` matches st' ∧
  bank_idx_used st ⊆ bank_idx_used st' ∧
  ∃ labels, unmatched_internal st' = unmatched_internal st ++ labels ∧
            labels ⊆ rows.*1.
Proof.
  revert st. induction rows as [|[i row] rows IH]; intros st Hrows.
  - intros [= <-]. split_and!; [done..|]. exists []. by rewrite app_nil_r.
  - apply Forall_cons in Hrows as [Hrow Hrows]. simpl in Hrow.
    rewrite run_on_cons.
    destruct (step' st (i, row)) as [e|st1] eqn:Hstep; [done|]. simpl.
    intros (Hm & Hu & labels & Hun & Hl)%IH; [|done].
    apply (step_inr _ _ _ _ _ _ _ _ Hrow) in Hstep as
      [(j & b & _ & Hu1 & Hm1 & Hun1)|(_ & Hu1 & Hm1 & Hun1)].
    + rewrite Hm1 in Hm. rewrite Hu1 in Hu. rewrite Hun1 in Hun. split_and!.
      * etrans; [|exact Hm]. by apply prefix_app_r.
      * etrans; [apply union_subseteq_r | exact Hu].
      * exists labels. split; [done|]. intros x Hx. right. by apply Hl.
    + rewrite Hm1 in Hm. rewrite Hu1 in Hu. rewrite Hun1 in Hun. split_and!; [done..|].
      exists (i :: labels). split; [by rewrite Hun, <- app_assoc|].
      intros x [->|Hx]%elem_of_cons; [by left | right; by apply Hl].
Qed.

(** The run, cut at the row of label [i]. *)
Lemma run_on_cut (st : state) (i : nat) (row : Internal.row) :
  run_on' (iterrows internal_df) initial = inr st →
  internal_df !! i = Some row →
  ∃ st_i st_i',
    run_on' (take i (iterrows internal_df)) initial = inr st_i ∧
    step' st_i (i, row) = inr st_i' ∧
    run_on' (drop (S i) (iterrows internal_df)) st_i' = inr st.
Proof.
  intros Hrun Hrow.
  rewrite <- (take_drop_middle _ _ _ (iterrows_lookup _ _ _ Hrow)) in Hrun.
  rewrite run_on_app in Hrun.
  destruct (run_on' (take i (iterrows internal_df)) initial) as [e|st_i]; [done|].
  simpl in Hrun. rewrite run_on_cons in Hrun.
  destruct (step' st_i (i, row)) as [e|st_i'] eqn:Hstep; [done|].
  by exists st_i, st_i'.
Qed.

End run_order.

Lemma run_matched_iff_selectable internal_df bank_df date_tol_days sim_threshold
    (st : state) (i : nat) (row : Internal.row) :
  run_on internal_df bank_df date_tol_days sim_threshold (iterrows internal_df) initial
    = inr st →
  internal_df !! i = Some row →
  ∃ used,
    used_before internal_df bank_df date_tol_days sim_threshold i = inr used ∧
    ((∃ j b, selectable bank_df date_tol_days sim_threshold used row j b)
       ↔ i ∉ unmatched_internal st) ∧
    (i ∈ unmatched_internal st
       ↔ ∀ j b, ¬ selectable bank_df date_tol_days sim_threshold used row j b) ∧
    ((∃ j b, selectable bank_df date_tol_days sim_threshold used row j b) →
     ∃ j b, selectable bank_df date_tol_days sim_threshold used row j b ∧
            record_of row b ∈ matches st ∧ j ∈ bank_idx_used st).
Proof.
  intros Hrun Hrow.
  destruct (run_on_cut _ _ _ _ _ _ _ Hrun Hrow) as (st_i & st_i' & Hpre & Hstep & Hpost).
  exists (bank_idx_used st_i). unfold used_before. rewrite Hpre. split; [done|].
  (* labels below [i] before the row, above [i] after it *)
  assert (Hbefore : i ∉ unmatched_internal st_i).
  { intros Hi.
    apply (run_on_grows internal_df bank_df date_tol_days sim_threshold) in Hpre
      as (_ & _ & labels & Hun & Hl).
    - simpl in Hun. subst labels. apply Hl in Hi.
      apply list_elem_of_fmap in Hi as ([i' r] & -> & Hin). simpl in Hin.
      apply list_elem_of_lookup in Hin as [k Hk].
      apply lookup_take_Some in Hk as [Hk Hlt]. unfold iterrows in Hk.
      rewrite list_lookup_imap in Hk. destruct (internal_df !! k); [|done].
      simpl in Hk. injection Hk as <- <-. lia.
    - apply Forall_forall. intros [i' r] Hin.
      apply elem_of_take in Hin as (k & Hk & _). simpl. unfold iterrows in Hk.
      rewrite list_lookup_imap in Hk. destruct (internal_df !! k) eqn:E; [|done].
      simpl in Hk. by injection Hk as <- <-. }
  apply (run_on_grows internal_df bank_df date_tol_days sim_threshold) in Hpost
    as (Hm & Hu & labels & Hun & Hl).
  2:{ apply Forall_forall. intros [i' r] Hin.
      by apply iterrows_drop_label in Hin as [_ ?]. }
  assert (Hafter : i ∉ labels).
  { intros Hi. apply Hl in Hi. apply list_elem_of_fmap in Hi as ([i' r] & -> & Hin).
    apply iterrows_drop_label in Hin as [Hle _]. simpl in Hle. lia. }
  apply (step_inr _ _ _ _ _ _ _ _ Hrow) in Hstep as
    [(j & b & Hsel & Hu1 & Hm1 & Hun1)|(Hnone & Hu1 & Hm1 & Hun1)].
  - assert (Hnot : i ∉ unmatched_internal st).
    { rewrite Hun, Hun1. intros [?|?]%elem_of_app; done. }
    split_and!.
    + split; [done|]. intros _. by exists j, b.
    + split; [done|]. intros Hnone. exfalso. by apply (Hnone j b).
    + intros _. exists j, b. split_and!; [done| |].
      * eapply elem_of_prefix; [|exact Hm]. rewrite Hm1.
        apply elem_of_app. right. by apply list_elem_of_singleton.
      * apply Hu. rewrite Hu1. apply elem_of_union. left. by apply elem_of_singleton.
  - assert (Hin : i ∈ unmatched_internal st).
    { rewrite Hun, Hun1. apply elem_of_app. left. apply elem_of_app. right.
      by apply list_elem_of_singleton. }
    split_and!.
    + split; [|done]. intros (j & b & Hsel). exfalso. by apply (Hnone j b).
    + done.
    + intros (j & b & Hsel). exfalso. by apply (Hnone j b).
Qed.

(** C2, amended: when [reconcile] returns, the internal row at label [i] is
    matched exactly when, among the bank rows not used when the loop reaches
    it, one lies in the buckets [key - 1], [key], [key + 1], is within
    [date_tol_days], has a vendor similarity of at least [sim_threshold] and
    a strictly positive score; a record of the row with such a bank row is
    then among the matches, and the row is recorded unmatched exactly when
    there is no such bank row.  The score is the one that the floats of
    line 44 compute ([score]): a score that is positive in exact arithmetic
    and rounds to 0.0 does not select the row. *)
Theorem matched_iff_selectable internal_df bank_df date_tol_days amount_tol sim_threshold
    ms ui ub (i : nat) (row : Internal.row) :
  reconcile internal_df bank_df date_tol_days amount_tol sim_threshold = inr (ms, ui, ub) →
  internal_df !! i = Some row →
  ∃ st used,
    run_on internal_df bank_df date_tol_days sim_threshold (iterrows internal_df) initial
      = inr st ∧
    ms = matches st ∧
    loc internal_df (unmatched_internal st) = inr ui ∧
    used_before internal_df bank_df date_tol_days sim_threshold i = inr used ∧
    ((∃ j b, selectable bank_df date_tol_days sim_threshold used row j b)
       ↔ i ∉ unmatched_internal st) ∧
    (i ∈ unmatched_internal st
       ↔ ∀ j b, ¬ selectable bank_df date_tol_days sim_threshold used row j b) ∧
    ((∃ j b, selectable bank_df date_tol_days sim_threshold used row j b) →
     ∃ j b, selectable bank_df date_tol_days sim_threshold used row j b ∧
            record_of row b ∈ ms ∧ j ∈ bank_idx_used st).
Proof.
  intros (st & Hrun & -> & Hui & _)%reconcile_inr Hrow.
  destruct (run_matched_iff_selectable _ _ _ _ _ _ _ Hrun Hrow) as (used & Hused & H).
  by exists st, used.
Qed.

(** ** Where [reconcile] raises *)

Section raising.
Variables (internal_df : list Internal.row) (bank_df : list Bank.row).
Variables (date_tol_days : Z) (sim_threshold : Q).

Local Abbreviation run_on' := (run_on internal_df bank_df date_tol_days sim_threshold).
Local Abbreviation step' := (step date_tol_days sim_threshold (build_buckets bank_df) internal_df).

Lemma consider_inl used i row st jb e :
  consider date_tol_days sim_threshold used i row st jb = inl e →
  e = ZeroDivisionError ∧ minus_one row.
Proof.
  unfold consider. destruct st as [bs bm], jb as [j b].
  destruct (decide (j ∈ used)); [done|].
  destruct (Z.leb _ _); [|done].
  destruct (py_div _ _) as [e'|q] eqn:Hq; simpl.
  - intros [= <-]. apply py_div_inl in Hq as [Hz ->]. split; [done|].
    exact (proj1 (round_eq0 (Internal.Amount row + 1)) Hz).
  - by destruct (_ && _).
Qed.

Lemma for_each_consider_inl used i row l st e :
  for_each (consider date_tol_days sim_threshold used i row) l st = inl e →
  e = ZeroDivisionError ∧ minus_one row.
Proof.
  revert st. induction l as [|jb l IH]; intros st; simpl; [done|].
  destruct (consider _ _ _ _ _ st jb) as [e'|st1] eqn:Hc; simpl.
  - intros [= <-]. by apply consider_inl in Hc.
  - apply IH.
Qed.

Lemma step_inl st i row e :
  internal_df !! i = Some row →
  step' st (i, row) = inl e →
  e = ZeroDivisionError ∧ minus_one row.
Proof.
  intros Hrow. unfold step.
  destruct (scan _ _ _ _ _ _) as [e'|[bs bm]] eqn:Hscan; simpl.
  - intros [= <-]. rewrite scan_candidates in Hscan.
    by apply for_each_consider_inl in Hscan.
  - apply scan_ok in Hscan as [_ Hbm]. simpl in Hbm.
    destruct bm as [[[[[i' j] b] sim] amt]|]; [|done].
    destruct Hbm as (-> & _). by rewrite Hrow.
Qed.

Lemma run_on_inl rows st e :
  Forall (fun ir => internal_df !! ir.1 = Some ir.2) rows →
  run_on' rows st = inl e →
  e = ZeroDivisionError ∧ ∃ row, row ∈ internal_df ∧ minus_one row.
Proof.
  revert st. induction rows as [|[i row] rows IH]; intros st Hrows; [done|].
  apply Forall_cons in Hrows as [Hrow Hrows]. simpl in Hrow.
  rewrite run_on_cons.
  destruct (step' st (i, row)) as [e'|st1] eqn:Hstep; simpl.
  - intros [= <-]. apply (step_inl _ _ _ _ Hrow) in Hstep as [-> Hm].
    split; [done|]. exists row. split; [|done]. by apply list_elem_of_lookup_2 in Hrow.
  - by apply IH.
Qed.

End raising.

(** [reconcile] raises nothing but the division error of line 44, and only
    for an internal amount of minus one. *)
Lemma reconcile_inl internal_df bank_df date_tol_days amount_tol sim_threshold e :
  reconcile internal_df bank_df date_tol_days amount_tol sim_threshold = inl e →
  e = ZeroDivisionError ∧ ∃ row, row ∈ internal_df ∧ minus_one row.
Proof.
  destruct (run_on internal_df bank_df date_tol_days sim_threshold
              (iterrows internal_df) initial) as [e'|st] eqn:Hrun.
  - intros He. assert (e = e') as ->.
    { unfold reconcile in He. unfold run_on in Hrun. rewrite Hrun in He.
      by injection He. }
    apply run_on_inl in Hrun; [done|].
    apply Forall_forall. intros [i row] Hin. by apply elem_of_iterrows in Hin.
  - destruct (reconcile_returns _ _ _ amount_tol _ _ Hrun) as (ui & ub & ->). done.
Qed.

Lemma reconcile_total internal_df bank_df date_tol_days amount_tol sim_threshold :
  (∀ row, row ∈ internal_df → ¬ minus_one row) →
  ∃ ms ui ub,
    reconcile internal_df bank_df date_tol_days amount_tol sim_threshold = inr (ms, ui, ub).
Proof.
  intros Hno.
  destruct (reconcile internal_df bank_df date_tol_days amount_tol sim_threshold)
    as [e|[[ms ui] ub]] eqn:Hr.
  - apply reconcile_inl in Hr as (_ & row & Hin & Hm). by destruct (Hno row Hin).
  - by exists ms, ui, ub.
Qed.

(** C1: the claim is that the score of line 44 never raises a division
    error.  The code divides by [int_amt + 1], not by [abs(int_amt) + 1]:
    on a refund of one currency unit, present in both ledgers,
    [reconcile] raises [ZeroDivisionError]. *)
Theorem reconcile_refund_raises :
  reconcile refund_internal refund_bank 2 50 (3 # 4) = inl ZeroDivisionError.
Proof. by vm_compute. Qed.

(** C9: a missing vendor name normalizes to the empty string, and
    [similarity] of two empty strings is 1; so two rows with missing vendor
    names reach every [sim_threshold] up to 1. *)
Theorem similarity_of_missing_vendors (sim_threshold : Q) :
  (sim_threshold <= 1)%Q →
  normalize_text None = ""%string ∧
  similarity "" "" = 1%Q ∧
  Qle_bool sim_threshold (similarity (normalize_text None) (normalize_text None)) = true.
Proof.
  intros H. split_and!; [done..|]. by apply Qle_bool_iff.
Qed.

Lemma similarity_of_missing_vendors_witness :
  (3 # 4 <= 1)%Q ∧
  Qle_bool (3 # 4) (similarity (normalize_text None) (normalize_text None)) = true.
Proof.
  split; [by vm_compute|].
  apply (similarity_of_missing_vendors (3 # 4)). by vm_compute.
Defined.

(** C2 as stated fails: the bank row B1 is an unused candidate of the
    internal row T1, in the bucket [key + 1], on the same day, with a vendor
    similarity of 1; its score is negative, and T1 is left unmatched. *)
Lemma candidate_left_unmatched :
  ∃ row b,
    small_internal !! 0 = Some row ∧
    used_before small_internal small_bank 2 (3 # 4) 0 = inr ∅ ∧
    candidate small_bank 2 (3 # 4) ∅ row 0 b ∧
    reconcile small_internal small_bank 2 50 (3 # 4) = inr ([], small_internal, small_bank).
Proof.
  eexists _, _. split_and!; [done | done | | by vm_compute].
  split_and!; [done | right; right; by vm_compute |].
  unfold eligible. split_and!; [apply not_elem_of_empty | by vm_compute..].
Qed.

(** C7 as stated fails: a stop token is not removed but replaced by a
    space, which separates what stood on either side of it. *)
Lemma normalize_text_keeps_a_space :
  normalize_text (Some "A.B"%string) = "a b"%string ∧
  normalize_text_spec (Some "A.B"%string) = "ab"%string ∧
  normalize_text (Some "A.B"%string) ≠ normalize_text_spec (Some "A.B"%string).
Proof. split_and!; [done..|]. by vm_compute. Qed.

(** C7, amended: [normalize_text] is total; a missing input maps to the
    empty string; every other input maps to the words of its lowercased,
    trimmed form in which every occurrence of the stop tokens, taken in the
    order of the list as plain substrings, is replaced by a space; the words
    are joined by single spaces, so that the result is in lower case, has
    no whitespace other than single spaces between words, and contains no
    stop token. *)
Theorem normalize_text_replaces_by_space :
  normalize_text None = ""%string ∧
  ∀ s : string,
    let o := list_ascii_of_string (normalize_text (Some s)) in
    let ws := Str.split (replace_tokens stop_tokens
                           (Str.strip (Str.lower (list_ascii_of_string s)))) in
    o = Str.join (lit " ") ws ∧ Forall word ws ∧ Str.lower o = o ∧
    Forall (fun t => ¬ occurs t o) stop_tokens.
Proof.
  split; [done|]. intros s. simpl.
  rewrite list_ascii_of_string_of_list_ascii.
  destruct (normalize_str_normal (list_ascii_of_string s)) as [(ws & Hws & Hw) [Hlow Hno]].
  split_and!; [done| |done|by apply Forall_forall].
  apply split_words.
Qed.

Lemma reconcile_partition_sizes_witness :
  ∃ ms ui ub,
    reconcile sample_internal sample_bank 2 50 (3 # 4) = inr (ms, ui, ub) ∧
    length ms + length ui = 2 ∧ length ms + length ub = 2.
Proof.
  eexists _, _, _. split; [vm_compute; reflexivity|].
  apply (reconcile_partition_sizes sample_internal sample_bank 2 50 (3 # 4)).
  vm_compute; reflexivity.
Defined.

Lemma reconcile_at_most_one_match_witness :
  ∃ ms ui ub,
    reconcile sample_internal sample_bank 2 50 (3 # 4) = inr (ms, ui, ub) ∧
    ∃ pairs : list (nat * nat),
      Forall2 (fun p m => ∃ row b, sample_internal !! p.1 = Some row ∧
                                   sample_bank !! p.2 = Some b ∧ m = record_of row b)
              pairs ms ∧
      NoDup pairs.*1 ∧ NoDup pairs.*2 ∧
      (NoDup (Internal.Transaction_ID <$> sample_internal) → NoDup (Transaction_ID <$> ms)) ∧
      (NoDup (Bank.Bank_Ref <$> sample_bank) → NoDup (Bank_Ref <$> ms)).
Proof.
  eexists _, _, _. split; [vm_compute; reflexivity|].
  refine (reconcile_at_most_one_match sample_internal sample_bank 2 50 (3 # 4) _ _ _ _).
  vm_compute; reflexivity.
Defined.

Lemma reconcile_match_bounds_witness :
  ∃ ms ui ub m,
    reconcile sample_internal sample_bank 2 50 (3 # 4) = inr (ms, ui, ub) ∧
    m ∈ ms ∧
    (3 # 4 <= Vendor_similarity m)%Q ∧
    (Z.abs (Internal_Date m - Bank_Date m) ≤ 2)%Z ∧
    Amount_diff m = Qabs (Binary64.sub (Internal_Amount m) (Bank_Amount m)) ∧
    (Qabs (Amount_diff m - Qabs (Internal_Amount m - Bank_Amount m))
     <= Qabs (Internal_Amount m - Bank_Amount m) * (1 # 2 ^ 53))%Q ∧
    (0 <= Amount_diff m)%Q.
Proof.
  eexists _, _, _, _. split; [vm_compute; reflexivity|].
  split; [by left|].
  refine (reconcile_match_bounds sample_internal sample_bank 2 50 (3 # 4) _ _ _ _ _ _).
  - vm_compute; reflexivity.
  - by left.
Defined.

Lemma reconcile_score_floor_witness :
  ∃ ms ui ub m,
    reconcile [clean_internal "T1" 10 (11 # 100) (Some "Acme Supplies"%string)]
              [clean_bank "B1" 10 (381 # 100) (Some "Acme Supply"%string)]
              2 50 (3 # 4) = inr (ms, ui, ub) ∧
    m ∈ ms ∧ (0 < record_score m)%Q.
Proof.
  eexists _, _, _, _. split; [vm_compute; reflexivity|].
  split; [by left|].
  refine (reconcile_score_floor
            [clean_internal "T1" 10 (11 # 100) (Some "Acme Supplies"%string)]
            [clean_bank "B1" 10 (381 # 100) (Some "Acme Supply"%string)]
            2 50 (3 # 4) _ _ _ _ _ _).
  - vm_compute; reflexivity.
  - by left.
Defined.

Lemma matched_iff_selectable_witness :
  ∃ ms ui ub row b,
    let internal_df := [clean_internal "T1" 10 (11 # 100) (Some "Acme Supplies"%string);
                        clean_internal "T2" 10 (1 # 10) (Some "Acme"%string)] in
    let bank_df := [clean_bank "B1" 10 (381 # 100) (Some "Acme Supply"%string);
                    clean_bank "B2" 10 (45 # 10) (Some "Acme"%string)] in
    reconcile internal_df bank_df 2 50 (3 # 4) = inr (ms, ui, ub) ∧
    internal_df !! 0 = Some row ∧
    ∃ st,
      ms = matches st ∧
      used_before internal_df bank_df 2 (3 # 4) 0 = inr ∅ ∧
      selectable bank_df 2 (3 # 4) ∅ row 0 b ∧
      (0 ∉ unmatched_internal st) ∧
      ∃ j b', selectable bank_df 2 (3 # 4) ∅ row j b' ∧ record_of row b' ∈ ms.
Proof.
  eexists _, _, _, _, _. cbv zeta. split; [vm_compute; reflexivity|].
  split; [reflexivity|].
  destruct (matched_iff_selectable
              [clean_internal "T1" 10 (11 # 100) (Some "Acme Supplies"%string);
               clean_internal "T2" 10 (1 # 10) (Some "Acme"%string)]
              [clean_bank "B1" 10 (381 # 100) (Some "Acme Supply"%string);
               clean_bank "B2" 10 (45 # 10) (Some "Acme"%string)]
              2 50 (3 # 4) _ _ _ 0 _
              ltac:(vm_compute; reflexivity) ltac:(reflexivity))
    as (st & used & _ & Hms & _ & Hused & Hiff & _ & Hrec).
  assert (Hu : used = ∅) by (by injection Hused).
  rewrite Hu in Hiff, Hrec.
  assert (Hsel : selectable
                   [clean_bank "B1" 10 (381 # 100) (Some "Acme Supply"%string);
                    clean_bank "B2" 10 (45 # 10) (Some "Acme"%string)] 2 (3 # 4) ∅
                   (clean_internal "T1" 10 (11 # 100) (Some "Acme Supplies"%string)) 0
                   (clean_bank "B1" 10 (381 # 100) (Some "Acme Supply"%string))).
  { split; [split; [reflexivity|split; [right; left; by vm_compute|]]|by vm_compute].
    split; [apply not_elem_of_empty|]. split; by vm_compute. }
  exists st. split; [exact Hms|]. split; [reflexivity|]. split; [exact Hsel|].
  split; [apply Hiff; eexists _, _; exact Hsel|].
  destruct Hrec as (j & b' & Hs & Hm & _); [eexists _, _; exact Hsel|].
  by exists j, b'.
Defined.

(** ** Rounding and the bucket keys *)


(** X2: the bucket key does not decrease when the amount grows. *)
Theorem bucket_key_monotone (a b : Q) :
  (a <= b)%Q → (bucket_key a ≤ bucket_key b)%Z.
Proof.
  intros H. apply py_round_mono. unfold Qdiv. change (/ 10)%Q with (1 # 10)%Q. lra.
Qed.

Lemma bucket_key_monotone_witness :
  (25 <= 35)%Q ∧ (bucket_key 25 ≤ bucket_key 35)%Z.
Proof.
  split; [by vm_compute|]. apply (bucket_key_monotone 25 35). by vm_compute.
Defined.








(** ** Runs in which nothing is selected *)

Lemma iterrows_labels {A : Type} (df : list A) : (iterrows df).*1 = seq 0 (length df).
Proof.
  unfold iterrows. rewrite fmap_imap.
  rewrite (imap_ext _ (fun j _ => j)) by done.
  rewrite (imap_seq_0 df (fun j => j)). by rewrite list_fmap_id.
Qed.

Lemma loc_cons {A : Type} (df : list A) (i : nat) (labels : list nat) :
  loc df (i :: labels)
  = match df !! i with
    | Some r => rows ← loc df labels; mret (r :: rows)
    | None => inl KeyError
    end.
Proof. unfold loc. simpl. by destruct (df !! i). Qed.

Lemma loc_suffix {A : Type} (pre df : list A) :
  loc (pre ++ df) (seq (length pre) (length df)) = inr df.
Proof.
  revert pre. induction df as [|x df IH]; intros pre; [done|].
  change (seq (length pre) (length (x :: df)))
    with (length pre :: seq (S (length pre)) (length df)).
  rewrite loc_cons, list_lookup_middle by done.
  specialize (IH (pre ++ [x])). rewrite length_app, <- app_assoc in IH. simpl in IH.
  rewrite Nat.add_1_r in IH. by rewrite IH.
Qed.

Lemma loc_all {A : Type} (df : list A) : loc df (seq 0 (length df)) = inr df.
Proof. apply (loc_suffix []). Qed.

Section nothing_selected.
Variables (internal_df : list Internal.row) (bank_df : list Bank.row).
Variables (date_tol_days : Z) (sim_threshold : Q).
Hypothesis scan_finds_nothing : ∀ used i row,
  scan date_tol_days sim_threshold (build_buckets bank_df) used i row = inr (0%Q, None).

Lemma run_all_unmatched (rows : list (nat * Internal.row)) (st : state) :
  run_on internal_df bank_df date_tol_days sim_threshold rows st
  = inr {| bank_idx_used := bank_idx_used st; matches := matches st;
           unmatched_internal := unmatched_internal st ++ rows.*1 |}.
Proof.
  revert st. induction rows as [|[i row] rows IH]; intros st.
  { simpl. rewrite app_nil_r. by destruct st. }
  rewrite run_on_cons. unfold step. rewrite scan_finds_nothing. simpl.
  rewrite IH. simpl. by rewrite <- app_assoc.
Qed.

Lemma reconcile_all_unmatched (amount_tol : Q) :
  reconcile internal_df bank_df date_tol_days amount_tol sim_threshold
  = inr ([], internal_df, bank_df).
Proof.
  pose proof (run_all_unmatched (iterrows internal_df) initial) as Hrun.
  unfold run_on in Hrun. unfold reconcile. rewrite Hrun. simpl.
  rewrite iterrows_labels, loc_all. simpl.
  rewrite filter_all by (intros; apply not_elem_of_empty).
  by rewrite loc_all.
Qed.

End nothing_selected.

(** X6: with no bank row nothing is matched and every internal row is
    returned unmatched; with no internal row nothing is matched and every
    bank row is returned unmatched.  Neither raises. *)
Theorem reconcile_empty_ledger internal_df bank_df date_tol_days amount_tol sim_threshold :
  reconcile internal_df [] date_tol_days amount_tol sim_threshold
    = inr ([], internal_df, []) ∧
  reconcile [] bank_df date_tol_days amount_tol sim_threshold
    = inr ([], [], bank_df).
Proof.
  split.
  - apply reconcile_all_unmatched. intros used i row. by rewrite scan_candidates.
  - unfold reconcile. simpl.
    rewrite filter_all by (intros; apply not_elem_of_empty).
    by rewrite loc_all.
Qed.

Lemma consider_out_of_date date_tol_days sim_threshold used i row st jb :
  (date_tol_days < 0)%Z →
  consider date_tol_days sim_threshold used i row st jb = inr st.
Proof.
  intros Hneg. destruct st as [bs bm], jb as [j b]. unfold consider.
  destruct (decide (j ∈ used)); [done|].
  by destruct (Z.leb_spec (Z.abs (Internal.Date row - Bank.Date b)) date_tol_days); [lia|].
Qed.

Lemma for_each_consider_out_of_date date_tol_days sim_threshold used i row l st :
  (date_tol_days < 0)%Z →
  for_each (consider date_tol_days sim_threshold used i row) l st = inr st.
Proof.
  intros Hneg. induction l as [|jb l IH]; [done|].
  simpl. by rewrite consider_out_of_date.
Qed.

(** X7: with a negative [date_tol_days] the test of line 41 fails for
    every pair: [reconcile] returns no match and both ledgers whole, and it
    never reaches the division of line 44. *)
Theorem reconcile_negative_date_tolerance internal_df bank_df date_tol_days amount_tol
    sim_threshold :
  (date_tol_days < 0)%Z →
  reconcile internal_df bank_df date_tol_days amount_tol sim_threshold
  = inr ([], internal_df, bank_df).
Proof.
  intros Hneg. apply reconcile_all_unmatched. intros used i row.
  rewrite scan_candidates. by apply for_each_consider_out_of_date.
Qed.

Lemma reconcile_negative_date_tolerance_witness :
  (-1 < 0)%Z ∧
  reconcile refund_internal refund_bank (-1) 50 (3 # 4)
  = inr ([], refund_internal, refund_bank).
Proof.
  split; [done|]. by apply (reconcile_negative_date_tolerance refund_internal refund_bank).
Defined.

(** ** The order of the outputs *)

Lemma filter_ext_elem {A : Type} (P Q : A → Prop) `{∀ x, Decision (P x)}
    `{∀ x, Decision (Q x)} (l : list A) :
  (∀ x, x ∈ l → (P x ↔ Q x)) → filter P l = filter Q l.
Proof.
  induction l as [|x l IH]; intros HPQ; [done|].
  rewrite !filter_cons. rewrite IH by (intros y Hy; apply HPQ; by right).
  destruct (decide (P x)) as [HP|HP], (decide (Q x)) as [HQ|HQ]; try done.
  - destruct HQ. apply HPQ; [by left | done].
  - destruct HP. apply HPQ; [by left | done].
Qed.

(** Rows read at increasing labels keep the order of the data frame. *)
Lemma lookups_sublist {A B : Type} (g : A → B) (df pre : list A)
    (labels : list nat) (ys : list B) :
  labels `sublist_of` seq (length pre) (length df) →
  Forall2 (fun i y => ∃ r, (pre ++ df) !! i = Some r ∧ y = g r) labels ys →
  ys `sublist_of` (g <$> df).
Proof.
  revert pre labels ys. induction df as [|x df IH]; intros pre labels ys Hsub Hys.
  { apply sublist_nil_r in Hsub as ->. apply Forall2_nil_inv_l in Hys as ->. done. }
  simpl in Hsub. apply sublist_cons_r in Hsub as [Hsub|(labels' & -> & Hsub)].
  - simpl. apply sublist_cons. apply (IH (pre ++ [x]) labels ys).
    + rewrite length_app. simpl. by rewrite Nat.add_1_r.
    + by rewrite <- app_assoc.
  - apply Forall2_cons_inv_l in Hys as (y & ys' & (r & Hr & ->) & Hys & ->).
    rewrite list_lookup_middle in Hr by done. injection Hr as <-.
    simpl. apply sublist_skip. apply (IH (pre ++ [x]) labels' ys').
    + rewrite length_app. simpl. by rewrite Nat.add_1_r.
    + by rewrite <- app_assoc.
Qed.

(** Rows read at a rearrangement of all the labels are a rearrangement of
    the data frame. *)
Lemma lookups_Permutation {A B : Type} (g : A → B) (d : B) (df : list A)
    (labels : list nat) (ys : list B) :
  labels ≡ₚ seq 0 (length df) →
  Forall2 (fun i y => ∃ r, df !! i = Some r ∧ y = g r) labels ys →
  ys ≡ₚ g <$> df.
Proof.
  intros Hperm Hys.
  set (h := fun i => default d (g <$> df !! i)).
  assert (ys = h <$> labels) as ->.
  { clear Hperm. induction Hys as [|i y labels ys (r & Hr & ->) _ IH]; [done|].
    simpl. unfold h at 1. rewrite Hr. simpl. by rewrite IH. }
  assert (g <$> df = h <$> seq 0 (length df)) as ->; [|by rewrite Hperm].
  apply list_eq. intros i. rewrite !list_lookup_fmap.
  destruct (df !! i) as [r|] eqn:Hr; simpl.
  - rewrite lookup_seq_lt by (by apply lookup_lt_Some in Hr). simpl.
    unfold h. by rewrite Hr.
  - rewrite lookup_seq_ge by (by apply lookup_ge_None in Hr). done.
Qed.

Lemma complement_Permutation (P : nat → Prop) `{∀ x, Decision (P x)} (l s : list nat) :
  NoDup l → NoDup s → (∀ x, x ∈ l → x ∈ s) → (∀ x, P x ↔ x ∉ l) →
  l ++ filter P s ≡ₚ s.
Proof.
  intros Hl Hs Hin HP. apply NoDup_Permutation; [|done|].
  - apply NoDup_app. split_and!; [done| |by apply NoDup_filter].
    intros x Hx [HPx _]%list_elem_of_filter. by apply HP in HPx.
  - intros x. rewrite elem_of_app, list_elem_of_filter, HP. split.
    + intros [Hx|[_ Hx]]; [by apply Hin | done].
    + intros Hx. destruct (decide (x ∈ l)); [by left | by right].
Qed.

Section ordered_run.
Variables (internal_df : list Internal.row) (bank_df : list Bank.row).
Variables (date_tol_days : Z) (sim_threshold : Q).

Local Abbreviation run_on' := (run_on internal_df bank_df date_tol_days sim_threshold).
Local Abbreviation step' := (step date_tol_days sim_threshold (build_buckets bank_df) internal_df).
Local Abbreviation run_ordered' := (run_ordered internal_df bank_df date_tol_days sim_threshold).

(** Whatever one turn of the loop keeps, the run keeps. *)
Lemma run_invariant (I : nat → state → Prop) (st : state) :
  I 0 initial →
  (∀ n row st st', internal_df !! n = Some row → I n st →
                   step' st (n, row) = inr st' → I (S n) st') →
  run_on' (iterrows internal_df) initial = inr st →
  I (length internal_df) st.
Proof.
  intros Hinit Hstep.
  assert (Hrows : ∀ rows pre st0 st1,
    iterrows internal_df = pre ++ rows → I (length pre) st0 →
    run_on' rows st0 = inr st1 → I (length internal_df) st1).
  { induction rows as [|[i row] rows IH]; intros pre st0 st1 Hsplit Hinv.
    - intros [= <-]. rewrite app_nil_r in Hsplit.
      assert (length internal_df = length pre) as ->; [|done].
      subst pre. unfold iterrows. by rewrite length_imap.
    - rewrite run_on_cons.
      destruct (step' st0 (i, row)) as [e|st2] eqn:Hs; [done|].
      intros Hrest. destruct (iterrows_split_lookup _ _ _ _ _ Hsplit) as [-> Hrow].
      apply (IH (pre ++ [(length pre, row)]) st2 st1).
      + by rewrite <- app_assoc.
      + rewrite length_app. simpl. rewrite Nat.add_1_r. by apply (Hstep _ row st0).
      + done. }
  by apply (Hrows _ []).
Qed.

Lemma run_ordered_final (st : state) :
  run_on' (iterrows internal_df) initial = inr st →
  run_ordered' (length internal_df) st.
Proof.
  apply (run_invariant run_ordered').
  - exists []. simpl. split_and!; [constructor|done|done|constructor|].
    intros j. split; [intros []%not_elem_of_empty | intros []%elem_of_nil].
  - intros n row st0 st1 Hrow (pairs & Hp & Hsub & Hun & Hnd & Hused) Hstep.
    assert (Hfresh : n ∉ pairs.*1).
    { intros Hn. apply (elem_of_sublist _ _ _ Hn), elem_of_seq in Hsub. lia. }
    unfold run_ordered. rewrite seq_S. simpl.
    apply (step_inr _ _ _ _ _ _ _ _ Hrow) in Hstep as
      [(j & b & [(Hb & Hw & Hj & Hd & Hs) Hpos] & Hu1 & Hm1 & Hun1)
      |(Hnone & Hu1 & Hm1 & Hun1)].
    + exists (pairs ++ [(n, j)]). rewrite Hu1, Hm1, Hun1, !fmap_app. simpl.
      split_and!.
      * apply Forall2_app; [done|]. constructor; [|constructor].
        exists row, b. simpl. split_and!; done.
      * by apply sublist_app.
      * rewrite filter_app, filter_cons_False, filter_nil, app_nil_r.
        2:{ intros Hn. apply Hn, elem_of_app. right. by apply list_elem_of_singleton. }
        rewrite Hun. apply filter_ext_elem. intros x Hx%elem_of_seq.
        rewrite elem_of_app, list_elem_of_singleton. split; [|tauto].
        intros Hx' [?|Hn]; [done|lia].
      * apply NoDup_app. split_and!; [done| |apply NoDup_singleton].
        intros j' Hj' Hn%list_elem_of_singleton. subst j'. by apply Hj, Hused.
      * intros j'. rewrite elem_of_union, elem_of_singleton, elem_of_app,
          list_elem_of_singleton, Hused. tauto.
    + exists pairs. rewrite Hu1, Hm1, Hun1. split_and!; try done.
      * by apply sublist_inserts_r.
      * rewrite filter_app, filter_cons_True, filter_nil by done. by rewrite Hun.
Qed.

End ordered_run.

Lemma paired_columns internal_df bank_df date_tol_days sim_threshold pairs ms :
  Forall2 (paired internal_df bank_df date_tol_days sim_threshold) pairs ms →
  Forall2 (fun i y => ∃ r, internal_df !! i = Some r ∧ y = internal_columns r)
          pairs.*1 (record_internal_columns <$> ms) ∧
  Forall2 (fun j y => ∃ r, bank_df !! j = Some r ∧ y = bank_columns r)
          pairs.*2 (record_bank_columns <$> ms).
Proof.
  induction 1 as [|p m pairs ms (row & b & Hrow & Hb & _ & -> & _) _ [IH1 IH2]].
  { split; constructor. }
  split; simpl; (constructor; [|done]).
  - by exists row.
  - by exists b.
Qed.

Lemma loc_columns {A B : Type} (g : A → B) (df : list A) (labels : list nat) (rows : list A) :
  loc df labels = inr rows →
  Forall2 (fun i y => ∃ r, df !! i = Some r ∧ y = g r) labels (g <$> rows).
Proof.
  intros H%loc_inr. induction H as [|i r labels rows Hr _ IH]; simpl; constructor; [|done].
  by exists r.
Qed.

(** X8: the unmatched internal rows, the unmatched bank rows and the
    internal side of the matches come out in the order of the ledgers. *)
Theorem reconcile_keeps_order internal_df bank_df date_tol_days amount_tol sim_threshold
    ms ui ub :
  reconcile internal_df bank_df date_tol_days amount_tol sim_threshold = inr (ms, ui, ub) →
  ui `sublist_of` internal_df ∧
  ub `sublist_of` bank_df ∧
  (record_internal_columns <$> ms) `sublist_of` (internal_columns <$> internal_df).
Proof.
  intros (st & Hrun & -> & Hui & Hub)%reconcile_inr.
  apply run_ordered_final in Hrun as (pairs & Hp & Hsub & Hun & _).
  split_and!.
  - rewrite <- (list_fmap_id ui), <- (list_fmap_id internal_df).
    apply (lookups_sublist id internal_df [] (unmatched_internal st)).
    + rewrite Hun. apply sublist_filter.
    + by apply loc_columns.
  - rewrite <- (list_fmap_id ub), <- (list_fmap_id bank_df).
    apply (lookups_sublist id bank_df []
             (filter (fun i => i ∉ bank_idx_used st) (seq 0 (length bank_df)))).
    + apply sublist_filter.
    + by apply loc_columns.
  - apply (lookups_sublist internal_columns internal_df [] pairs.*1); [done|].
    by apply paired_columns in Hp as [? _].
Qed.

(** X9: the rows of each ledger are the rows of the matches and the
    unmatched rows that [reconcile] returns, each one once. *)
Theorem reconcile_partitions_rows internal_df bank_df date_tol_days amount_tol sim_threshold
    ms ui ub :
  reconcile internal_df bank_df date_tol_days amount_tol sim_threshold = inr (ms, ui, ub) →
  (record_internal_columns <$> ms) ++ (internal_columns <$> ui)
    ≡ₚ internal_columns <$> internal_df ∧
  (record_bank_columns <$> ms) ++ (bank_columns <$> ub)
    ≡ₚ bank_columns <$> bank_df.
Proof.
  intros (st & Hrun & -> & Hui & Hub)%reconcile_inr.
  apply run_ordered_final in Hrun as (pairs & Hp & Hsub & Hun & Hnd & Hused).
  pose proof (paired_columns _ _ _ _ _ _ Hp) as [Hc1 Hc2].
  split.
  - apply (lookups_Permutation internal_columns (""%string, 0%Z, 0%Q, None) internal_df
             (pairs.*1 ++ unmatched_internal st)).
    + rewrite Hun. apply complement_Permutation; [| apply NoDup_seq | | done].
      * apply (sublist_NoDup _ (seq 0 (length internal_df))); [apply NoDup_seq | done].
      * intros x Hx. by apply (elem_of_sublist _ _ _ Hx).
    + apply Forall2_app; [done|]. by apply loc_columns.
  - apply (lookups_Permutation bank_columns (""%string, 0%Z, 0%Q, None) bank_df
             (pairs.*2 ++ filter (fun i => i ∉ bank_idx_used st) (seq 0 (length bank_df)))).
    + apply complement_Permutation; [done | apply NoDup_seq | |].
      * intros j Hj. apply list_elem_of_fmap in Hj as ([i j'] & -> & Hin).
        apply list_elem_of_lookup in Hin as [k Hk].
        destruct (Forall2_lookup_l _ _ _ _ _ Hp Hk) as (m & _ & row & b & _ & Hb & _).
        simpl in *. apply elem_of_seq. apply lookup_lt_Some in Hb. lia.
      * intros j. by rewrite Hused.
    + apply Forall2_app; [done|]. by apply loc_columns.
Qed.

(** ** The candidate that is selected *)

Section first_best.
Variables (date_tol_days : Z) (sim_threshold : Q).
Variables (used : gset nat) (i : nat) (row : Internal.row).

Local Abbreviation consider' := (consider date_tol_days sim_threshold used i row).
Local Abbreviation best_ok' := (best_ok date_tol_days sim_threshold used i row).
Local Abbreviation best_first' := (best_first date_tol_days sim_threshold used row).

Lemma for_each_consider_first (l seen : bucket) (st st' : Q * option best_tuple) :
  best_ok' seen st → best_first' seen st →
  for_each consider' l st = inr st' →
  best_first' (seen ++ l) st'.
Proof.
  revert seen st. induction l as [|[j b] l IH]; intros seen st Hok Hfirst; simpl.
  { intros [= <-]. by rewrite app_nil_r. }
  destruct (consider' st (j, b)) as [e|[bs1 bm1]] eqn:Hc; simpl; [done|].
  intros Hrest. replace (seen ++ (j, b) :: l) with ((seen ++ [(j, b)]) ++ l)
    by (by rewrite <- app_assoc).
  assert (Hok1 : best_ok' (seen ++ [(j, b)]) (bs1, bm1)).
  { apply (for_each_consider_ok _ _ _ _ _ [(j, b)] seen st); [done|].
    simpl. by rewrite Hc. }
  apply (IH _ (bs1, bm1)); [done| |done]. clear IH Hrest Hok1.
  destruct st as [bs bm]. destruct Hok as [Hmax _]. simpl in Hmax.
  apply consider_inr in Hc as [(Hel & Hlt & -> & ->)|(Hno & -> & ->)].
  - exists seen, []. split; [done|]. intros j' b' Hin Hel'.
    apply Qle_lt_trans with bs; [by apply (Hmax j') | done].
  - unfold best_first in *. simpl in *.
    destruct bm as [[[[[i' j'] b'] sim] amt]|]; [|done].
    destruct Hfirst as (l1 & l2 & -> & Hl1).
    exists l1, (l2 ++ [(j, b)]). split; [|done]. by rewrite <- app_assoc.
Qed.

Lemma scan_first (bank_by_amount : gmap Z bucket) (st : Q * option best_tuple) :
  scan date_tol_days sim_threshold bank_by_amount used i row = inr st →
  best_first' (candidates bank_by_amount row) st.
Proof.
  rewrite scan_candidates. intros H.
  apply (for_each_consider_first _ [] (0%Q, None)) in H; [done| |done].
  split; simpl; [|done]. intros j b Hin. by apply elem_of_nil in Hin.
Qed.

End first_best.

Section best_candidate.
Variables (internal_df : list Internal.row) (bank_df : list Bank.row).
Variables (date_tol_days : Z) (sim_threshold : Q).

Local Abbreviation step' := (step date_tol_days sim_threshold (build_buckets bank_df) internal_df).
Local Abbreviation selectable' := (selectable bank_df date_tol_days sim_threshold).

(** The turn of the loop that matches [row] takes a candidate of the
    highest score, the first one in the search order. *)
Lemma step_best (st st' : state) (i : nat) (row : Internal.row) (j : nat) (b : Bank.row) :
  internal_df !! i = Some row →
  step' st (i, row) = inr st' →
  selectable' (bank_idx_used st) row j b →
  ∃ j1 b1 l1 l2,
    selectable' (bank_idx_used st) row j1 b1 ∧
    matches st' = matches st ++ [record_of row b1] ∧
    candidates (build_buckets bank_df) row = l1 ++ (j1, b1) :: l2 ∧
    (∀ j' b', selectable' (bank_idx_used st) row j' b' →
              (score row b' <= score row b1)%Q) ∧
    (∀ j' b', (j', b') ∈ l1 → selectable' (bank_idx_used st) row j' b' →
              (score row b' < score row b1)%Q).
Proof.
  intros Hrow Hstep Hsel. unfold step in Hstep.
  destruct (scan _ _ _ _ _ _) as [e|[bs bm]] eqn:Hscan; simpl in Hstep; [done|].
  pose proof (scan_first _ _ _ _ _ _ _ Hscan) as Hfirst.
  apply scan_ok in Hscan as [Hmax Hbm]. simpl in Hmax, Hbm.
  unfold best_first in Hfirst. simpl in Hfirst.
  destruct bm as [[[[[i' j1] b1] sim] amt]|].
  - destruct Hbm as (-> & [Hb Hw]%elem_of_candidates & Hel & -> & -> & -> & Hpos).
    destruct Hfirst as (l1 & l2 & Hcands & Hl1).
    rewrite Hrow in Hstep. simpl in Hstep. injection Hstep as <-.
    exists j1, b1, l1, l2. simpl. split_and!.
    + by split.
    + reflexivity.
    + exact Hcands.
    + intros j' b' [(Hb' & Hw' & Hel') _]. apply (Hmax j'); [|done].
      by apply elem_of_candidates.
    + intros j' b' Hin [(_ & _ & Hel') _]. by apply (Hl1 j').
  - exfalso. destruct Hsel as [(Hb & Hw & Hel) Hpos].
    assert (Hin : (j, b) ∈ candidates (build_buckets bank_df) row)
      by (by apply elem_of_candidates).
    specialize (Hmax _ _ Hin Hel). subst bs. by apply (Qlt_not_le _ _ Hpos).
Qed.

End best_candidate.

(** X10: when an internal row has a selectable candidate, the record
    of [reconcile] for it pairs it with a selectable candidate of the
    highest score, and among those the first one in the order of the scan
    (bucket [key - 1], [key], [key + 1], each in ledger order). *)
Theorem reconcile_selects_best internal_df bank_df date_tol_days amount_tol sim_threshold
    ms ui ub (i : nat) (row : Internal.row) (used : gset nat) (j : nat) (b : Bank.row) :
  reconcile internal_df bank_df date_tol_days amount_tol sim_threshold = inr (ms, ui, ub) →
  internal_df !! i = Some row →
  used_before internal_df bank_df date_tol_days sim_threshold i = inr used →
  selectable bank_df date_tol_days sim_threshold used row j b →
  ∃ j1 b1 l1 l2,
    selectable bank_df date_tol_days sim_threshold used row j1 b1 ∧
    record_of row b1 ∈ ms ∧
    candidates (build_buckets bank_df) row = l1 ++ (j1, b1) :: l2 ∧
    (∀ j' b', selectable bank_df date_tol_days sim_threshold used row j' b' →
              (score row b' <= score row b1)%Q) ∧
    (∀ j' b', (j', b') ∈ l1 →
              selectable bank_df date_tol_days sim_threshold used row j' b' →
              (score row b' < score row b1)%Q).
Proof.
  intros (st & Hrun & -> & _)%reconcile_inr Hrow Hused Hsel.
  destruct (run_on_cut _ _ _ _ _ _ _ Hrun Hrow) as (st_i & st_i' & Hpre & Hstep & Hpost).
  unfold used_before in Hused. rewrite Hpre in Hused. simpl in Hused.
  injection Hused as <-.
  destruct (step_best _ _ _ _ _ _ _ _ j b Hrow Hstep Hsel)
    as (j1 & b1 & l1 & l2 & Hsel1 & Hm & Hc & Hmax & Hfirst).
  exists j1, b1, l1, l2. split_and!; try done.
  apply (run_on_grows internal_df bank_df date_tol_days sim_threshold) in Hpost
    as (Hpre' & _).
  - eapply elem_of_prefix; [|exact Hpre']. rewrite Hm.
    apply elem_of_app. right. by apply list_elem_of_singleton.
  - apply Forall_forall. intros [i' r] Hin.
    by apply iterrows_drop_label in Hin as [_ ?].
Qed.

(** The search order: the rows of bucket [key - 1] in the order of the
    bank data frame, then those of [key], then those of [key + 1]. *)
Lemma candidates_order (bank_df : list Bank.row) (row : Internal.row) :
  let key := bucket_key (Internal.Amount row) in
  let of_key k := filter (fun jb : nat * Bank.row => bucket_key (Bank.Amount jb.2) = k)
                         (iterrows bank_df) in
  candidates (build_buckets bank_df) row
  = of_key (key - 1)%Z ++ of_key key ++ of_key (key + 1)%Z.
Proof.
  unfold candidates. simpl. by rewrite !build_buckets_lookup, app_nil_r.
Qed.

(** X5: the bucket of key [k] that lines 25-28 build holds the bank
    rows whose amount has the key [k], with their labels, in the order of
    the bank ledger, and no bucket is stored empty. *)
Theorem buckets_partition_bank (bank_df : list Bank.row) (k : Z) :
  let bucket_k := default [] (build_buckets bank_df !! k) in
  (∀ j b, (j, b) ∈ bucket_k ↔ bank_df !! j = Some b ∧ bucket_key (Bank.Amount b) = k) ∧
  bucket_k `sublist_of` iterrows bank_df ∧
  build_buckets bank_df !! k ≠ Some [].
Proof.
  simpl. rewrite build_buckets_lookup. split_and!.
  - intros j b. rewrite list_elem_of_filter, elem_of_iterrows. simpl. tauto.
  - apply sublist_filter.
  - unfold build_buckets.
    induction bank_df as [|b bank_df IH] using rev_ind; [done|].
    rewrite iterrows_snoc, foldl_app. simpl.
    destruct (decide (bucket_key (Bank.Amount b) = k)) as [Hk|Hne].
    + rewrite Hk, lookup_insert_eq. intros [= H]. by apply app_eq_nil in H as [_ ?].
    + by rewrite lookup_insert_ne.
Qed.


(** ** Exactly when [reconcile] raises *)

Section raising_candidate.
Variables (date_tol_days : Z) (sim_threshold : Q).
Variables (used : gset nat) (i : nat) (row : Internal.row).

Local Abbreviation consider' := (consider date_tol_days sim_threshold used i row).

Local Abbreviation raising' := (raising date_tol_days used row).

Lemma consider_raises st j b :
  raising' j b → consider' st (j, b) = inl ZeroDivisionError.
Proof.
  intros (Hj & Hd & Hm). destruct st as [bs bm]. unfold consider.
  destruct (decide (j ∈ used)); [done|].
  destruct (Z.leb_spec (Z.abs (Internal.Date row - Bank.Date b)) date_tol_days); [|lia].
  unfold py_div, Binary64.add. by rewrite (round_zero _ Hm).
Qed.

Lemma consider_inl_raising st j b e :
  consider' st (j, b) = inl e → raising' j b.
Proof.
  intros H. pose proof (consider_inl _ _ _ _ _ _ _ _ H) as [_ Hm]. revert H.
  destruct st as [bs bm]. unfold consider.
  destruct (decide (j ∈ used)); [done|].
  destruct (Z.leb_spec (Z.abs (Internal.Date row - Bank.Date b)) date_tol_days); [|done].
  done.
Qed.

Lemma for_each_consider_raises l st j b :
  (j, b) ∈ l → raising' j b → for_each consider' l st = inl ZeroDivisionError.
Proof.
  intros Hin Hr. revert st. induction l as [|c l IH]; intros st.
  { by apply elem_of_nil in Hin. }
  simpl. destruct (consider' st c) as [e|st1] eqn:Hc; simpl.
  - by apply consider_inl in Hc as [-> _].
  - apply elem_of_cons in Hin as [<-|Hin]; [|by apply IH].
    by rewrite consider_raises in Hc.
Qed.

Lemma for_each_consider_inl_raising l st e :
  for_each consider' l st = inl e → ∃ j b, (j, b) ∈ l ∧ raising' j b.
Proof.
  revert st. induction l as [|[j b] l IH]; intros st; simpl; [done|].
  destruct (consider' st (j, b)) as [e'|st1] eqn:Hc; simpl.
  - intros _. exists j, b. split; [by left|]. by apply consider_inl_raising in Hc.
  - intros (j' & b' & Hin & Hr)%IH. exists j', b'. split; [by right | done].
Qed.

End raising_candidate.

Section raising_run.
Variables (internal_df : list Internal.row) (bank_df : list Bank.row).
Variables (date_tol_days : Z) (sim_threshold : Q).

Local Abbreviation run_on' := (run_on internal_df bank_df date_tol_days sim_threshold).
Local Abbreviation step' := (step date_tol_days sim_threshold (build_buckets bank_df) internal_df).
Local Abbreviation divides_by_zero' := (divides_by_zero bank_df date_tol_days).

Lemma step_raises_iff (st : state) (i : nat) (row : Internal.row) :
  internal_df !! i = Some row →
  step' st (i, row) = inl ZeroDivisionError
  ↔ ∃ j b, divides_by_zero' (bank_idx_used st) row j b.
Proof.
  intros Hrow. split.
  - intros Hstep. unfold step in Hstep.
    destruct (scan _ _ _ _ _ _) as [e|[bs bm]] eqn:Hscan; simpl in Hstep.
    + rewrite scan_candidates in Hscan.
      apply for_each_consider_inl_raising in Hscan
        as (j & b & [Hb Hw]%elem_of_candidates & Hr).
      by exists j, b.
    + apply scan_ok in Hscan as [_ Hbm]. simpl in Hbm.
      destruct bm as [[[[[i' j] b] sim] amt]|]; [|done].
      destruct Hbm as (-> & _). by rewrite Hrow in Hstep.
  - intros (j & b & Hb & Hw & Hr). unfold step. rewrite scan_candidates.
    rewrite (for_each_consider_raises _ _ _ _ _ _ _ j b); [done| |done].
    by apply elem_of_candidates.
Qed.

Lemma run_on_raises (rows pre : list (nat * Internal.row)) (st : state) (e : exn) :
  iterrows internal_df = pre ++ rows →
  run_on' pre initial = inr st →
  run_on' rows st = inl e →
  ∃ i row used j b,
    internal_df !! i = Some row ∧
    used_before internal_df bank_df date_tol_days sim_threshold i = inr used ∧
    divides_by_zero' used row j b.
Proof.
  revert pre st. induction rows as [|[i row] rows IH]; intros pre st Hsplit Hpre; [done|].
  destruct (iterrows_split_lookup _ _ _ _ _ Hsplit) as [-> Hrow].
  rewrite run_on_cons.
  destruct (step' st (length pre, row)) as [e'|st1] eqn:Hstep; simpl.
  - intros _.
    pose proof (step_inl _ _ _ _ _ _ _ _ Hrow Hstep) as [-> _].
    apply (step_raises_iff _ _ _ Hrow) in Hstep as (j & b & Hz).
    exists (length pre), row, (bank_idx_used st), j, b. split_and!; [done| |done].
    unfold used_before. rewrite Hsplit, take_app_length. fold run_on'. by rewrite Hpre.
  - apply (IH (pre ++ [(length pre, row)])).
    + by rewrite <- app_assoc.
    + rewrite run_on_app. fold run_on'. rewrite Hpre. simpl.
      rewrite run_on_cons, Hstep. done.
Qed.

End raising_run.

(** X11: [reconcile] raises a division error exactly when an internal
    row of amount -1 has, in its three buckets, a bank row that is not used
    when the row is reached and lies within the date tolerance. *)
Theorem reconcile_raises_iff internal_df bank_df date_tol_days amount_tol sim_threshold :
  reconcile internal_df bank_df date_tol_days amount_tol sim_threshold
    = inl ZeroDivisionError
  ↔ ∃ i row used j b,
      internal_df !! i = Some row ∧
      used_before internal_df bank_df date_tol_days sim_threshold i = inr used ∧
      divides_by_zero bank_df date_tol_days used row j b.
Proof.
  split.
  - intros Hr.
    destruct (run_on internal_df bank_df date_tol_days sim_threshold
                (iterrows internal_df) initial) as [e|st] eqn:Hrun.
    + by apply (run_on_raises _ _ _ _ _ [] initial e) in Hrun.
    + destruct (reconcile_returns _ _ _ amount_tol _ _ Hrun) as (ui & ub & Heq).
      by rewrite Heq in Hr.
  - intros (i & row & used & j & b & Hrow & Hused & Hz).
    unfold used_before in Hused.
    destruct (run_on internal_df bank_df date_tol_days sim_threshold
                (take i (iterrows internal_df)) initial) as [e|st_i] eqn:Hpre; [done|].
    simpl in Hused. injection Hused as <-.
    assert (Hstep : step date_tol_days sim_threshold (build_buckets bank_df) internal_df
                      st_i (i, row) = inl ZeroDivisionError).
    { apply (step_raises_iff _ _ _ _ _ _ _ Hrow). by exists j, b. }
    unfold reconcile.
    pose proof (take_drop_middle _ _ _ (iterrows_lookup _ _ _ Hrow)) as Hsplit.
    rewrite <- Hsplit.
    fold (run_on internal_df bank_df date_tol_days sim_threshold
            (take i (iterrows internal_df) ++
             (i, row) :: drop (S i) (iterrows internal_df)) initial).
    rewrite run_on_app, Hpre. simpl. rewrite run_on_cons, Hstep. done.
Qed.

(** ** The similarity ratio lies between 0 and 1 *)

Section longest_match_bounds_b.
Import SequenceMatcher.
Variables (a b : Str.str) (b2j : gmap ascii (list nat)).
Variables (alo ahi blo bhi : nat).

Local Abbreviation within_b' := (within_b blo).
Local Abbreviation entry := (j2len_entry blo bhi).

Lemma scan_js_bounds_b (i : nat) (j2len : gmap Z nat) (js : list nat)
    (st : gmap Z nat * Match) :
  map_Forall entry j2len →
  map_Forall entry st.1 → within_b' bhi st.2 →
  map_Forall entry (scan_js blo bhi i j2len js st).1 ∧
  within_b' bhi (scan_js blo bhi i j2len js st).2.
Proof.
  intros Hlen. revert st. induction js as [|j js IH]; intros [new best] Hnew Hbest; [done|].
  simpl. destruct (decide (j < blo)); [by apply IH|].
  destruct (decide (bhi ≤ j)); [done|].
  assert (Hk : blo + (default 0 (j2len !! (Z.of_nat j - 1)%Z) + 1) ≤ S j).
  { destruct (j2len !! (Z.of_nat j - 1)%Z) as [k|] eqn:E; simpl; [|lia].
    apply (map_Forall_lookup_1 _ _ _ _ Hlen) in E as (j' & Hj' & Hk & _). lia. }
  apply IH; simpl.
  - apply map_Forall_insert_2; [|done]. exists j. split_and!; [done|done|lia].
  - destruct (decide (m_size best < _)); [|done]. unfold within_b. simpl. lia.
Qed.

Lemma scan_is_bounds_b (st : gmap Z nat * Match) (i : nat) :
  map_Forall entry st.1 → within_b' bhi st.2 →
  map_Forall entry (scan_is a b2j blo bhi st i).1 ∧
  within_b' bhi (scan_is a b2j blo bhi st i).2.
Proof.
  intros Hlen Hbest. destruct st as [j2len best]. unfold scan_is.
  match goal with |- context [scan_js _ _ _ _ ?js ?st] =>
    pose proof (scan_js_bounds_b i j2len js st Hlen) as H;
    destruct (scan_js blo bhi i j2len js st) as [new best'] end.
  apply H; simpl; [apply map_Forall_empty | done].
Qed.

Lemma scan_loop_bounds_b (l : list nat) (st : gmap Z nat * Match) :
  map_Forall entry st.1 → within_b' bhi st.2 →
  within_b' bhi (foldl (scan_is a b2j blo bhi) st l).2.
Proof.
  revert st. induction l as [|i l IH]; intros st Hlen Hbest; [done|].
  simpl. destruct (scan_is_bounds_b st i Hlen Hbest) as [Hlen' Hbest']. by apply IH.
Qed.

Lemma extend_left_bounds_b (besti bestj bestsize : nat) (hi : nat) :
  within_b' hi (mkMatch besti bestj bestsize) →
  within_b' hi (extend_left a b alo blo besti bestj bestsize).
Proof.
  revert bestj bestsize. induction besti as [|i IH]; intros bestj bestsize Hw; [done|].
  simpl. destruct (decide _) as [(_ & Hlt & _)|_]; [|done].
  apply IH. destruct Hw as [Hw1 Hw2]. simpl in *. split; simpl; lia.
Qed.

Lemma extend_right_bounds_b (besti bestj n bestsize : nat) :
  within_b' bhi (mkMatch besti bestj bestsize) →
  within_b' bhi (extend_right a b ahi bhi besti bestj n bestsize).
Proof.
  revert bestsize. induction n as [|n IH]; intros bestsize Hw; [done|].
  simpl. destruct (decide _) as [(_ & Hlt & _)|_]; [|done].
  apply IH. destruct Hw as [Hw1 Hw2]. simpl in *. split; simpl; lia.
Qed.

(** The docstring of [find_longest_match]: [blo <= j <= j+k <= bhi]. *)
Lemma find_longest_match_bounds_b :
  blo ≤ bhi → within_b' bhi (find_longest_match a b b2j alo ahi blo bhi).
Proof.
  intros Hle. unfold find_longest_match.
  pose proof (scan_loop_bounds_b (seq alo (ahi - alo)) (∅, mkMatch alo blo 0)) as H.
  destruct (foldl _ _ _) as [j2len best]. simpl in H.
  destruct best as [i j k]. simpl.
  pose proof (extend_left_bounds_b i j k bhi) as Hl.
  destruct (extend_left a b alo blo i j k) as [i' j' k']. simpl.
  apply extend_right_bounds_b, Hl, H; [apply map_Forall_empty|].
  split; simpl; lia.
Qed.

End longest_match_bounds_b.

Section blocks_total.
Import SequenceMatcher.
Variables (a b : Str.str) (b2j : gmap ascii (list nat)).

Lemma total_size_app (l1 l2 : list Match) :
  total_size (l1 ++ l2) = total_size l1 + total_size l2.
Proof. induction l1 as [|x l1 IH]; simpl; [done|]. rewrite IH. lia. Qed.

(** The blocks found are no longer than what the queue spans. *)
Lemma matching_loop_total (fuel : nat) (queue : list (nat * nat * nat * nat))
    (blocks : list Match) :
  well_formed queue → well_formed_b queue →
  total_size (matching_loop a b b2j fuel queue blocks) ≤ total_size blocks + span_a queue ∧
  total_size (matching_loop a b b2j fuel queue blocks) ≤ total_size blocks + span_b queue.
Proof.
  revert queue blocks. induction fuel as [|fuel IH]; intros queue blocks Hwa Hwb.
  { simpl. lia. }
  destruct queue as [|[[[alo ahi] blo] bhi] queue]; [simpl; lia|].
  apply Forall_cons in Hwa as [Hla Hwa]. apply Forall_cons in Hwb as [Hlb Hwb].
  pose proof (find_longest_match_bounds a b b2j alo ahi blo bhi Hla) as [Ha1 Ha2].
  pose proof (find_longest_match_bounds_b a b b2j alo ahi blo bhi Hlb) as [Hb1 Hb2].
  simpl. destruct (find_longest_match a b b2j alo ahi blo bhi) as [i j k].
  simpl in Ha1, Ha2, Hb1, Hb2.
  destruct (decide (k = 0)).
  { destruct (IH queue blocks Hwa Hwb). lia. }
  match goal with |- context [matching_loop a b b2j fuel ?q ?bl] =>
    destruct (IH q bl) as [H1 H2] end.
  - repeat case_decide; repeat (apply Forall_cons; split); try done; lia.
  - repeat case_decide; repeat (apply Forall_cons; split); try done; lia.
  - rewrite total_size_app in H1, H2. simpl in H1, H2.
    split; repeat case_decide; simpl in *; lia.
Qed.

Lemma collapse_total (cur : Match) (blocks acc : list Match) :
  total_size (collapse cur blocks acc) = total_size acc + m_size cur + total_size blocks.
Proof.
  revert cur acc. induction blocks as [|x blocks IH]; intros cur acc; simpl.
  - case_decide; [lia|]. rewrite total_size_app. simpl. lia.
  - case_decide; rewrite IH; simpl; [lia|].
    case_decide; [lia|]. rewrite total_size_app. simpl. lia.
Qed.

Lemma total_size_Permutation (l1 l2 : list Match) :
  l1 ≡ₚ l2 → total_size l1 = total_size l2.
Proof. induction 1; simpl; lia. Qed.

End blocks_total.

(** The matched elements are at most as many as either string has. *)
Lemma get_matching_blocks_total (a b : Str.str) :
  total_size (SequenceMatcher.get_matching_blocks a b) ≤ length a ∧
  total_size (SequenceMatcher.get_matching_blocks a b) ≤ length b.
Proof.
  unfold SequenceMatcher.get_matching_blocks.
  rewrite total_size_app, collapse_total. simpl.
  rewrite (total_size_Permutation _ _ (merge_sort_Permutation _ _)).
  destruct (matching_loop_total a b (SequenceMatcher.chain_b b) (2 * length a + 1)
              [(0, length a, 0, length b)] []) as [H1 H2].
  - repeat constructor. lia.
  - repeat constructor. lia.
  - simpl in H1, H2. lia.
Qed.

Lemma ratio_range (a b : Str.str) : (0 <= SequenceMatcher.ratio a b <= 1)%Q.
Proof.
  unfold SequenceMatcher.ratio. fold (total_size (SequenceMatcher.get_matching_blocks a b)).
  destruct (get_matching_blocks_total a b) as [Ha Hb].
  set (M := total_size _) in *. unfold SequenceMatcher.calculate_ratio.
  case_decide as HT; [split; by vm_compute|].
  assert (HT' : (0 < inject_Z (Z.of_nat (length a + length b)))%Q).
  { change 0%Q with (inject_Z 0). rewrite <- Zlt_Qlt. lia. }
  apply round_unit. split.
  - apply Qle_shift_div_l; [done|]. rewrite Qmult_0_l.
    apply Qmult_le_0_compat; [by vm_compute|].
    change 0%Q with (inject_Z 0). rewrite <- Zle_Qle. lia.
  - apply Qle_shift_div_r; [done|]. rewrite Qmult_1_l.
    change 2%Q with (inject_Z 2). rewrite <- inject_Z_mult, <- Zle_Qle. lia.
Qed.

(** X12: the similarity of two strings lies between 0 and 1. *)
Theorem similarity_range (a b : string) : (0 <= similarity a b <= 1)%Q.
Proof. apply ratio_range. Qed.

(** ** Strings without a common character *)


Section no_common_character.
Import SequenceMatcher.
Variables (a b : Str.str).
Hypothesis disjoint : ∀ c, c ∈ a → c ∉ b.






End no_common_character.



(** ** A string compared with itself *)

Lemma elem_of_positions (c : ascii) (a : Str.str) (j : nat) :
  j ∈ positions c a ↔ a !! j = Some c.
Proof.
  unfold positions. rewrite list_elem_of_filter, elem_of_seq. split; [by intros [? _]|].
  intros H. split; [done|]. apply lookup_lt_Some in H. lia.
Qed.

Lemma filter_seq_sorted (P : nat → Prop) `{∀ x, Decision (P x)} (s n : nat) :
  StronglySorted lt (filter P (seq s n)).
Proof.
  revert s. induction n as [|n IH]; intros s; simpl; [constructor|].
  rewrite filter_cons. destruct (decide (P s)); [|apply IH].
  constructor; [apply IH|]. apply Forall_forall.
  intros x [_ Hx%elem_of_seq]%list_elem_of_filter. lia.
Qed.

Lemma positions_snoc (c x : ascii) (a : Str.str) :
  positions c (a ++ [x])
  = positions c a ++ (if decide (x = c) then [length a] else []).
Proof.
  unfold positions. rewrite length_app. simpl. rewrite Nat.add_1_r, seq_S, filter_app.
  simpl. f_equal.
  - apply filter_ext_elem. intros j Hj%elem_of_seq. by rewrite lookup_app_l by lia.
  - rewrite filter_cons, filter_nil, list_lookup_middle by done.
    destruct (decide (x = c)) as [->|Hne].
    + by rewrite decide_True.
    + rewrite decide_False; [done|]. by intros [= ?].
Qed.

(** [b2j] lists the positions of the elements it keeps. *)
Lemma chain_b_positions (a : Str.str) (c : ascii) (js : list nat) :
  SequenceMatcher.chain_b a !! c = Some js → js = positions c a.
Proof.
  unfold SequenceMatcher.chain_b.
  assert (Hraw : default []
    (foldl (fun (m : gmap ascii (list nat)) '(i, elt) =>
              <[elt := default [] (m !! elt) ++ [i]]> m) ∅ (iterrows a) !! c)
    = positions c a).
  { induction a as [|x a IH] using rev_ind; [done|].
    rewrite iterrows_snoc, foldl_app, positions_snoc. simpl.
    destruct (decide (x = c)) as [->|Hne].
    - rewrite lookup_insert_eq. simpl. by rewrite IH.
    - rewrite lookup_insert_ne by done. by rewrite IH, app_nil_r. }
  case_decide.
  - intros [Hl _]%map_lookup_filter_Some. by rewrite Hl in Hraw.
  - intros Hl. by rewrite Hl in Hraw.
Qed.

Section self.
Import SequenceMatcher.
Variable a : Str.str.
Variable b2j : gmap ascii (list nat).
Hypothesis b2j_positions : ∀ c js, b2j !! c = Some js → js = positions c a.

Local Abbreviation live' := (live a b2j).
Local Abbreviation live_run' := (live_run a b2j).
Local Abbreviation prev_live_run' := (prev_live_run a b2j).
Local Abbreviation dp_inv' := (dp_inv a b2j).
Local Abbreviation row_inv' := (row_inv a b2j).
Local Abbreviation la := (length a).

Lemma run_live (j : nat) : live' j = true → live_run' j = S (prev_live_run' j).
Proof. intros H. destruct j as [|j]; cbn [live_run prev_live_run]; by rewrite H. Qed.

Lemma run_dead (j : nat) : live' j = false → live_run' j = 0.
Proof. intros H. destruct j as [|j]; cbn [live_run prev_live_run]; by rewrite H. Qed.

Lemma run_le (j : nat) : live_run' j ≤ S j.
Proof.
  induction j as [|j IH]; cbn [live_run]; [destruct (live' 0); lia|].
  destruct (live' (S j)); lia.
Qed.

Lemma live_lookup (j : nat) (c : ascii) :
  a !! j = Some c → is_Some (b2j !! c) → live' j = true.
Proof. intros Hj Hc. unfold live. rewrite Hj. by apply bool_decide_eq_true. Qed.

Lemma scan_js_cons (blo bhi i : nat) (j2len : gmap Z nat) (j : nat) (js : list nat)
    (new : gmap Z nat) (best : Match) :
  ¬ j < blo → ¬ bhi ≤ j →
  scan_js blo bhi i j2len (j :: js) (new, best)
  = let k := default 0 (j2len !! (Z.of_nat j - 1)%Z) + 1 in
    scan_js blo bhi i j2len js
      (<[Z.of_nat j := k]> new,
       if decide (m_size best < k) then mkMatch (i + 1 - k) (j + 1 - k) k else best).
Proof. intros H1 H2. simpl. by rewrite !decide_False by done. Qed.

(** The inner loop for the row [i], whose element [c] is in [b2j]. *)
Lemma scan_js_self (i : nat) (c : ascii) (j2len : gmap Z nat) (best0 : Match)
    (rest done : list nat) (st : gmap Z nat * Match) :
  a !! i = Some c → is_Some (b2j !! c) →
  dp_inv' i (j2len, best0) →
  StronglySorted lt rest → (∀ j, j ∈ rest → a !! j = Some c) →
  i ∈ done ∨ i ∈ rest →
  row_inv' i done st →
  row_inv' i (done ++ rest) (scan_js 0 la i j2len rest st).
Proof.
  intros Hi Hc (J0 & J1 & J2 & J2' & _) . simpl in J0, J1, J2, J2'.
  revert done st. induction rest as [|j rest IH]; intros done st Hsorted Hrest Hin Hinv.
  { simpl. by rewrite app_nil_r. }
  apply StronglySorted_inv in Hsorted as [Hsorted Hhead].
  assert (Hj : a !! j = Some c) by (apply Hrest; by left).
  assert (Hjlt : j < la) by (by apply lookup_lt_Some in Hj).
  assert (Hlive : live_run' j = S (prev_live_run' j)) by (by apply run_live, (live_lookup j c)).
  assert (Hlivei : live_run' i = S (prev_live_run' i)) by (by apply run_live, (live_lookup i c)).
  destruct st as [new best].
  rewrite scan_js_cons by lia.
  destruct Hinv as (K0 & K1 & K2 & K2' & K3 & K3' & K4 & K5). simpl in K0, K1, K2, K2', K3, K3', K4, K5.
  cbv zeta.
  set (k := default 0 (j2len !! (Z.of_nat j - 1)%Z) + 1).
  (* the length found at [j] *)
  assert (Hk_lt : j < i → k ≤ live_run' j).
  { intros Hlt. unfold k. rewrite Hlive. destruct j as [|j'].
    - destruct (j2len !! (Z.of_nat 0 - 1)%Z) as [k'|] eqn:E; simpl; [|lia].
      apply J0 in E as [j'' ?]. lia.
    - replace (Z.of_nat (S j') - 1)%Z with (Z.of_nat j') by lia.
      destruct (j2len !! Z.of_nat j') as [k'|] eqn:E; simpl; [|lia].
      apply J1 in E; [|lia]. lia. }
  assert (Hk_eq : j = i → k = live_run' i).
  { intros ->. unfold k. rewrite J2', Hlivei. lia. }
  assert (Hk_gt : i < j → k ≤ live_run' i).
  { intros Hlt. unfold k. destruct j as [|j']; [lia|].
    replace (Z.of_nat (S j') - 1)%Z with (Z.of_nat j') by lia.
    destruct (j2len !! Z.of_nat j') as [k'|] eqn:E; simpl; [|lia].
    apply J2 in E; [|lia]. rewrite Hlivei. lia. }
  assert (Hdone_gt : i < j → i ∈ done).
  { intros Hlt. destruct Hin as [?|Hin]; [done|].
    apply elem_of_cons in Hin as [->|Hin]; [lia|].
    rewrite Forall_forall in Hhead. apply Hhead in Hin. lia. }
  pose proof (run_le i) as Hrun_i.
  rewrite (assoc_L (++) done [j] rest : done ++ j :: rest = (done ++ [j]) ++ rest).
  apply IH; [done| |..].
  - intros j' Hj'. apply Hrest. by right.
  - destruct Hin as [Hin|Hin].
    + left. apply elem_of_app. by left.
    + apply elem_of_cons in Hin as [->|Hin]; [|by right].
      left. apply elem_of_app. right. by apply list_elem_of_singleton.
  - split_and!; simpl.
    + intros z k' Hz. destruct (decide (z = Z.of_nat j)) as [->|Hne]; [by exists j|].
      rewrite lookup_insert_ne in Hz by done. by eapply K0.
    + intros j' k' Hz Hlt. destruct (decide (j' = j)) as [->|Hne].
      * rewrite lookup_insert_eq in Hz. injection Hz as <-. by apply Hk_lt.
      * rewrite lookup_insert_ne in Hz by lia. by eapply K1.
    + intros j' k' Hz Hle. destruct (decide (j' = j)) as [->|Hne].
      * rewrite lookup_insert_eq in Hz. injection Hz as <-.
        destruct (decide (j = i)) as [He|Hn]; [by rewrite Hk_eq | apply Hk_gt; lia].
      * rewrite lookup_insert_ne in Hz by lia. by eapply K2.
    + intros [Hd|Hd%list_elem_of_singleton]%elem_of_app.
      * destruct (decide (j = i)) as [->|Hne].
        -- by rewrite lookup_insert_eq, Hk_eq.
        -- rewrite lookup_insert_ne by lia. by apply K2'.
      * subst j. by rewrite lookup_insert_eq, Hk_eq.
    + intros j' Hlt. case_decide; simpl; [|by apply K3].
      specialize (K3 j' Hlt). lia.
    + intros [Hd|Hd%list_elem_of_singleton]%elem_of_app.
      * case_decide; simpl; [|by apply K3']. specialize (K3' Hd). lia.
      * subst j. rewrite <- (Hk_eq eq_refl). case_decide; simpl; lia.
    + case_decide as Hup; simpl; [|done].
      destruct (Nat.lt_trichotomy j i) as [Hlt|[->|Hgt]]; [| lia |].
      * specialize (Hk_lt Hlt). specialize (K3 j Hlt). lia.
      * specialize (Hk_gt Hgt). specialize (K3' (Hdone_gt Hgt)). lia.
    + case_decide as Hup; simpl; [|done].
      destruct (Nat.lt_trichotomy j i) as [Hlt|[->|Hgt]].
      * specialize (Hk_lt Hlt). specialize (K3 j Hlt). lia.
      * rewrite (Hk_eq eq_refl). lia.
      * specialize (Hk_gt Hgt). specialize (K3' (Hdone_gt Hgt)). lia.
Qed.

(** One row of the outer loop. *)
Lemma scan_is_self (i : nat) (st : gmap Z nat * Match) :
  i < la → dp_inv' i st → dp_inv' (S i) (scan_is a b2j 0 la st i).
Proof.
  intros Hi Hinv. destruct st as [j2len best].
  pose proof Hinv as (J0 & J1 & J2 & J2' & J3 & J4 & J5). simpl in *.
  destruct (lookup_lt_is_Some_2 a i Hi) as [c Hc].
  unfold scan_is. rewrite Hc.
  destruct (b2j !! c) as [js|] eqn:Hjs; simpl.
  - apply b2j_positions in Hjs as Hpos. subst js.
    assert (Hin : i ∈ positions c a) by (by apply elem_of_positions).
    assert (Hrow0 : row_inv' i [] (∅, best)).
    { unfold row_inv. simpl. split_and!.
      - intros z k Hz. by rewrite lookup_empty in Hz.
      - intros j k Hz. by rewrite lookup_empty in Hz.
      - intros j k Hz. by rewrite lookup_empty in Hz.
      - intros []%elem_of_nil.
      - done.
      - intros []%elem_of_nil.
      - done.
      - lia. }
    pose proof (scan_js_self i c j2len best (positions c a) [] (∅, best) Hc
                  ltac:(by rewrite Hjs) Hinv (filter_seq_sorted _ _ _)
                  (fun j => proj1 (elem_of_positions c a j)) (or_intror Hin) Hrow0) as H.
    destruct (scan_js 0 la i j2len (positions c a) (∅, best)) as [new best'].
    destruct H as (K0 & K1 & K2 & K2' & K3 & K3' & K4 & K5); simpl in *.
    unfold dp_inv. split_and!; simpl; try done.
    + intros j k Hz Hlt. apply (K1 j k Hz). lia.
    + intros j k Hz Hle. apply (K2 j k Hz). lia.
    + replace (Z.of_nat (S i) - 1)%Z with (Z.of_nat i) by lia.
      by rewrite (K2' Hin).
    + intros j Hlt. destruct (decide (j = i)) as [->|Hne]; [by apply K3'|].
      apply K3. lia.
  - assert (Hdead : live_run' i = 0).
    { apply run_dead. unfold live. rewrite Hc, Hjs. by apply bool_decide_eq_false, is_Some_None. }
    unfold dp_inv. simpl. split_and!.
    + intros z k Hz. by rewrite lookup_empty in Hz.
    + intros j k Hz. by rewrite lookup_empty in Hz.
    + intros j k Hz. by rewrite lookup_empty in Hz.
    + rewrite lookup_empty. simpl. by rewrite Hdead.
    + intros j Hlt. destruct (decide (j = i)) as [->|Hne]; [lia|]. apply J3. lia.
    + done.
    + lia.
Qed.

Lemma scan_loop_self (n : nat) :
  n ≤ la → dp_inv' n (foldl (scan_is a b2j 0 la) (∅, mkMatch 0 0 0) (seq 0 n)).
Proof.
  induction n as [|n IH]; intros Hn.
  - unfold dp_inv. simpl. split_and!.
    + intros z k Hz. by rewrite lookup_empty in Hz.
    + intros j k Hz. by rewrite lookup_empty in Hz.
    + intros j k Hz. by rewrite lookup_empty in Hz.
    + done.
    + intros j Hlt. lia.
    + done.
    + lia.
  - rewrite seq_S, foldl_app. simpl. apply scan_is_self; [lia|]. apply IH. lia.
Qed.

Lemma extend_left_self (p size : nat) :
  p ≤ la → extend_left a a 0 0 p p size = mkMatch 0 0 (p + size).
Proof.
  revert size. induction p as [|p IH]; intros size Hp; [done|].
  simpl. rewrite decide_True.
  - rewrite Nat.sub_0_r, IH by lia. f_equal. lia.
  - rewrite Nat.sub_0_r. split_and!; [lia..| |done]. apply lookup_lt_is_Some_2. lia.
Qed.

Lemma extend_right_self (n size : nat) :
  size ≤ la → n = la - size → extend_right a a la la 0 0 n size = mkMatch 0 0 la.
Proof.
  revert size. induction n as [|n IH]; intros size Hs Hn; simpl.
  - f_equal. lia.
  - rewrite decide_True.
    + apply IH; lia.
    + split_and!; [lia..| |done]. apply lookup_lt_is_Some_2. lia.
Qed.

Lemma find_longest_match_self :
  find_longest_match a a b2j 0 la 0 la = mkMatch 0 0 la.
Proof.
  unfold find_longest_match. rewrite Nat.sub_0_r.
  pose proof (scan_loop_self la (le_n _)) as (_ & _ & _ & _ & _ & Hd & Hle).
  destruct (foldl _ _ _) as [j2len [p q size]]. simpl in *. subst q.
  rewrite extend_left_self by lia. simpl.
  apply extend_right_self; lia.
Qed.

End self.

Lemma matching_loop_self (a : Str.str) (fuel : nat) :
  length a ≠ 0 →
  SequenceMatcher.matching_loop a a (SequenceMatcher.chain_b a) (S fuel)
    [(0, length a, 0, length a)] []
  = [SequenceMatcher.mkMatch 0 0 (length a)].
Proof.
  intros Hne. cbn [SequenceMatcher.matching_loop].
  rewrite (find_longest_match_self a _ (chain_b_positions a)).
  rewrite decide_False by done.
  rewrite (decide_False (P := 0 + length a < length a ∧ _)) by lia.
  rewrite (decide_False (P := 0 < 0 ∧ _)) by lia.
  by destruct fuel.
Qed.

Lemma ratio_self (a : Str.str) : (SequenceMatcher.ratio a a == 1)%Q.
Proof.
  destruct (decide (length a = 0)) as [H0|Hne].
  { destruct a; [by vm_compute | done]. }
  unfold SequenceMatcher.ratio, SequenceMatcher.get_matching_blocks.
  replace (2 * length a + 1) with (S (2 * length a)) by lia.
  rewrite matching_loop_self by done.
  change (merge_sort SequenceMatcher.match_le [SequenceMatcher.mkMatch 0 0 (length a)])
    with [SequenceMatcher.mkMatch 0 0 (length a)].
  cbn [SequenceMatcher.collapse SequenceMatcher.m_a SequenceMatcher.m_b
       SequenceMatcher.m_size].
  rewrite decide_True by done.
  cbn [SequenceMatcher.m_a SequenceMatcher.m_b SequenceMatcher.m_size].
  rewrite decide_False by (simpl; lia).
  cbn [app foldr SequenceMatcher.m_size].
  unfold SequenceMatcher.calculate_ratio. rewrite decide_False by lia.
  replace (0 + length a + (0 + 0)) with (length a) by lia.
  rewrite Nat2Z.inj_add, inject_Z_plus.
  assert (Hpos : ¬ (inject_Z (Z.of_nat (length a)) == 0)%Q).
  { change 0%Q with (inject_Z 0). rewrite inject_Z_injective. lia. }
  assert (E : (2 * inject_Z (Z.of_nat (length a))
               / (inject_Z (Z.of_nat (length a)) + inject_Z (Z.of_nat (length a))) == 1)%Q).
  { field. intros H. apply Hpos. lra. }
  unfold Binary64.div. rewrite (round_comp _ _ E). by vm_compute.
Qed.

(** X14: a string has similarity 1 with itself, the empty string and
    the strings long enough for the popularity heuristic of difflib
    included. *)
Theorem similarity_identical (s : string) : (similarity s s == 1)%Q.
Proof. apply ratio_self. Qed.

(** ** Consequences for the matches *)

(** X15: with a [sim_threshold] above 1 nothing is matched: both
    ledgers are returned whole. *)
Theorem reconcile_threshold_above_one internal_df bank_df date_tol_days amount_tol
    sim_threshold ms ui ub :
  (1 < sim_threshold)%Q →
  reconcile internal_df bank_df date_tol_days amount_tol sim_threshold = inr (ms, ui, ub) →
  ms = [] ∧ ui = internal_df ∧ ub = bank_df.
Proof.
  intros Hthr (st & Hrun & -> & Hui & Hub)%reconcile_inr.
  apply run_ordered_final in Hrun as (pairs & Hp & _ & Hun & _ & Hused).
  destruct pairs as [|p pairs].
  - apply Forall2_nil_inv_l in Hp. simpl in Hun, Hused.
    rewrite Hun, filter_all, loc_all in Hui by (intros; apply not_elem_of_nil).
    rewrite filter_all, loc_all in Hub.
    2:{ intros j Hj. by apply Hused, elem_of_nil in Hj. }
    injection Hui as <-. injection Hub as <-. done.
  - apply Forall2_cons_inv_l in Hp as (m & ms' & (row & b & _ & _ & _ & _ & _ & Hs & _) & _).
    pose proof (ratio_range (list_ascii_of_string (Internal.Vendor_clean row))
                  (list_ascii_of_string (Bank.Vendor_clean b))) as [_ Hle].
    unfold vendor_sim, similarity in Hs. lra.
Qed.

Lemma reconcile_threshold_above_one_witness :
  (1 < 3 # 2)%Q ∧
  ∃ ms ui ub,
    reconcile sample_internal sample_bank 2 50 (3 # 2) = inr (ms, ui, ub) ∧
    ms = [] ∧ ui = sample_internal ∧ ub = sample_bank.
Proof.
  split; [by vm_compute|]. eexists _, _, _. split; [vm_compute; reflexivity|].
  refine (reconcile_threshold_above_one sample_internal sample_bank 2 50 (3 # 2) _ _ _ _ _).
  - by vm_compute.
  - vm_compute; reflexivity.
Defined.

(** A bank row that repeats the date, the amount and the normalized vendor
    of [row] scores 1. *)
Lemma exact_copy_score (row : Internal.row) (b : Bank.row) :
  Bank.Amount b = Internal.Amount row →
  Bank.Vendor_clean b = Internal.Vendor_clean row →
  (vendor_sim row b == 1)%Q ∧ (score row b == 1)%Q.
Proof.
  intros Ha Hv.
  assert (Hsim : (vendor_sim row b == 1)%Q).
  { unfold vendor_sim, similarity. rewrite Hv. apply ratio_self. }
  split; [done|]. unfold score, amount_diff. rewrite Ha.
  assert (E0 : (Internal.Amount row - Internal.Amount row == 0)%Q) by ring.
  unfold Binary64.sub at 2. rewrite (round_zero _ E0). change (Qabs 0) with 0%Q.
  assert (E1 : (0 / Binary64.add (Internal.Amount row) 1 == 0)%Q)
    by (unfold Qdiv; apply Qmult_0_l).
  unfold Binary64.div. rewrite (round_zero _ E1).
  unfold Binary64.mul. rewrite (round_zero (0 * (1 # 4))) by done.
  assert (E2 : (vendor_sim row b - 0 == 1)%Q) by (rewrite Hsim; ring).
  unfold Binary64.sub. rewrite (round_comp _ _ E2). by vm_compute.
Qed.

(** X16: an internal row that has in the bank ledger an unused row of
    the same date, amount and normalized vendor is matched, when
    [date_tol_days] is not negative and [sim_threshold] is 1 at most. *)
Theorem exact_copy_is_matched internal_df bank_df date_tol_days amount_tol sim_threshold
    ms ui ub (i j : nat) (row : Internal.row) (b : Bank.row) (used : gset nat) :
  reconcile internal_df bank_df date_tol_days amount_tol sim_threshold = inr (ms, ui, ub) →
  internal_df !! i = Some row →
  bank_df !! j = Some b →
  used_before internal_df bank_df date_tol_days sim_threshold i = inr used →
  j ∉ used →
  Bank.Date b = Internal.Date row →
  Bank.Amount b = Internal.Amount row →
  Bank.Vendor_clean b = Internal.Vendor_clean row →
  (0 ≤ date_tol_days)%Z →
  (sim_threshold <= 1)%Q →
  ∃ m, m ∈ ms ∧ record_internal_columns m = internal_columns row.
Proof.
  intros (st & Hrun & -> & _)%reconcile_inr Hrow Hb Hused Hj Hd Ha Hv Htol Hthr.
  destruct (run_matched_iff_selectable _ _ _ _ _ _ _ Hrun Hrow)
    as (used' & Hused' & _ & _ & Hsel).
  rewrite Hused in Hused'. injection Hused' as <-.
  destruct (exact_copy_score row b Ha Hv) as [Hsim Hscore].
  destruct Hsel as (j1 & b1 & _ & Hm & _).
  - exists j, b. split; [split_and!|].
    + done.
    + right. left. by rewrite Ha.
    + split_and!; [done| |by rewrite Hsim].
      rewrite Hd, Z.sub_diag. simpl. done.
    + rewrite Hscore. by vm_compute.
  - by exists (record_of row b1).
Qed.

Lemma exact_copy_is_matched_witness :
  ∃ ms ui ub,
    let internal_df := [clean_internal "T1" 10 250 (Some "Acme Ltd"%string)] in
    let bank_df := [clean_bank "B1" 10 250 (Some "ACME LTD."%string)] in
    reconcile internal_df bank_df 2 50 (3 # 4) = inr (ms, ui, ub) ∧
    ∃ m, m ∈ ms ∧
         record_internal_columns m
         = internal_columns (clean_internal "T1" 10 250 (Some "Acme Ltd"%string)).
Proof.
  eexists _, _, _. simpl. split; [vm_compute; reflexivity|].
  refine (exact_copy_is_matched
            [clean_internal "T1" 10 250 (Some "Acme Ltd"%string)]
            [clean_bank "B1" 10 250 (Some "ACME LTD."%string)] 2 50 (3 # 4)
            _ _ _ 0 0 _ _ ∅ _ _ _ _ _ _ _ _ _ _).
  - vm_compute; reflexivity.
  - reflexivity.
  - reflexivity.
  - reflexivity.
  - apply not_elem_of_empty.
  - reflexivity.
  - reflexivity.
  - reflexivity.
  - done.
  - by vm_compute.
Defined.

(** ** More on the normalizer *)

Local Abbreviation space := (fun c => Str.isspace c = true).

Lemma lstrip_length (s : Str.str) : length (Str.lstrip s) ≤ length s.
Proof.
  induction s as [|c s IH]; simpl; [done|]. destruct (Str.isspace c); simpl; lia.
Qed.

Lemma strip_length (s : Str.str) : length (Str.strip s) ≤ length s.
Proof.
  unfold Str.strip, Str.rstrip. rewrite length_rev.
  etrans; [apply lstrip_length|]. rewrite length_rev. apply lstrip_length.
Qed.

Lemma replace_length (old s : Str.str) (x : ascii) :
  old ≠ [] → length (Str.replace old [x] s) ≤ length s.
Proof.
  destruct old as [|o old]; [done|]. intros _.
  induction s as [s IH] using length_ind.
  destruct s as [|c s]; [by rewrite replace_nil|].
  rewrite replace_cons. destruct (Str.startswith _ _); simpl.
  - etrans; [apply le_n_S, IH|].
    + simpl. rewrite length_drop. lia.
    + rewrite length_drop. lia.
  - apply le_n_S, IH. simpl. lia.
Qed.

Lemma replace_tokens_length (ts : list Str.str) (s : Str.str) :
  Forall (fun t => t ≠ [] ∧ " "%char ∉ t) ts →
  length (replace_tokens ts s) ≤ length s.
Proof.
  unfold replace_tokens. intros Hts. revert s.
  induction Hts as [|t ts [Hne _] _ IH]; intros s; [done|].
  simpl. etrans; [apply IH|]. by apply replace_length.
Qed.

Lemma join_cons_head (sep : Str.str) (c : ascii) (w : Str.str) (ws : list Str.str) :
  Str.join sep ((c :: w) :: ws) = c :: Str.join sep (w :: ws).
Proof. by destruct ws. Qed.

Lemma join_length (x : ascii) (ws : list Str.str) :
  length (Str.join [x] ws) = sum_list (length <$> ws) + (length ws - 1).
Proof.
  induction ws as [|w ws IH]; [done|].
  destruct ws as [|w2 ws]; [simpl; lia|].
  rewrite join_cons2, !length_app, IH. simpl. lia.
Qed.

(** Joining the fields with one character gives back the length. *)
Lemma join_fields_length (x : ascii) (s : Str.str) :
  length (Str.join [x] (Str.fields s)) = length s.
Proof.
  induction s as [|c s IH]; [done|]. simpl.
  destruct (fields_spec s) as (w & ws & Hf & _). rewrite Hf in IH |- *.
  destruct (Str.isspace c).
  - rewrite join_cons2. cbn [app length]. by rewrite IH.
  - rewrite join_cons_head. cbn [length]. by rewrite IH.
Qed.

Lemma join_filter_length (P : Str.str → Prop) `{∀ w, Decision (P w)} (x : ascii)
    (ws : list Str.str) :
  length (Str.join [x] (filter P ws)) ≤ length (Str.join [x] ws).
Proof.
  rewrite !join_length.
  assert (Hs : sum_list (length <$> filter P ws) ≤ sum_list (length <$> ws)).
  { induction ws as [|w ws IH]; [done|]. rewrite filter_cons.
    destruct (decide (P w)); rewrite ?fmap_cons; cbn [sum_list sum_list_with]; lia. }
  pose proof (length_filter P ws). lia.
Qed.

Lemma normalize_str_length (s : Str.str) : length (normalize_str s) ≤ length s.
Proof.
  unfold normalize_str. fold (replace_tokens stop_tokens (Str.strip (Str.lower s))).
  set (r := replace_tokens stop_tokens (Str.strip (Str.lower s))).
  unfold Str.split. change (lit " ") with [" "%char].
  etrans; [apply join_filter_length|]. rewrite join_fields_length.
  unfold r. etrans; [apply replace_tokens_length, stop_tokens_shape|].
  etrans; [apply strip_length|]. unfold Str.lower. by rewrite length_map.
Qed.

Lemma string_length_of_list (l : Str.str) :
  String.length (string_of_list_ascii l) = length l.
Proof. induction l as [|c l IH]; simpl; [done|]. by rewrite IH. Qed.

Lemma list_length_of_string (s : string) :
  length (list_ascii_of_string s) = String.length s.
Proof. induction s as [|c s IH]; simpl; [done|]. by rewrite IH. Qed.

(** X18: for a text of code points up to U+00FF, the texts of the
    model, the normalized text is not longer than the text.  (The bound is
    not one of all Unicode texts: U+0130 in lower case is two code points.) *)
Theorem normalize_text_not_longer (s : string) :
  String.length (normalize_text (Some s)) ≤ String.length s.
Proof.
  simpl. rewrite string_length_of_list, <- list_length_of_string.
  apply normalize_str_length.
Qed.

(** *** Case and padding *)

Lemma lstrip_pad (p s : Str.str) : Forall space p → Str.lstrip (p ++ s) = Str.lstrip s.
Proof. induction 1 as [|c p Hc _ IH]; simpl; [done|]. by rewrite Hc. Qed.

Lemma lstrip_all (p : Str.str) : Forall space p → Str.lstrip p = [].
Proof. intros H. rewrite <- (app_nil_r p). by rewrite lstrip_pad. Qed.

Lemma rstrip_pad (s q : Str.str) : Forall space q → Str.rstrip (s ++ q) = Str.rstrip s.
Proof.
  intros H. unfold Str.rstrip. rewrite rev_app_distr, lstrip_pad; [done|].
  by apply Forall_rev.
Qed.

Lemma lstrip_pad_r (s q : Str.str) :
  Forall space q →
  Str.lstrip (s ++ q) = Str.lstrip s ++ q ∨ (Str.lstrip (s ++ q) = [] ∧ Str.lstrip s = []).
Proof.
  intros H. induction s as [|c s IH]; simpl.
  - right. by rewrite lstrip_all.
  - destruct (Str.isspace c); [done|]. by left.
Qed.

Lemma strip_pad (p s q : Str.str) :
  Forall space p → Forall space q → Str.strip (p ++ s ++ q) = Str.strip s.
Proof.
  intros Hp Hq. unfold Str.strip. rewrite lstrip_pad by done.
  destruct (lstrip_pad_r s q Hq) as [->|[-> ->]]; [|done].
  by apply rstrip_pad.
Qed.

(** X19: [normalize_text] ignores the case of the letters and the
    whitespace around the text: two texts that are equal in lower case up to
    whitespace before and after have the same normalized text. *)
Theorem normalize_text_ignores_case_and_padding (s1 s2 : string) (p q : Str.str) :
  Forall (fun c => Str.isspace c = true) p →
  Forall (fun c => Str.isspace c = true) q →
  Str.lower (list_ascii_of_string s2) = p ++ Str.lower (list_ascii_of_string s1) ++ q →
  normalize_text (Some s2) = normalize_text (Some s1).
Proof.
  intros Hp Hq Heq. simpl. unfold normalize_str. by rewrite Heq, strip_pad.
Qed.

Lemma normalize_text_ignores_case_and_padding_witness :
  Forall (fun c => Str.isspace c = true) (lit "  ") ∧
  Forall (fun c => Str.isspace c = true) (lit " ") ∧
  Str.lower (list_ascii_of_string "  ACME Corp ")
    = lit "  " ++ Str.lower (list_ascii_of_string "acme corp") ++ lit " " ∧
  normalize_text (Some "  ACME Corp "%string) = normalize_text (Some "acme corp"%string).
Proof.
  assert (H1 : Forall (fun c => Str.isspace c = true) (lit "  ")) by (by repeat constructor).
  assert (H2 : Forall (fun c => Str.isspace c = true) (lit " ")) by (by repeat constructor).
  split; [exact H1|]. split; [exact H2|]. split; [reflexivity|].
  apply (normalize_text_ignores_case_and_padding _ _ (lit "  ") (lit " ") H1 H2).
  reflexivity.
Defined.

(** X20: the texts that [normalize_text] leaves as they are are the
    normalized ones: words separated by single spaces, in lower case, in
    which no stop token occurs. *)
Theorem normalize_text_fixed_points (s : string) :
  normalize_text (Some s) = s ↔ normal (list_ascii_of_string s).
Proof.
  simpl. split.
  - intros H. rewrite <- H at 1. rewrite list_ascii_of_string_of_list_ascii.
    apply normalize_str_normal.
  - intros H. rewrite normal_fixed by done. apply string_of_list_ascii_of_string.
Qed.

(** ** The dashboard *)

(** X21: with an empty internal ledger [reconcile] returns and the
    metric of line 116 then divides by [len(internal)], which is zero: the
    dashboard raises a division error. *)
Theorem summary_of_empty_internal_raises (bank : list Bank.row)
    (date_tol : Z) (amount_tol sim_threshold : Q) :
  summary [] bank date_tol amount_tol sim_threshold = inl ZeroDivisionError.
Proof.
  unfold summary, reconcile. simpl.
  rewrite filter_all by (intros; apply not_elem_of_empty).
  rewrite loc_all. done.
Qed.

Lemma py_round2_range (x : Q) : (0 <= x <= 100)%Q → (0 <= py_round2 x <= 100)%Q.
Proof.
  intros [H0 H1].
  assert (Hlo : (py_round (inject_Z 0) ≤ py_round (x * 100))%Z).
  { apply py_round_mono. change (inject_Z 0) with 0%Q. lra. }
  assert (Hhi : (py_round (x * 100) ≤ py_round (inject_Z 10000))%Z).
  { apply py_round_mono. change (inject_Z 10000) with 10000%Q. lra. }
  rewrite py_round_inject in Hlo, Hhi.
  assert (Hk : (0 <= inject_Z (py_round (x * 100)) <= 10000)%Q).
  { split.
    - change 0%Q with (inject_Z 0). by rewrite <- Zle_Qle.
    - change 10000%Q with (inject_Z 10000). by rewrite <- Zle_Qle. }
  unfold py_round2.
  assert (Hz : (0 <= inject_Z (py_round (x * 100)) / 100 <= 100)%Q).
  { unfold Qdiv. change (/ 100)%Q with (1 # 100)%Q. lra. }
  destruct Hz as [Hz0 Hz1]. apply round_mono in Hz0, Hz1.
  vm_compute (Binary64.round 0) in Hz0. vm_compute (Binary64.round 100) in Hz1. done.
Qed.

(** [round(x, 2)] is away from [x] by half a hundredth and one rounding. *)
Lemma py_round2_near (x : Q) :
  (0 <= x <= 100)%Q →
  (Qabs (py_round2 x - x) <= (1 # 200) + 100 * (1 # 2 ^ 53))%Q.
Proof.
  intros Hx. pose proof (py_round2_range x Hx) as Hp. unfold py_round2 in *.
  pose proof (py_round_bounds (x * 100)) as Hk.
  set (z := (inject_Z (py_round (x * 100)) / 100)%Q) in *.
  assert (Hz : (z * 100 == inject_Z (py_round (x * 100)))%Q) by (unfold z; field).
  assert (Hz100 : (Qabs z <= 101)%Q) by (apply Qabs_Qle_condition; lra).
  pose proof (round_error_le z _ Hz100) as He. apply Qabs_Qle_condition in He.
  change (1 # 2 ^ 53)%Q with (1 # 9007199254740992)%Q in *.
  destruct (Qlt_le_dec z 0) as [Hn|Hn]; [apply Qabs_Qle_condition; lra|].
  destruct (Qlt_le_dec 100 z) as [Hb|Hb]; [apply Qabs_Qle_condition; lra|].
  assert (Ha : (Qabs z <= 100)%Q) by (apply Qabs_Qle_condition; lra).
  apply (round_error_le z 100), Qabs_Qle_condition in Ha.
  change (1 # 2 ^ 53)%Q with (1 # 9007199254740992)%Q in *.
  apply Qabs_Qle_condition. lra.
Qed.

Lemma summary_inr internal bank date_tol amount_tol sim_threshold ms ui ub :
  reconcile internal bank date_tol amount_tol sim_threshold = inr (ms, ui, ub) →
  summary internal bank date_tol amount_tol sim_threshold = match_percent ms internal.
Proof. intros H. unfold summary. by rewrite H. Qed.

Lemma match_percent_inr (ms : list MatchRecord) (internal : list Internal.row) :
  length ms ≤ length internal → internal ≠ [] →
  ∃ p, match_percent ms internal = inr p ∧
       (0 <= p <= 100)%Q ∧
       (Qabs (p - 100 * inject_Z (Z.of_nat (length ms))
                      / inject_Z (Z.of_nat (length internal)))
        <= (1 # 200) + (1 # 10 ^ 13))%Q.
Proof.
  intros Hm Hne.
  assert (Hn : 0 < length internal) by (destruct internal; [done | simpl; lia]).
  assert (HnQ : (0 < inject_Z (Z.of_nat (length internal)))%Q).
  { change 0%Q with (inject_Z 0). rewrite <- Zlt_Qlt. lia. }
  assert (HmQ : (0 <= inject_Z (Z.of_nat (length ms))
                 <= inject_Z (Z.of_nat (length internal)))%Q).
  { split; [change 0%Q with (inject_Z 0)|]; rewrite <- Zle_Qle; lia. }
  unfold match_percent, py_div.
  generalize dependent (inject_Z (Z.of_nat (length internal))). intros nq HnQ.
  generalize dependent (inject_Z (Z.of_nat (length ms))). intros mq HmQ.
  destruct (Qeq_bool nq 0) eqn:Hz.
  { apply Qeq_bool_iff in Hz. lra. }
  eexists. split; [done|].
  unfold Binary64.div, Binary64.mul.
  set (x := (mq / nq)%Q).
  assert (Hx : (0 <= x <= 1)%Q).
  { unfold x. split.
    - apply Qle_shift_div_l; [done|]. lra.
    - apply Qle_shift_div_r; [done|]. lra. }
  pose proof (round_unit x Hx) as Hr.
  assert (Ex : (Qabs x <= 1)%Q) by (apply Qabs_Qle_condition; lra).
  pose proof (round_error_le x 1 Ex) as E1. apply Qabs_Qle_condition in E1.
  set (r := Binary64.round x) in *.
  assert (Hy0 : (0 <= r * 100 <= 100)%Q) by lra.
  assert (Ey : (Qabs (r * 100) <= 100)%Q) by (apply Qabs_Qle_condition; lra).
  pose proof (round_error_le (r * 100) 100 Ey) as E2. apply Qabs_Qle_condition in E2.
  destruct Hy0 as [Hy0 Hy1]. apply round_mono in Hy0, Hy1.
  vm_compute (Binary64.round 0) in Hy0. vm_compute (Binary64.round 100) in Hy1.
  set (y := Binary64.round (r * 100)) in *.
  pose proof (py_round2_range y (conj Hy0 Hy1)) as Hp.
  pose proof (py_round2_near y (conj Hy0 Hy1)) as E3. apply Qabs_Qle_condition in E3.
  split; [done|].
  setoid_replace (100 * mq / nq)%Q with (x * 100)%Q using relation Qeq
    by (unfold x; field; lra).
  change (1 # 2 ^ 53)%Q with (1 # 9007199254740992)%Q in *.
  change (1 # 10 ^ 13)%Q with (1 # 10000000000000)%Q.
  apply Qabs_Qle_condition. lra.
Qed.

(** X22: when [reconcile] returns on an internal ledger that is not
    empty, the metric of line 116 is computed and lies between 0 and 100.
    It is the percentage of matched internal rows up to half a hundredth and
    the rounding of the floats, which is below 10^-13. *)
Theorem match_percent_range internal bank date_tol amount_tol sim_threshold ms ui ub :
  reconcile internal bank date_tol amount_tol sim_threshold = inr (ms, ui, ub) →
  internal ≠ [] →
  ∃ p, summary internal bank date_tol amount_tol sim_threshold = inr p ∧
       (0 <= p <= 100)%Q ∧
       (Qabs (p - 100 * inject_Z (Z.of_nat (length ms))
                      / inject_Z (Z.of_nat (length internal)))
        <= (1 # 200) + (1 # 10 ^ 13))%Q.
Proof.
  intros Hrec Hne. rewrite (summary_inr _ _ _ _ _ _ _ _ Hrec).
  apply match_percent_inr; [|done].
  apply reconcile_inr in Hrec as (st & Hrun & -> & _).
  apply run_inv_final in Hrun as (_ & _ & _ & _ & _ & _ & _ & _ & Hlen & _). lia.
Qed.

Lemma match_percent_range_witness :
  ∃ ms ui ub p,
    reconcile sample_internal sample_bank 2 50 (3 # 4) = inr (ms, ui, ub) ∧
    sample_internal ≠ [] ∧
    summary sample_internal sample_bank 2 50 (3 # 4) = inr p ∧ (p == 50)%Q.
Proof.
  eexists _, _, _.
  assert (Hr : reconcile sample_internal sample_bank 2 50 (3 # 4) = inr _)
    by (vm_compute; reflexivity).
  destruct (match_percent_range _ _ _ _ _ _ _ _ Hr) as (p & Hp & _); [done|].
  exists p. split; [exact Hr|]. split; [done|]. split; [exact Hp|].
  vm_compute in Hp. injection Hp as <-. done.
Defined.

(** X23: after a run of [reconcile], line 155 raises a [KeyError]
    exactly when nothing was matched, that is when every internal row is
    returned unmatched: the frame of no record has no column
    [Transaction_ID]. *)
Theorem match_ids_raises_iff_nothing_matched
    internal bank date_tol amount_tol sim_threshold ms ui ub :
  reconcile internal bank date_tol amount_tol sim_threshold = inr (ms, ui, ub) →
  match_ids ms = inl KeyError ↔ ui = internal.
Proof.
  intros (st & Hrun & -> & Hui & _)%reconcile_inr.
  pose proof (run_inv_final _ _ _ _ _ Hrun) as (_ & _ & _ & _ & _ & _ & _ & _ & Hlen & _).
  apply run_ordered_final in Hrun as (pairs & Hp & _ & Hun & _).
  pose proof (Forall2_length _ _ _ (loc_inr _ _ _ Hui)) as Hl.
  unfold match_ids, column. split.
  - destruct (matches st) as [|m ms] eqn:Hm; [|done]. intros _.
    apply Forall2_nil_inv_r in Hp as ->.
    rewrite Hun, filter_all, loc_all in Hui by (intros; apply not_elem_of_nil).
    by injection Hui.
  - intros ->. destruct (matches st) as [|m ms]; [done|]. simpl in Hlen. lia.
Qed.

Lemma match_ids_raises_iff_nothing_matched_witness :
  ∃ ms ui ub,
    reconcile sample_internal sample_bank 2 50 2 = inr (ms, ui, ub) ∧
    (match_ids ms = inl KeyError ↔ ui = sample_internal).
Proof.
  eexists _, _, _. split; [vm_compute; reflexivity|].
  refine (match_ids_raises_iff_nothing_matched sample_internal sample_bank 2 50 2 _ _ _ _).
  vm_compute; reflexivity.
Defined.

Lemma reconcile_keeps_order_witness :
  ∃ ms ui ub,
    reconcile sample_internal sample_bank 2 50 (3 # 4) = inr (ms, ui, ub) ∧
    ui `sublist_of` sample_internal ∧
    ub `sublist_of` sample_bank ∧
    (record_internal_columns <$> ms) `sublist_of` (internal_columns <$> sample_internal).
Proof.
  eexists _, _, _. split; [vm_compute; reflexivity|].
  refine (reconcile_keeps_order sample_internal sample_bank 2 50 (3 # 4) _ _ _ _).
  vm_compute; reflexivity.
Defined.

Lemma reconcile_partitions_rows_witness :
  ∃ ms ui ub,
    reconcile sample_internal sample_bank 2 50 (3 # 4) = inr (ms, ui, ub) ∧
    (record_internal_columns <$> ms) ++ (internal_columns <$> ui)
      ≡ₚ internal_columns <$> sample_internal ∧
    (record_bank_columns <$> ms) ++ (bank_columns <$> ub)
      ≡ₚ bank_columns <$> sample_bank.
Proof.
  eexists _, _, _. split; [vm_compute; reflexivity|].
  refine (reconcile_partitions_rows sample_internal sample_bank 2 50 (3 # 4) _ _ _ _).
  vm_compute; reflexivity.
Defined.


Lemma reconcile_selects_best_witness :
  ∃ ms ui ub row b,
    let internal_df := [clean_internal "T1" 10 100 (Some "Acme"%string)] in
    let bank_df :=
      [clean_bank "B1" 10 (10000000000000001 # 100000000000000) (Some "Acme"%string);
       clean_bank "B2" 10 100 (Some "Acme"%string)] in
    reconcile internal_df bank_df 2 50 (3 # 4) = inr (ms, ui, ub) ∧
    internal_df !! 0 = Some row ∧
    used_before internal_df bank_df 2 (3 # 4) 0 = inr ∅ ∧
    selectable bank_df 2 (3 # 4) ∅ row 1 b ∧
    ∃ j1 b1 l1 l2,
      selectable bank_df 2 (3 # 4) ∅ row j1 b1 ∧
      record_of row b1 ∈ ms ∧
      candidates (build_buckets bank_df) row = l1 ++ (j1, b1) :: l2 ∧
      (∀ j' b', selectable bank_df 2 (3 # 4) ∅ row j' b' →
                (score row b' <= score row b1)%Q) ∧
      (∀ j' b', (j', b') ∈ l1 → selectable bank_df 2 (3 # 4) ∅ row j' b' →
                (score row b' < score row b1)%Q).
Proof.
  assert (Hsel : selectable
                   [clean_bank "B1" 10 (10000000000000001 # 100000000000000)
                      (Some "Acme"%string);
                    clean_bank "B2" 10 100 (Some "Acme"%string)] 2 (3 # 4) ∅
                   (clean_internal "T1" 10 100 (Some "Acme"%string)) 1
                   (clean_bank "B2" 10 100 (Some "Acme"%string))).
  { split; [split; [reflexivity|split; [right; left; by vm_compute|]]|by vm_compute].
    split; [apply not_elem_of_empty|]. split; by vm_compute. }
  eexists _, _, _, _, _. cbv zeta. split; [vm_compute; reflexivity|].
  split; [reflexivity|]. split; [reflexivity|]. split; [exact Hsel|].
  refine (reconcile_selects_best
            [clean_internal "T1" 10 100 (Some "Acme"%string)]
            [clean_bank "B1" 10 (10000000000000001 # 100000000000000) (Some "Acme"%string);
             clean_bank "B2" 10 100 (Some "Acme"%string)]
            2 50 (3 # 4) _ _ _ 0 _ ∅ 1 _ _ _ _ Hsel).
  - vm_compute; reflexivity.
  - reflexivity.
  - reflexivity.
Defined.
